(** * Abalone: board topology, selection rule, move enumeration and move
    application.

    Shallow embedding of the rules engine of the Abalone game:
    - [src/src/App.jsx], lines 1-229 (the inline [moves] computation,
      [executeMove] and the inline click handler of the board buttons),
      embedded in module [App];
    - [src/unnamed/part_000], lines 65-418 ([getNeighbors], [handleCellClick],
      [getPossibleMoves], [makeMove]), embedded in module [Part000].

    Cells are JavaScript numbers used as integers, modelled as [Z].  The board
    is a JavaScript object used as a map from cell to colour, modelled as
    [gmap Z color]: a missing key is an empty cell ([!board[c]]).  *)

From Stdlib Require Import ZArith List Bool Lia.
From stdpp Require Import base decidable option list sorting gmap strings.

Local Open Scope Z_scope.

(** ** Colours and scores *)

(** The two colour tags ['white'] and ['black']. *)
Inductive color : Set :=
| white
| black.

#[global] Instance color_eq_dec : EqDecision color.
Proof. solve_decision. Defined.

(** [role === 'black' ? 'white' : 'black'] *)
Definition opponentOf (role : color) : color :=
  match role with
  | black => white
  | white => black
  end.

(** The object [{white: n, black: m}]. *)
Record Scores : Set := mkScores { s_white : Z; s_black : Z }.

(** [s[role]] *)
Definition scoreOf (s : Scores) (role : color) : Z :=
  match role with
  | white => s_white s
  | black => s_black s
  end.

(** [s[role]++] and [s[role] += 1] *)
Definition incrScore (s : Scores) (role : color) : Scores :=
  match role with
  | white => {| s_white := s_white s + 1; s_black := s_black s |}
  | black => {| s_white := s_white s; s_black := s_black s + 1 |}
  end.

(** [s.white >= 6 ? 'white' : s.black >= 6 ? 'black' : null] *)
Definition winnerOf (s : Scores) : option color :=
  if 6 <=? s_white s then Some white
  else if 6 <=? s_black s then Some black
  else None.

(** ** Board topology *)

(** [standardRows]: the nine rows of the board, top to bottom. *)
Definition standardRows : list (list Z) :=
  [ [15;16;17;18;19];
    [24;25;26;27;28;29];
    [33;34;35;36;37;38;39];
    [42;43;44;45;46;47;48;49];
    [51;52;53;54;55;56;57;58;59];
    [61;62;63;64;65;66;67;68];
    [71;72;73;74;75;76;77];
    [81;82;83;84;85;86];
    [91;92;93;94;95] ].

(** [CELLS] *)
Definition CELLS : list Z :=
  [ 15;16;17;18;19;
    24;25;26;27;28;29;
    33;34;35;36;37;38;39;
    42;43;44;45;46;47;48;49;
    51;52;53;54;55;56;57;58;59;
    61;62;63;64;65;66;67;68;
    71;72;73;74;75;76;77;
    81;82;83;84;85;86;
    91;92;93;94;95 ].

(** [CELL_SET = new Set(CELLS)] *)
Definition CELL_SET : gset Z := list_to_set CELLS.

(** [CELL_SET.has(c)] *)
Definition CELL_SET_has (c : Z) : bool := bool_decide (c ∈ CELL_SET).

(** [getNeighbors(cell)] (part_000): the candidates
    [cell-1, cell+1, cell-9, cell+9, cell-10, cell+10], kept when valid. *)
Definition getNeighbors (cell : Z) : list Z :=
  let candidates := [cell - 1; cell + 1; cell - 9; cell + 9; cell - 10; cell + 10] in
  foldl (fun neighbors c => if CELL_SET_has c then neighbors ++ [c] else neighbors)
    [] candidates.

(** Position classes of the hexagon, read off [standardRows]: the six corners
    are the two ends of the first, the middle and the last row; the other
    cells of the first and last row and the other row ends are edge cells;
    the remaining cells are interior. *)
Definition rowEnds (row : list Z) : list Z :=
  match row with
  | [] => []
  | c :: _ => [c; List.last row c]
  end.

Definition cornerCells : list Z :=
  rowEnds (nth 0 standardRows []) ++ rowEnds (nth 4 standardRows [])
  ++ rowEnds (nth 8 standardRows []).

Definition rimCells : list Z :=
  nth 0 standardRows [] ++ nth 8 standardRows [] ++ flat_map rowEnds standardRows.

Definition isCorner (c : Z) : bool := bool_decide (c ∈ cornerCells).
Definition isEdge (c : Z) : bool := bool_decide (c ∈ rimCells) && negb (isCorner c).
Definition isInterior (c : Z) : bool :=
  CELL_SET_has c && negb (bool_decide (c ∈ rimCells)).

(** ** Helpers shared by the two versions *)

(** [[...cells].sort((a,b) => a-b)]: ascending numeric sort (the engine's sort
    is a stable merge sort, as is [merge_sort]). *)
Definition sortAsc (cells : list Z) : list Z := merge_sort Z.le cells.

(** [arr.includes(x)] *)
Definition includes (arr : list Z) (x : Z) : bool := bool_decide (x ∈ arr).

(** [arr[i]] on an index the caller has checked to be in range. *)
Definition at_ (arr : list Z) (i : nat) : Z := nth i arr 0.

(** [!board[c]] *)
Definition isFree (board : gmap Z color) (c : Z) : bool :=
  match board !! c with
  | None => true
  | Some _ => false
  end.

(** The loop condition
    [CELL_SET.has(cur) && board[cur] && board[cur] !== playerRole]. *)
Definition holdsOpponent (board : gmap Z color) (playerRole : color) (cur : Z) : bool :=
  CELL_SET_has cur &&
  match board !! cur with
  | Some col => negb (bool_decide (col = playerRole))
  | None => false
  end.

(** The push walk
    [while (cond(cur)) { pushed.push(cur); cur += dir; }]
    returning the final [pushed] and [cur].  The loop is unrolled at most
    [fuel] times; [pushWalk_exit] shows that with [walkFuel] iterations and a
    non-zero [dir] the loop always ends because its condition fails. *)
Fixpoint pushWalk (fuel : nat) (board : gmap Z color) (playerRole : color)
    (dir : Z) (pushed : list Z) (cur : Z) : list Z * Z :=
  match fuel with
  | O => (pushed, cur)
  | S fuel' =>
      if holdsOpponent board playerRole cur
      then pushWalk fuel' board playerRole dir (pushed ++ [cur]) (cur + dir)
      else (pushed, cur)
  end.

Definition walkFuel : nat := 100.

(** [directions] / the literal [[1, -1, 9, -9, 10, -10]] *)
Definition directions : list Z := [1; -1; 9; -9; 10; -10].

(** [selected.forEach(c => delete b[c])] *)
Definition deleteAll (cells : list Z) (b : gmap Z color) : gmap Z color :=
  foldl (fun b c => delete c b) b cells.

(** [cells.forEach(c => b[c] = role)] *)
Definition setAll (cells : list Z) (role : color) (b : gmap Z color) : gmap Z color :=
  foldl (fun b c => <[c := role]> b) b cells.


(** [arr.every((val, i) => f(val, i))], from index [i] on. *)
Fixpoint everyFrom (f : Z -> nat -> bool) (i : nat) (arr : list Z) : bool :=
  match arr with
  | [] => true
  | val :: rest => f val i && everyFrom f (S i) rest
  end.

(** A candidate transition, the objects
    [{dir, cells, type: 'move'}] and
    [{dir, cells, type: 'push', pushed, pushTo, triggerCell}].
    The property [pushTo] is only written by [getPossibleMoves] of part_000;
    the push objects of App.jsx do not have it ([None]). *)
Inductive Move : Type :=
| SimpleMove (dir : Z) (cells : list Z)
| PushMove (dir : Z) (cells : list Z) (pushed : list Z) (pushTo : option Z)
    (triggerCell : Z).

Definition m_cells (m : Move) : list Z :=
  match m with
  | SimpleMove _ cells => cells
  | PushMove _ cells _ _ _ => cells
  end.

(** [possible.push(m)] / [moves.push(m)] for the at most one move a direction
    yields. *)
Definition recordMove (possible : list Move) (found : option Move) : list Move :=
  match found with
  | Some m => possible ++ [m]
  | None => possible
  end.

(** ** src/src/App.jsx *)

Module App.

(** [isArithmeticSequence(cells)] (App.jsx, lines 16-22) *)
Definition isArithmeticSequence (cells : list Z) : bool :=
  if (length cells <=? 1)%nat then true
  else
    let sorted := sortAsc cells in
    let diff := at_ sorted 1 - at_ sorted 0 in
    if negb (includes [1; 9; 10] diff) then false
    else everyFrom (fun val i => (i =? 0)%nat || (val - at_ sorted (i - 1) =? diff))
           0 sorted.

(** The synchronised [gameState] object.  Its fields [players] and
    [gameStarted] are carried along unchanged by [{...gameState, ...}] and are
    never read by the rules, so they are left out. *)
Record GameState : Type := mkGameState {
  board : gmap Z color;
  scores : Scores;
  winner : option color;
  currentTurn : color
}.

(** The component state the rules read: [gameState], [playerRole] and
    [selected].  [playerRole] is the colour of a joined player. *)
Record State : Type := mkState {
  gameState : GameState;
  playerRole : color;
  selected : list Z
}.

(** The body of [[1, -1, 9, -9, 10, -10].forEach(dir => ...)] (lines 102-122):
    the move recorded for [dir], if any. *)
Definition moveInDir (st : State) (sorted : list Z) (dir : Z) : option Move :=
  let b := board (gameState st) in
  let targetCells := map (fun c => c + dir) sorted in
  if negb (forallb CELL_SET_has targetCells) then None
  else if forallb (fun c => isFree b c || includes (selected st) c) targetCells
  then Some (SimpleMove dir targetCells)
  else if (1 <? length (selected st))%nat then
    let diff := at_ sorted 1 - at_ sorted 0 in
    if (dir =? diff) || (dir =? - diff) then
      let front := if 0 <? dir then at_ sorted (length sorted - 1) else at_ sorted 0 in
      let '(pushed, cur) := pushWalk walkFuel b (playerRole st) dir [] (front + dir) in
      if (0 <? length pushed)%nat && (length pushed <? length (selected st))%nat
         && (negb (CELL_SET_has cur) || isFree b cur)
      then Some (PushMove dir targetCells pushed None front)
      else None
    else None
  else None.

(** [moves] (lines 98-124).  The test [!gameState] of the guard is false
    once the game has been loaded, which [State] assumes. *)
Definition moves (st : State) : list Move :=
  if (length (selected st) =? 0)%nat
     || negb (bool_decide (currentTurn (gameState st) = playerRole st))
  then []
  else
    let sorted := sortAsc (selected st) in
    foldl (fun possible dir => recordMove possible (moveInDir st sorted dir))
      [] directions.

(** [moveMap] (lines 126-130): the cell whose button triggers a move. *)
Definition moveKey (st : State) (m : Move) : option Z :=
  match m with
  | PushMove _ _ pushed _ _ => head pushed
  | SimpleMove _ cells => List.find (fun c => negb (includes (selected st) c)) cells
  end.

Definition moveMap (st : State) : gmap Z Move :=
  foldl (fun mm m =>
           match moveKey st m with
           | Some key => if key =? 0 then mm else <[key := m]> mm
           | None => mm
           end)
    ∅ (moves st).

(** The push branch of [executeMove] (lines 136-142): one pass over
    [m.pushed] that deletes the cell and writes its destination. *)
Definition resolvePush (playerRole : color) (dir : Z) (pushed : list Z)
    (bs : gmap Z color * Scores) : gmap Z color * Scores :=
  foldl (fun '(b, s) c =>
           let b := delete c b in
           if CELL_SET_has (c + dir)
           then (<[c + dir := opponentOf playerRole]> b, s)
           else (b, incrScore s playerRole))
    bs pushed.

(** [executeMove(m)] (lines 132-148).  The [PUT] to the store is left out;
    the result is the state after [setGameState(next)] and [setSelected([])]. *)
Definition executeMove (st : State) (m : Move) : State :=
  let b := board (gameState st) in
  let s := scores (gameState st) in
  let opp := opponentOf (playerRole st) in
  let '(b, s) :=
    match m with
    | PushMove dir _ pushed _ _ => resolvePush (playerRole st) dir pushed (b, s)
    | SimpleMove _ _ => (b, s)
    end in
  let b := deleteAll (selected st) b in
  let b := setAll (m_cells m) (playerRole st) b in
  let win := winnerOf s in
  {| gameState := {| board := b; scores := s; winner := win; currentTurn := opp |};
     playerRole := playerRole st;
     selected := [] |}.

(** The selection rule of the click handler (line 188), the branch taken when
    the clicked cell triggers no move:
    [color === playerRole && (isSel ? ... : ...)]. *)
Definition selectCell (st : State) (cell : Z) : list Z :=
  let color := board (gameState st) !! cell in
  let isSel := includes (selected st) cell in
  if bool_decide (color = Some (playerRole st)) then
    if isSel then filter (fun c => c ≠ cell) (selected st)
    else if (length (selected st) <? 3)%nat
            && isArithmeticSequence (selected st ++ [cell])
    then selected st ++ [cell]
    else [cell]
  else selected st.

(** [onClick={() => mv ? executeMove(mv) : (...)}] (line 188) *)
Definition onClick (st : State) (cell : Z) : State :=
  match moveMap st !! cell with
  | Some mv => executeMove st mv
  | None =>
      {| gameState := gameState st; playerRole := playerRole st;
         selected := selectCell st cell |}
  end.

End App.

(** ** src/unnamed/part_000 *)

Module Part000.

(** [isArithmeticSequence(cells)] (part_000, lines 95-104) *)
Definition isArithmeticSequence (cells : list Z) : bool :=
  if (length cells <=? 1)%nat then true
  else
    let sorted := sortAsc cells in
    let diff := at_ sorted 1 - at_ sorted 0 in
    if negb (includes [1; 9; 10] diff) then false
    else forallb (fun i => at_ sorted i - at_ sorted (i - 1) =? diff)
           (seq 2 (length sorted - 2)).

(** The React state variables the rules read and write (lines 111-121).
    [playerRole] is the colour of a joined player, so the test [!playerRole]
    of [handleCellClick] is false. *)
Record State : Type := mkState {
  board : gmap Z color;
  currentTurn : color;
  selected : list Z;
  gameStarted : bool;
  scores : Scores;
  winner : option color;
  playerRole : color
}.

Definition setSelected (st : State) (sel : list Z) : State :=
  {| board := board st; currentTurn := currentTurn st; selected := sel;
     gameStarted := gameStarted st; scores := scores st; winner := winner st;
     playerRole := playerRole st |}.

(** [handleCellClick(cell)] (lines 165-180).  [setMessage] only changes the
    hint shown to the user and is left out. *)
Definition handleCellClick (st : State) (cell : Z) : State :=
  if bool_decide (winner st ≠ None)
     || (gameStarted st && negb (bool_decide (currentTurn st = playerRole st)))
  then st
  else
    let cellColor := board st !! cell in
    if includes (selected st) cell
    then setSelected st (filter (fun c => c ≠ cell) (selected st))
    else if bool_decide (cellColor = Some (playerRole st)) then
      if (length (selected st) =? 0)%nat then setSelected st [cell]
      else if (length (selected st) <? 3)%nat then
        let sortedPlus := sortAsc (selected st ++ [cell]) in
        if isArithmeticSequence sortedPlus then setSelected st sortedPlus
        else st
      else st
    else st.

(** The body of [for (let dir of directions)] (lines 188-212): the move
    recorded for [dir], if any.  [diff] is [null] for a single cell; [None]
    and a zero [diff] are both falsy in [if (diff && ...)]. *)
Definition moveInDir (st : State) (sorted : list Z) (dir : Z) : option Move :=
  let newCells := map (fun c => c + dir) sorted in
  if negb (forallb CELL_SET_has newCells) then None
  else if forallb (fun c => isFree (board st) c || includes (selected st) c) newCells
  then Some (SimpleMove dir newCells)
  else
    let diff := if (1 <? length sorted)%nat
                then Some (at_ sorted 1 - at_ sorted 0) else None in
    match diff with
    | Some diff =>
        if negb (diff =? 0) && ((dir =? diff) || (dir =? - diff)) then
          let front := if 0 <? dir then at_ sorted (length sorted - 1)
                       else at_ sorted 0 in
          let '(pushCells, current) :=
            pushWalk walkFuel (board st) (playerRole st) dir [] (front + dir) in
          if (0 <? length pushCells)%nat
             && (length pushCells <? length (selected st))%nat
          then
            if negb (CELL_SET_has current) || isFree (board st) current
            then Some (PushMove dir newCells pushCells (Some current) front)
            else None
          else None
        else None
    | None => None
    end.

(** [getPossibleMoves()] (lines 182-214) *)
Definition getPossibleMoves (st : State) : list Move :=
  if (length (selected st) =? 0)%nat then []
  else
    let sorted := sortAsc (selected st) in
    foldl (fun moves dir => recordMove moves (moveInDir st sorted dir))
      [] directions.

(** [moveMap] (lines 244-253) *)
Definition moveMap (st : State) : gmap Z Move :=
  foldl (fun mm m =>
           match m with
           | PushMove _ _ pushed _ triggerCell =>
               <[triggerCell := m]> (<[at_ pushed 0 := m]> mm)
           | SimpleMove _ cells =>
               match List.find (fun c => negb (includes (selected st) c)) cells with
               | Some target => if target =? 0 then mm else <[target := m]> mm
               | None => mm
               end
           end)
    ∅ (getPossibleMoves st).

(** The first pass of the push branch of [makeMove] (line 222):
    [move.pushed.forEach(c => delete newBoard[c])]. *)
Definition clearPushed (pushed : list Z) (b : gmap Z color) : gmap Z color :=
  deleteAll pushed b.

(** The second pass (lines 223-227): every pushed piece goes to
    [c + move.dir], or off the board for one point. *)
Definition relocatePushed (playerRole : color) (dir : Z) (pushed : list Z)
    (bs : gmap Z color * Scores) : gmap Z color * Scores :=
  foldl (fun '(newBoard, newScores) c =>
           let target := c + dir in
           if CELL_SET_has target
           then (<[target := opponentOf playerRole]> newBoard, newScores)
           else (newBoard, incrScore newScores playerRole))
    bs pushed.

(** [makeMove(move)] (lines 216-241) *)
Definition makeMove (st : State) (move : Move) : State :=
  let newBoard := board st in
  let newScores := scores st in
  let '(newBoard, newScores) :=
    match move with
    | PushMove dir _ pushed _ _ =>
        relocatePushed (playerRole st) dir pushed
          (clearPushed pushed newBoard, newScores)
    | SimpleMove _ _ => (newBoard, newScores)
    end in
  let newBoard := deleteAll (selected st) newBoard in
  let newBoard := setAll (m_cells move) (playerRole st) newBoard in
  let newTurn := opponentOf (currentTurn st) in
  let newWinner := winnerOf newScores in
  {| board := newBoard; currentTurn := newTurn; selected := [];
     gameStarted := gameStarted st; scores := newScores; winner := newWinner;
     playerRole := playerRole st |}.

(** [onClick={() => mv ? makeMove(mv) : handleCellClick(cell)}] (line 386) *)
Definition onClick (st : State) (cell : Z) : State :=
  match moveMap st !! cell with
  | Some mv => makeMove st mv
  | None => handleCellClick st cell
  end.

End Part000.

(** ** Specification-side notions used to state the properties *)

(** The cells [cur, cur + dir, ..., cur + (k-1) * dir]. *)
Fixpoint runFrom (cur dir : Z) (k : nat) : list Z :=
  match k with
  | O => []
  | S k' => cur :: runFrom (cur + dir) dir k'
  end.

(** The far cell of a push: the first cell past the pushed run. *)
Definition farCell (dir : Z) (pushed : list Z) : Z := List.last pushed 0 + dir.

(** Every key of the board is one of the 61 valid cells. *)
Definition boardValid (b : gmap Z color) : Prop :=
  forall c, is_Some (b !! c) -> CELL_SET_has c = true.

(** The sorted coordinates form a constant-step sequence of length 2 or 3
    whose step is 1, 9 or 10. *)
Definition isLine (sel : list Z) : Prop :=
  exists a d, (d = 1 \/ d = 9 \/ d = 10) /\
    (sortAsc sel = [a; a + d] \/ sortAsc sel = [a; a + d; a + 2 * d]).

(** Selections built from the empty selection by clicks that enlarge the
    selection, for the click rule [click] of either version. *)
Inductive builtBy (click : list Z -> Z -> list Z) : list Z -> Prop :=
| built_empty : builtBy click []
| built_extend sel cell :
    builtBy click sel ->
    length (click sel cell) = S (length sel) ->
    builtBy click (click sel cell).

(** [dir > 0 ? sorted[sorted.length - 1] : sorted[0]]: the leading cell. *)
Definition frontOf (sorted : list Z) (dir : Z) : Z :=
  if 0 <? dir then at_ sorted (length sorted - 1) else at_ sorted 0.

(** What the enumeration has checked when it records a simple move. *)
Definition simpleFacts (b : gmap Z color) (sel : list Z) (dir : Z)
    (cells : list Z) : Prop :=
  dir ∈ directions /\
  cells = map (fun c => c + dir) (sortAsc sel) /\
  forallb CELL_SET_has cells = true /\
  forallb (fun c => isFree b c || includes sel c) cells = true.

(** What the enumeration has checked when it records a push: the pushed
    cells are the run of [S k] opponent pieces in front of the leading cell,
    the run is shorter than the selection, and the far cell is off the board
    or free. *)
Definition pushFacts (b : gmap Z color) (player : color) (sel : list Z)
    (dir : Z) (cells pushed : list Z) : Prop :=
  dir ∈ directions /\
  cells = map (fun c => c + dir) (sortAsc sel) /\
  forallb CELL_SET_has cells = true /\
  exists k,
    pushed = runFrom (frontOf (sortAsc sel) dir + dir) dir (S k) /\
    (S k < length sel)%nat /\
    Forall (fun c => holdsOpponent b player c = true) pushed /\
    (CELL_SET_has (farCell dir pushed) = false \/ b !! farCell dir pushed = None).

(** The neighbour count expected of a cell by its position class. *)
Definition neighborCountOk (c : Z) : bool :=
  let n := length (getNeighbors c) in
  (if isCorner c then (n =? 3)%nat else true)
  && (if isEdge c then (n =? 4)%nat else true)
  && (if isInterior c then (n =? 6)%nat else true)
  && (isCorner c || isEdge c || isInterior c).

(** The selection rule of either version as a function of the selection
    alone, the rest of the state being fixed. *)
Definition appClick (gs : App.GameState) (player : color) (sel : list Z)
    (cell : Z) : list Z :=
  App.selectCell (App.mkState gs player sel) cell.

Definition partClick (st : Part000.State) (sel : list Z) (cell : Z) : list Z :=
  Part000.selected (Part000.handleCellClick (Part000.setSelected st sel) cell).

(** Four black pieces on the middle row: 51-52-53 and, apart from them, 55. *)
Definition rowWithGap : gmap Z color :=
  list_to_map [(51, black); (52, black); (53, black); (55, black)].

(** The score bookkeeping of a push, common to both versions: one point for
    the mover per pushed cell whose destination is off the board. *)
Definition scoreAfter (playerRole : color) (dir : Z) (pushed : list Z)
    (s : Scores) : Scores :=
  foldl (fun s c => if CELL_SET_has (c + dir) then s else incrScore s playerRole)
    s pushed.

(** The on-board destinations of the pushed cells. *)
Definition validDests (dir : Z) (pushed : list Z) : list Z :=
  List.filter CELL_SET_has (map (fun c => c + dir) pushed).

(** One user action on the rendered board of part_000: a click on a cell
    button or on "Clear Selection".  The board and its buttons are rendered
    only once [gameStarted] holds (line 293). *)
Inductive gameViewStep : Part000.State -> Part000.State -> Prop :=
| step_click st cell :
    Part000.gameStarted st = true ->
    gameViewStep st (Part000.onClick st cell)
| step_clear st :
    Part000.gameStarted st = true ->
    gameViewStep st (Part000.setSelected st []).

(** States reached from an empty selection ([useState([])]) by user actions. *)
Inductive gameViewReachable : Part000.State -> Prop :=
| reach_start st : Part000.selected st = [] -> gameViewReachable st
| reach_step st st' :
    gameViewReachable st -> gameViewStep st st' -> gameViewReachable st'.

(** ** Concrete positions used in the examples *)

Definition boardOf (l : list (Z * color)) : gmap Z color := list_to_map l.

(** Black 51-52-53 faces white 54-55 on the middle row; the far cell 56 is
    free. *)
Definition rowPushInside : gmap Z color :=
  boardOf [(51, black); (52, black); (53, black); (54, white); (55, white)].

(** Black 55-56-57 faces white 58-59 at the rim of the middle row; the far
    cell 60 is off the board. *)
Definition rowPushOut : gmap Z color :=
  boardOf [(55, black); (56, black); (57, black); (58, white); (59, white)].

(** Black to move, no points yet, with board [b] and selection [sel]. *)
Definition appState (b : gmap Z color) (sel : list Z) : App.State :=
  App.mkState (App.mkGameState b (mkScores 0 0) None black) black sel.

Definition partState (b : gmap Z color) (sel : list Z) : Part000.State :=
  Part000.mkState b black sel true (mkScores 0 0) None black.

(** [m.dir] *)
Definition m_dir (m : Move) : Z :=
  match m with
  | SimpleMove dir _ => dir
  | PushMove dir _ _ _ _ => dir
  end.

(** Whether a direction yields a move. *)
Definition yields (found : option Move) : bool :=
  match found with
  | Some _ => true
  | None => false
  end.

(** A well-formed selection on board [b] for [player]: at most three cells,
    no cell twice, every cell occupied by the player's colour. *)
Definition selectionOk (b : gmap Z color) (player : color) (sel : list Z) : Prop :=
  (length sel <= 3)%nat /\ NoDup sel /\ Forall (fun c => b !! c = Some player) sel.

(** [m.pushed], absent ([[]]) on a simple move. *)
Definition pushedOf (m : Move) : list Z :=
  match m with
  | SimpleMove _ _ => []
  | PushMove _ _ pushed _ _ => pushed
  end.

(** Where the piece standing on [k] stands after a push of [pushed] in
    direction [dir]. *)
Definition relocated (dir : Z) (pushed : list Z) (k : Z) : Z :=
  if bool_decide (k ∈ pushed) then k + dir else k.

(** A push object without its [pushTo] property. *)
Definition erasePushTo (m : Move) : Move :=
  match m with
  | SimpleMove dir cells => SimpleMove dir cells
  | PushMove dir cells pushed _ triggerCell => PushMove dir cells pushed None triggerCell
  end.

(** The state of part_000 that holds the same data as App.jsx's [gameState],
    [playerRole] and [selected]. *)
Definition partOfApp (st : App.State) (gameStarted : bool) : Part000.State :=
  Part000.mkState (App.board (App.gameState st)) (App.currentTurn (App.gameState st))
    (App.selected st) gameStarted (App.scores (App.gameState st))
    (App.winner (App.gameState st)) (App.playerRole st).

(** [ghostPositions] (part_000, lines 255-265): the cells on which a ghost
    of the player's piece is drawn. *)
Definition ghostPositions (st : Part000.State) : gmap Z color :=
  foldl (fun ghosts m =>
           match m with
           | SimpleMove _ cells =>
               foldl (fun ghosts cell =>
                        if negb (includes (Part000.selected st) cell)
                        then <[cell := Part000.playerRole st]> ghosts
                        else ghosts)
                 ghosts cells
           | PushMove _ _ _ _ _ => ghosts
           end)
    ∅ (Part000.getPossibleMoves st).

(** [pushableEnemies] (part_000, lines 267-273): the cells drawn as pushable. *)
Definition pushableEnemies (st : Part000.State) : gset Z :=
  foldl (fun enemies m =>
           match m with
           | PushMove _ _ pushed _ _ =>
               foldl (fun enemies c => {[c]} ∪ enemies) enemies pushed
           | SimpleMove _ _ => enemies
           end)
    ∅ (Part000.getPossibleMoves st).

(** ** The lobby of part_000 *)

(** [WHITE_INITIAL] and [BLACK_INITIAL] *)
Definition WHITE_INITIAL : list Z :=
  [15; 16; 17; 18; 19; 24; 25; 26; 27; 28; 29; 35; 36; 37].
Definition BLACK_INITIAL : list Z :=
  [73; 74; 75; 81; 82; 83; 84; 85; 86; 91; 92; 93; 94; 95].

(** The board filled by
    [WHITE_INITIAL.forEach(c => newBoard[c] = 'white');
     BLACK_INITIAL.forEach(c => newBoard[c] = 'black')]. *)
Definition initialBoard : gmap Z color :=
  setAll BLACK_INITIAL black (setAll WHITE_INITIAL white ∅).

Module Lobby.

(** The object [{ white: ..., black: ... }] of joined flags. *)
Record Players : Set := mkPlayers { white_joined : bool; black_joined : bool }.

(** [players[role]] *)
Definition joined (players : Players) (role : color) : bool :=
  match role with
  | white => white_joined players
  | black => black_joined players
  end.

(** [{ ...players, [role]: true }] *)
Definition join (players : Players) (role : color) : Players :=
  match role with
  | white => {| white_joined := true; black_joined := black_joined players |}
  | black => {| white_joined := white_joined players; black_joined := true |}
  end.

(** The React state variables [startGame] reads and writes (part_000, lines
    111-121); [gameId] and [playerRole] start as [null]. *)
Record State : Type := mkState {
  gameId : option string;
  playerRole : option color;
  players : Players;
  board : gmap Z color;
  gameStarted : bool
}.

(** [startGame()] (part_000, lines 138-163).  [setLoading], [setMessage] and
    the write to [localStorage] are left out. *)
Definition startGame (st : State) : State :=
  match gameId st with
  | None => st
  | Some _ =>
      let role :=
        match playerRole st with
        | Some role => Some role
        | None =>
            if negb (black_joined (players st)) then Some black
            else if negb (white_joined (players st)) then Some white
            else None
        end in
      match role with
      | None => st
      | Some role =>
          let newBoard :=
            if (size (board st) =? 0)%nat then initialBoard else ∅ in
          let newPlayers := join (players st) role in
          {| gameId := gameId st;
             playerRole := Some role;
             players := newPlayers;
             board := newBoard;
             gameStarted := white_joined newPlayers && black_joined newPlayers |}
      end
  end.

End Lobby.

(** Boards reached in part_000 from the initial position by applying possible
    moves, with any selection in between. *)
Inductive played : Part000.State -> Prop :=
| played_start st : Part000.board st = initialBoard -> played st
| played_select st sel : played st -> played (Part000.setSelected st sel)
| played_move st m :
    played st -> m ∈ Part000.getPossibleMoves st -> played (Part000.makeMove st m).

(** ** The board of the version with offsets 1, 9 and 11 (part_000, lines
    1017-1049) *)

Module Offsets11.

(** [CELLS] *)
Definition CELLS : list Z :=
  [ 11;12;13;14;15;
    21;22;23;24;25;26;
    31;32;33;34;35;36;37;
    41;42;43;44;45;46;47;48;
    51;52;53;54;55;56;57;58;59;
    61;62;63;64;65;66;67;68;
    71;72;73;74;75;76;77;
    81;82;83;84;85;86;
    91;92;93;94;95 ].

(** [CELL_SET = new Set(CELLS)] and [CELL_SET.has(c)] *)
Definition CELL_SET : gset Z := list_to_set CELLS.
Definition CELL_SET_has (c : Z) : bool := bool_decide (c ∈ CELL_SET).

(** [getNeighbors(cell)]: the candidates
    [cell-1, cell+1, cell-9, cell+9, cell-11, cell+11], kept when valid. *)
Definition getNeighbors (cell : Z) : list Z :=
  let candidates := [cell - 1; cell + 1; cell - 9; cell + 9; cell - 11; cell + 11] in
  foldl (fun neighbors c => if CELL_SET_has c then neighbors ++ [c] else neighbors)
    [] candidates.

(** The neighbour count of a cell is within 2..6, and is 2 only at 11 and 91. *)
Definition countOk (c : Z) : bool :=
  let n := length (getNeighbors c) in
  (2 <=? n)%nat && (n <=? 6)%nat
  && bool_decide ((n = 2)%nat <-> (c = 11 \/ c = 91)).

End Offsets11.

(** * Properties *)

(** ** Topology *)

Lemma CELL_SET_has_true c : CELL_SET_has c = true <-> c ∈ CELLS.
Proof.
  unfold CELL_SET_has, CELL_SET.
  rewrite bool_decide_eq_true. apply elem_of_list_to_set.
Qed.

Lemma CELLS_bounds : Forall (fun c => 15 <= c <= 95) CELLS.
Proof. unfold CELLS. repeat constructor; lia. Qed.

Lemma CELL_SET_has_bounds c : CELL_SET_has c = true -> 15 <= c <= 95.
Proof.
  intros H. apply CELL_SET_has_true in H.
  pose proof CELLS_bounds as HB. rewrite Forall_forall in HB. auto.
Qed.

(** ** The push walk *)

Lemma holdsOpponent_valid b p c : holdsOpponent b p c = true -> CELL_SET_has c = true.
Proof. unfold holdsOpponent. intros H. apply andb_true_iff in H. tauto. Qed.

Lemma holdsOpponent_color b p c :
  holdsOpponent b p c = true -> b !! c = Some (opponentOf p).
Proof.
  unfold holdsOpponent. intros H. apply andb_true_iff in H as [_ H].
  destruct (b !! c) as [col|]; [|discriminate].
  apply negb_true_iff, bool_decide_eq_false in H.
  destruct col, p; simpl; congruence.
Qed.

Lemma pushWalk_run fuel b p dir : forall pushed cur pushed' cur',
  pushWalk fuel b p dir pushed cur = (pushed', cur') ->
  exists k, pushed' = pushed ++ runFrom cur dir k
    /\ cur' = cur + Z.of_nat k * dir
    /\ Forall (fun c => holdsOpponent b p c = true) (runFrom cur dir k).
Proof.
  induction fuel as [|fuel IH]; intros pushed cur pushed' cur' H; simpl in H.
  - exists 0%nat. inversion H; subst. simpl. rewrite app_nil_r.
    repeat split; [lia | constructor].
  - destruct (holdsOpponent b p cur) eqn:Hc.
    + apply IH in H as (k & Hp & Hcur & Hall).
      exists (S k). simpl. rewrite Hp, <- app_assoc. simpl.
      repeat split; [lia | constructor; assumption].
    + exists 0%nat. inversion H; subst. simpl. rewrite app_nil_r.
      repeat split; [lia | constructor].
Qed.

Lemma pushWalk_exit_gen b p dir : dir <> 0 -> forall fuel pushed cur pushed' cur',
  (holdsOpponent b p cur = true ->
     (0 < dir -> 95 - cur < Z.of_nat fuel) /\ (dir < 0 -> cur - 15 < Z.of_nat fuel)) ->
  pushWalk fuel b p dir pushed cur = (pushed', cur') ->
  holdsOpponent b p cur' = false.
Proof.
  intros Hd. induction fuel as [|fuel IH]; intros pushed cur pushed' cur' Hm H; simpl in H.
  - inversion H; subst.
    destruct (holdsOpponent b p cur') eqn:Hc; [|reflexivity].
    pose proof (CELL_SET_has_bounds _ (holdsOpponent_valid _ _ _ Hc)).
    destruct (Hm eq_refl). lia.
  - destruct (holdsOpponent b p cur) eqn:Hc.
    + eapply IH; [|exact H]. intros Hc'.
      pose proof (CELL_SET_has_bounds _ (holdsOpponent_valid _ _ _ Hc')).
      destruct (Hm eq_refl). lia.
    + inversion H; subst. exact Hc.
Qed.

(** With [walkFuel] iterations the walk stops because the loop condition is
    false at the final [cur], never because the unrolling ran out. *)
Lemma pushWalk_exit b p dir cur pushed' cur' :
  dir <> 0 ->
  pushWalk walkFuel b p dir [] cur = (pushed', cur') ->
  holdsOpponent b p cur' = false.
Proof.
  intros Hd. apply pushWalk_exit_gen; [assumption|].
  intros Hc. pose proof (CELL_SET_has_bounds _ (holdsOpponent_valid _ _ _ Hc)).
  unfold walkFuel. lia.
Qed.

Lemma elem_of_runFrom c cur dir k :
  c ∈ runFrom cur dir k <-> exists i, (i < k)%nat /\ c = cur + Z.of_nat i * dir.
Proof.
  revert cur. induction k as [|k IH]; intros cur; simpl.
  - split; [intros H; inversion H | intros (i & Hi & _); lia].
  - rewrite elem_of_cons, IH. split.
    + intros [->|(i & Hi & ->)]; [exists 0%nat | exists (S i)]; split; lia.
    + intros (i & Hi & ->). destruct i as [|i]; [left; lia|].
      right. exists i. split; lia.
Qed.

Lemma length_runFrom cur dir k : length (runFrom cur dir k) = k.
Proof. revert cur. induction k; intros; simpl; auto. Qed.

Lemma runFrom_snoc cur dir k :
  runFrom cur dir (S k) = runFrom cur dir k ++ [cur + Z.of_nat k * dir].
Proof.
  revert cur. induction k as [|k IH]; intros cur.
  - simpl. f_equal. lia.
  - change (runFrom cur dir (S (S k))) with (cur :: runFrom (cur + dir) dir (S k)).
    rewrite IH. simpl. do 3 f_equal. lia.
Qed.

Lemma farCell_runFrom cur dir k :
  farCell dir (runFrom cur dir (S k)) = cur + Z.of_nat (S k) * dir.
Proof.
  unfold farCell. rewrite runFrom_snoc, last_last. lia.
Qed.

(** ** Reading a board after a batch of deletions or writes *)

Lemma lookup_deleteAll cells (b : gmap Z color) k :
  deleteAll cells b !! k = if bool_decide (k ∈ cells) then None else b !! k.
Proof.
  unfold deleteAll. revert b. induction cells as [|c cells IH]; intros b; simpl.
  - reflexivity.
  - rewrite IH. destruct (decide (k = c)) as [->|Hne].
    + rewrite lookup_delete_eq. rewrite (bool_decide_eq_true_2 (c ∈ c :: cells)) by left.
      destruct (bool_decide _); reflexivity.
    + rewrite lookup_delete_ne by congruence.
      destruct (bool_decide (k ∈ cells)) eqn:E.
      * apply bool_decide_eq_true in E.
        rewrite bool_decide_eq_true_2 by (right; assumption). reflexivity.
      * apply bool_decide_eq_false in E.
        rewrite bool_decide_eq_false_2; [reflexivity|].
        rewrite elem_of_cons. tauto.
Qed.

Lemma lookup_setAll cells role (b : gmap Z color) k :
  setAll cells role b !! k = if bool_decide (k ∈ cells) then Some role else b !! k.
Proof.
  unfold setAll. revert b. induction cells as [|c cells IH]; intros b; simpl.
  - reflexivity.
  - rewrite IH. destruct (bool_decide (k ∈ cells)) eqn:E.
    + apply bool_decide_eq_true in E.
      rewrite bool_decide_eq_true_2 by (right; assumption). reflexivity.
    + apply bool_decide_eq_false in E. destruct (decide (k = c)) as [->|Hne].
      * rewrite lookup_insert_eq, bool_decide_eq_true_2 by left. reflexivity.
      * rewrite lookup_insert_ne by congruence.
        rewrite bool_decide_eq_false_2; [reflexivity|].
        rewrite elem_of_cons. tauto.
Qed.

(** ** Enumeration: which moves end up in the list *)

Lemma elem_of_foldl_recordMove {A} (f : A -> option Move) (l : list A) : forall acc m,
  m ∈ foldl (fun possible d => recordMove possible (f d)) acc l <->
  m ∈ acc \/ exists d, d ∈ l /\ f d = Some m.
Proof.
  induction l as [|d l IH]; intros acc m; simpl.
  - split; [auto | intros [H|(d & H & _)]; [assumption | inversion H]].
  - rewrite IH. unfold recordMove. split.
    + intros [H|(d' & Hd' & Hf)].
      * destruct (f d) as [m'|] eqn:E; [|auto].
        apply elem_of_app in H as [H|H]; [auto|].
        apply list_elem_of_singleton in H as ->. right. exists d. split; [left|assumption].
      * right. exists d'. split; [right|]; assumption.
    + intros [H|(d' & Hd' & Hf)].
      * left. destruct (f d); [apply elem_of_app|]; auto.
      * apply elem_of_cons in Hd' as [->|Hd'].
        -- left. rewrite Hf. apply elem_of_app. right. left.
        -- right. exists d'. auto.
Qed.

Lemma isFree_true b c : isFree b c = true <-> b !! c = None.
Proof. unfold isFree. destruct (b !! c); split; congruence. Qed.

Lemma walk_pushFacts b player sel dir pushed cur :
  dir ∈ directions ->
  forallb CELL_SET_has (map (fun c => c + dir) (sortAsc sel)) = true ->
  pushWalk walkFuel b player dir [] (frontOf (sortAsc sel) dir + dir) = (pushed, cur) ->
  (0 <? length pushed)%nat = true ->
  (length pushed <? length sel)%nat = true ->
  negb (CELL_SET_has cur) || isFree b cur = true ->
  pushFacts b player sel dir (map (fun c => c + dir) (sortAsc sel)) pushed.
Proof.
  intros Hdir Hvalid Hwalk Hpos Hlt Hfar.
  apply pushWalk_run in Hwalk as (k & Hp & Hcur & Hall). simpl in Hp.
  apply Nat.ltb_lt in Hpos, Hlt.
  destruct k as [|k]; [subst pushed; simpl in Hpos; lia|].
  repeat split; try assumption.
  exists k. subst pushed. rewrite length_runFrom in Hlt.
  repeat split; try assumption.
  rewrite farCell_runFrom, <- Hcur.
  apply orb_true_iff in Hfar as [Hfar|Hfar].
  - left. apply negb_true_iff in Hfar. exact Hfar.
  - right. apply isFree_true. exact Hfar.
Qed.

Lemma App_moveInDir_simple st dir d cells :
  dir ∈ directions ->
  App.moveInDir st (sortAsc (App.selected st)) dir = Some (SimpleMove d cells) ->
  d = dir /\ simpleFacts (App.board (App.gameState st)) (App.selected st) dir cells.
Proof.
  intros Hdir H. unfold App.moveInDir in H.
  destruct (forallb CELL_SET_has _) eqn:Hvalid; cbn [negb] in H; [|discriminate].
  destruct (forallb (fun c => isFree _ c || includes _ c) _) eqn:Hfree.
  - inversion H; subst. repeat split; assumption.
  - destruct (1 <? length (App.selected st))%nat; [|discriminate].
    destruct ((dir =? _) || (dir =? _)); [|discriminate].
    destruct (pushWalk _ _ _ _ _ _) as [pushed cur].
    destruct (_ && _); discriminate.
Qed.

Lemma App_moveInDir_push st dir d cells pushed pt trig :
  dir ∈ directions ->
  App.moveInDir st (sortAsc (App.selected st)) dir = Some (PushMove d cells pushed pt trig) ->
  d = dir /\
  pushFacts (App.board (App.gameState st)) (App.playerRole st) (App.selected st)
    dir cells pushed.
Proof.
  intros Hdir H. unfold App.moveInDir in H.
  destruct (forallb CELL_SET_has _) eqn:Hvalid; cbn [negb] in H; [|discriminate].
  destruct (forallb (fun c => isFree _ c || includes _ c) _) eqn:Hfree; [discriminate|].
  destruct (1 <? length (App.selected st))%nat; [|discriminate].
  destruct ((dir =? _) || (dir =? _)); [|discriminate].
  destruct (pushWalk _ _ _ _ _ _) as [pushed' cur] eqn:Hwalk.
  destruct (_ && _) eqn:Hguard; [|discriminate].
  inversion H; subst. split; [reflexivity|].
  apply andb_true_iff in Hguard as [Hguard Hfar].
  apply andb_true_iff in Hguard as [Hpos Hlt].
  eapply walk_pushFacts; eassumption.
Qed.

Lemma Part000_moveInDir_simple st dir d cells :
  dir ∈ directions ->
  Part000.moveInDir st (sortAsc (Part000.selected st)) dir = Some (SimpleMove d cells) ->
  d = dir /\ simpleFacts (Part000.board st) (Part000.selected st) dir cells.
Proof.
  intros Hdir H. unfold Part000.moveInDir in H.
  destruct (forallb CELL_SET_has _) eqn:Hvalid; cbn [negb] in H; [|discriminate].
  destruct (forallb (fun c => isFree _ c || includes _ c) _) eqn:Hfree.
  - inversion H; subst. repeat split; assumption.
  - destruct (1 <? length _)%nat; [|discriminate].
    destruct (_ && _); [|discriminate].
    destruct (pushWalk _ _ _ _ _ _) as [pushed cur].
    destruct (_ && _); [|discriminate].
    destruct (_ || _); discriminate.
Qed.

Lemma Part000_moveInDir_push st dir d cells pushed pt trig :
  dir ∈ directions ->
  Part000.moveInDir st (sortAsc (Part000.selected st)) dir
    = Some (PushMove d cells pushed pt trig) ->
  d = dir /\
  pushFacts (Part000.board st) (Part000.playerRole st) (Part000.selected st)
    dir cells pushed.
Proof.
  intros Hdir H. unfold Part000.moveInDir in H.
  destruct (forallb CELL_SET_has _) eqn:Hvalid; cbn [negb] in H; [|discriminate].
  destruct (forallb (fun c => isFree _ c || includes _ c) _) eqn:Hfree; [discriminate|].
  destruct (1 <? length _)%nat; [|discriminate].
  destruct (_ && _); [|discriminate].
  destruct (pushWalk _ _ _ _ _ _) as [pushed' cur] eqn:Hwalk.
  destruct (_ && _) eqn:Hguard; [|discriminate].
  destruct (_ || _) eqn:Hfar; [|discriminate].
  inversion H; subst. split; [reflexivity|].
  apply andb_true_iff in Hguard as [Hpos Hlt].
  eapply walk_pushFacts; eassumption.
Qed.

Lemma App_moves_elem st m :
  m ∈ App.moves st ->
  exists dir, dir ∈ directions /\
    App.moveInDir st (sortAsc (App.selected st)) dir = Some m.
Proof.
  unfold App.moves. destruct (_ || _); [intros H; inversion H|].
  intros H. apply elem_of_foldl_recordMove in H as [H|H]; [inversion H | exact H].
Qed.

Lemma Part000_moves_elem st m :
  m ∈ Part000.getPossibleMoves st ->
  exists dir, dir ∈ directions /\
    Part000.moveInDir st (sortAsc (Part000.selected st)) dir = Some m.
Proof.
  unfold Part000.getPossibleMoves. destruct (_ =? _)%nat; [intros H; inversion H|].
  intros H. apply elem_of_foldl_recordMove in H as [H|H]; [inversion H | exact H].
Qed.

Lemma App_moves_simple st dir cells :
  SimpleMove dir cells ∈ App.moves st ->
  simpleFacts (App.board (App.gameState st)) (App.selected st) dir cells.
Proof.
  intros H. apply App_moves_elem in H as (d & Hd & H).
  apply App_moveInDir_simple in H as [-> H]; assumption.
Qed.

Lemma App_moves_push st dir cells pushed pt trig :
  PushMove dir cells pushed pt trig ∈ App.moves st ->
  pushFacts (App.board (App.gameState st)) (App.playerRole st) (App.selected st)
    dir cells pushed.
Proof.
  intros H. apply App_moves_elem in H as (d & Hd & H).
  apply App_moveInDir_push in H as [-> H]; assumption.
Qed.

Lemma Part000_moves_simple st dir cells :
  SimpleMove dir cells ∈ Part000.getPossibleMoves st ->
  simpleFacts (Part000.board st) (Part000.selected st) dir cells.
Proof.
  intros H. apply Part000_moves_elem in H as (d & Hd & H).
  apply Part000_moveInDir_simple in H as [-> H]; assumption.
Qed.

Lemma Part000_moves_push st dir cells pushed pt trig :
  PushMove dir cells pushed pt trig ∈ Part000.getPossibleMoves st ->
  pushFacts (Part000.board st) (Part000.playerRole st) (Part000.selected st)
    dir cells pushed.
Proof.
  intros H. apply Part000_moves_elem in H as (d & Hd & H).
  apply Part000_moveInDir_push in H as [-> H]; assumption.
Qed.

(** ** Enumerated moves *)

(** C1. Push outnumbering: every push move returned by the enumeration (the
    [moves] computation of App.jsx and [getPossibleMoves] of part_000) has
    strictly fewer pushed cells than the selection has members. *)
Theorem push_outnumbering :
  (forall (st : App.State) dir cells pushed pushTo triggerCell,
      PushMove dir cells pushed pushTo triggerCell ∈ App.moves st ->
      (length pushed < length (App.selected st))%nat) /\
  (forall (st : Part000.State) dir cells pushed pushTo triggerCell,
      PushMove dir cells pushed pushTo triggerCell ∈ Part000.getPossibleMoves st ->
      (length pushed < length (Part000.selected st))%nat).
Proof.
  split; intros st dir cells pushed pushTo triggerCell H.
  - apply App_moves_push in H as (_ & _ & _ & k & -> & Hlt & _).
    rewrite length_runFrom. exact Hlt.
  - apply Part000_moves_push in H as (_ & _ & _ & k & -> & Hlt & _).
    rewrite length_runFrom. exact Hlt.
Qed.

Lemma push_outnumbering_witness :
  (length [54; 55]%Z < length (App.selected (appState rowPushInside [51; 52; 53]%Z)))%nat /\
  (length [54; 55]%Z
   < length (Part000.selected (partState rowPushInside [51; 52; 53]%Z)))%nat.
Proof.
  split.
  - apply (proj1 push_outnumbering (appState rowPushInside [51; 52; 53])
             1 [52; 53; 54] [54; 55] None 53).
    vm_compute. left.
  - apply (proj2 push_outnumbering (partState rowPushInside [51; 52; 53])
             1 [52; 53; 54] [54; 55] (Some 56) 53).
    vm_compute. left.
Defined.

Lemma simpleFacts_targets b sel dir cells c :
  simpleFacts b sel dir cells -> c ∈ cells ->
  c ∈ CELLS /\ (b !! c = None \/ c ∈ sel).
Proof.
  intros (_ & _ & Hvalid & Hfree) Hc. apply list_elem_of_In in Hc.
  rewrite forallb_forall in Hvalid, Hfree.
  split.
  - apply CELL_SET_has_true, Hvalid, Hc.
  - specialize (Hfree c Hc). apply orb_true_iff in Hfree as [Hf|Hi].
    + left. apply isFree_true, Hf.
    + right. unfold includes in Hi. apply bool_decide_eq_true in Hi. exact Hi.
Qed.

(** C4. Move-target validity: every target cell of a simple move returned by
    the enumeration is one of the 61 valid cells and is, on the board the
    moves were computed from, either empty or a member of the selection. *)
Theorem simple_move_targets :
  (forall (st : App.State) dir cells c,
      SimpleMove dir cells ∈ App.moves st -> c ∈ cells ->
      c ∈ CELLS /\
      (App.board (App.gameState st) !! c = None \/ c ∈ App.selected st)) /\
  (forall (st : Part000.State) dir cells c,
      SimpleMove dir cells ∈ Part000.getPossibleMoves st -> c ∈ cells ->
      c ∈ CELLS /\ (Part000.board st !! c = None \/ c ∈ Part000.selected st)).
Proof.
  split; intros st dir cells c H Hc.
  - eapply simpleFacts_targets; [apply App_moves_simple|]; eassumption.
  - eapply simpleFacts_targets; [apply Part000_moves_simple|]; eassumption.
Qed.

Lemma simple_move_targets_witness :
  (54 ∈ CELLS /\
   (App.board (App.gameState (appState rowPushOut [55; 56])) !! 54 = None \/
    54 ∈ App.selected (appState rowPushOut [55; 56]))) /\
  (55 ∈ CELLS /\
   (Part000.board (partState rowPushOut [55; 56]) !! 55 = None \/
    55 ∈ Part000.selected (partState rowPushOut [55; 56]))).
Proof.
  split.
  - apply (proj1 simple_move_targets (appState rowPushOut [55; 56]) (-1) [54; 55] 54).
    + vm_compute. left.
    + left.
  - apply (proj2 simple_move_targets (partState rowPushOut [55; 56]) (-1) [54; 55] 55).
    + vm_compute. left.
    + right. left.
Defined.

(** ** Applying a move: winner and turn *)

Lemma winnerOf_spec s :
  (winnerOf s = Some white <-> 6 <= s_white s) /\
  (winnerOf s = Some black <-> s_white s < 6 /\ 6 <= s_black s) /\
  (winnerOf s = None <-> s_white s < 6 /\ s_black s < 6).
Proof.
  unfold winnerOf.
  destruct (6 <=? s_white s) eqn:Hw; [apply Z.leb_le in Hw | apply Z.leb_gt in Hw];
    (destruct (6 <=? s_black s) eqn:Hb; [apply Z.leb_le in Hb | apply Z.leb_gt in Hb]);
    repeat split; intros; try discriminate; try lia; try reflexivity.
Qed.

Lemma App_executeMove_winner st m :
  App.winner (App.gameState (App.executeMove st m))
  = winnerOf (App.scores (App.gameState (App.executeMove st m))).
Proof.
  unfold App.executeMove.
  destruct m as [dir cells|dir cells pushed pt trig]; [reflexivity|].
  destruct (App.resolvePush _ _ _ _) as [b s]. reflexivity.
Qed.

Lemma Part000_makeMove_winner st m :
  Part000.winner (Part000.makeMove st m)
  = winnerOf (Part000.scores (Part000.makeMove st m)).
Proof.
  unfold Part000.makeMove.
  destruct m as [dir cells|dir cells pushed pt trig]; [reflexivity|].
  destruct (Part000.relocatePushed _ _ _ _) as [b s]. reflexivity.
Qed.

(** C6. Win threshold: after applying any move ([executeMove] of App.jsx,
    [makeMove] of part_000) the stored winner is white exactly when white's
    new score is at least 6; it is black exactly when white's is below 6 and
    black's is at least 6; it is none exactly when both are below 6.  White's
    threshold is tested first, so white wins when both reach 6. *)
Theorem win_threshold :
  (forall (st : App.State) (m : Move),
      let gs' := App.gameState (App.executeMove st m) in
      (App.winner gs' = Some white <-> 6 <= s_white (App.scores gs')) /\
      (App.winner gs' = Some black <->
         s_white (App.scores gs') < 6 /\ 6 <= s_black (App.scores gs')) /\
      (App.winner gs' = None <->
         s_white (App.scores gs') < 6 /\ s_black (App.scores gs') < 6)) /\
  (forall (st : Part000.State) (m : Move),
      let st' := Part000.makeMove st m in
      (Part000.winner st' = Some white <-> 6 <= s_white (Part000.scores st')) /\
      (Part000.winner st' = Some black <->
         s_white (Part000.scores st') < 6 /\ 6 <= s_black (Part000.scores st')) /\
      (Part000.winner st' = None <->
         s_white (Part000.scores st') < 6 /\ s_black (Part000.scores st') < 6)).
Proof.
  split; intros st m; cbv zeta.
  - rewrite App_executeMove_winner. apply winnerOf_spec.
  - rewrite Part000_makeMove_winner. apply winnerOf_spec.
Qed.


Lemma Part000_makeMove_turn st m :
  Part000.currentTurn (Part000.makeMove st m) = opponentOf (Part000.currentTurn st).
Proof.
  unfold Part000.makeMove.
  destruct m as [dir cells|dir cells pushed pt trig]; [reflexivity|].
  destruct (Part000.relocatePushed _ _ _ _) as [b s]. reflexivity.
Qed.

Lemma Part000_makeMove_selected st m : Part000.selected (Part000.makeMove st m) = [].
Proof.
  unfold Part000.makeMove.
  destruct m as [dir cells|dir cells pushed pt trig]; [reflexivity|].
  destruct (Part000.relocatePushed _ _ _ _) as [b s]. reflexivity.
Qed.

Lemma Part000_handleCellClick_turn st cell :
  Part000.gameStarted st = true ->
  (Part000.selected st <> [] -> Part000.currentTurn st = Part000.playerRole st) ->
  Part000.selected (Part000.handleCellClick st cell) <> [] ->
  Part000.currentTurn (Part000.handleCellClick st cell)
  = Part000.playerRole (Part000.handleCellClick st cell).
Proof.
  intros Hstarted Hinv. unfold Part000.handleCellClick. rewrite Hstarted.
  destruct (bool_decide (Part000.winner st <> None)); cbn [orb andb]; [exact Hinv|].
  destruct (bool_decide (Part000.currentTurn st = Part000.playerRole st)) eqn:Hturn;
    cbn [negb]; [|exact Hinv].
  apply bool_decide_eq_true in Hturn. intros _.
  repeat match goal with
         | |- context [if ?c then _ else _] => destruct c
         end; exact Hturn.
Qed.

(** On the rendered board a non-empty selection exists only while it is the
    player's own turn: [handleCellClick] refuses clicks out of turn and every
    applied move empties the selection. *)
Lemma Part000_selection_needs_turn st :
  gameViewReachable st ->
  Part000.gameStarted st = true ->
  Part000.selected st <> [] ->
  Part000.currentTurn st = Part000.playerRole st.
Proof.
  induction 1 as [st Hsel|st st' Hreach IH Hstep]; intros Hstarted Hne.
  - congruence.
  - destruct Hstep as [st cell Hs|st Hs].
    + unfold Part000.onClick in *.
      destruct (Part000.moveMap st !! cell) as [mv|].
      * rewrite Part000_makeMove_selected in Hne. congruence.
      * apply Part000_handleCellClick_turn; auto.
    + simpl in Hne. congruence.
Qed.






(** ** Topology *)

Lemma neighborCount_all : forallb neighborCountOk CELLS = true.
Proof. vm_compute. reflexivity. Qed.

(** C8 (amended). Topology size and structure: the valid-cell set has exactly
    61 members, arranged in rows of lengths 5,6,7,8,9,8,7,6,5; every valid
    cell is a corner, an edge or an interior cell, and its neighbour list
    under the six offsets +1,-1,+9,-9,+10,-10 restricted to valid cells has
    exactly 3 members at a corner, exactly 4 on an edge and exactly 6 in the
    interior, hence between 2 and 6 (in fact between 3 and 6) everywhere. *)
Theorem topology_structure :
  length CELLS = 61%nat /\
  size CELL_SET = 61%nat /\
  concat standardRows = CELLS /\
  map length standardRows = [5; 6; 7; 8; 9; 8; 7; 6; 5]%nat /\
  (forall c, c ∈ CELLS ->
     (isCorner c = true \/ isEdge c = true \/ isInterior c = true) /\
     (isCorner c = true -> length (getNeighbors c) = 3%nat) /\
     (isEdge c = true -> length (getNeighbors c) = 4%nat) /\
     (isInterior c = true -> length (getNeighbors c) = 6%nat) /\
     (2 <= length (getNeighbors c) <= 6)%nat).
Proof.
  split; [reflexivity|]. split; [vm_compute; reflexivity|].
  split; [reflexivity|]. split; [reflexivity|].
  intros c Hc. apply list_elem_of_In in Hc.
  pose proof neighborCount_all as Hall. rewrite forallb_forall in Hall.
  specialize (Hall c Hc). unfold neighborCountOk in Hall.
  apply andb_true_iff in Hall as [Hall Hcls].
  apply andb_true_iff in Hall as [Hall Hint].
  apply andb_true_iff in Hall as [Hcor Hedg].
  assert (Hk : isCorner c = true \/ isEdge c = true \/ isInterior c = true).
  { apply orb_true_iff in Hcls as [Hcls|Hcls]; [|tauto].
    apply orb_true_iff in Hcls. tauto. }
  assert (H3 : isCorner c = true -> length (getNeighbors c) = 3%nat).
  { intros E. rewrite E in Hcor. apply Nat.eqb_eq, Hcor. }
  assert (H4 : isEdge c = true -> length (getNeighbors c) = 4%nat).
  { intros E. rewrite E in Hedg. apply Nat.eqb_eq, Hedg. }
  assert (H6 : isInterior c = true -> length (getNeighbors c) = 6%nat).
  { intros E. rewrite E in Hint. apply Nat.eqb_eq, Hint. }
  repeat split; try assumption;
    destruct Hk as [E|[E|E]];
    (apply H3 in E || apply H4 in E || apply H6 in E); rewrite E; lia.
Qed.

Lemma topology_structure_witness :
  (isCorner 15 = true \/ isEdge 15 = true \/ isInterior 15 = true) /\
  (isCorner 15 = true -> length (getNeighbors 15) = 3%nat) /\
  (isEdge 15 = true -> length (getNeighbors 15) = 4%nat) /\
  (isInterior 15 = true -> length (getNeighbors 15) = 6%nat) /\
  (2 <= length (getNeighbors 15) <= 6)%nat.
Proof.
  apply (proj2 (proj2 (proj2 (proj2 topology_structure))) 15).
  vm_compute. left.
Defined.

(** The claim as written fails at the corner cell 15: it has three valid
    neighbours (16, 24 and 25), not two. *)
Lemma topology_structure_counterexample :
  15 ∈ CELLS /\ isCorner 15 = true /\
  getNeighbors 15 = [16; 24; 25] /\
  length (getNeighbors 15) <> 2%nat.
Proof.
  split; [left|]. split; [reflexivity|]. split; [reflexivity|].
  vm_compute. discriminate.
Qed.

(** ** The selection rule *)

Lemma length_sortAsc l : length (sortAsc l) = length l.
Proof. unfold sortAsc. apply Permutation_length, merge_sort_Permutation. Qed.

Lemma includes_steps d : includes [1; 9; 10] d = true -> d = 1 \/ d = 9 \/ d = 10.
Proof.
  unfold includes. intros H. apply bool_decide_eq_true in H.
  rewrite !elem_of_cons, elem_of_nil in H. tauto.
Qed.

Lemma App_isArithmeticSequence_line l :
  App.isArithmeticSequence l = true ->
  length l = 2%nat \/ length l = 3%nat ->
  isLine l.
Proof.
  unfold App.isArithmeticSequence, isLine. intros H Hlen.
  pose proof (length_sortAsc l) as Hs.
  destruct (length l <=? 1)%nat eqn:E; [apply Nat.leb_le in E; lia|].
  destruct (sortAsc l) as [|x [|y [|z [|w rest]]]]; simpl in Hs; try lia.
  - unfold at_ in H. simpl in H.
    destruct (includes [1; 9; 10] (y - x)) eqn:Hd; [|discriminate].
    apply includes_steps in Hd.
    exists x, (y - x). split; [assumption|]. left. repeat f_equal. lia.
  - unfold at_ in H. simpl in H.
    destruct (includes [1; 9; 10] (y - x)) eqn:Hd; [|discriminate].
    apply includes_steps in Hd. simpl in H.
    rewrite andb_true_r in H. apply andb_true_iff in H as [_ H].
    apply Z.eqb_eq in H.
    exists x, (y - x). split; [assumption|]. right. repeat f_equal; lia.
Qed.

Lemma Part000_isArithmeticSequence_line l :
  Part000.isArithmeticSequence l = true ->
  length l = 2%nat \/ length l = 3%nat ->
  isLine l.
Proof.
  unfold Part000.isArithmeticSequence, isLine. intros H Hlen.
  pose proof (length_sortAsc l) as Hs.
  destruct (length l <=? 1)%nat eqn:E; [apply Nat.leb_le in E; lia|].
  destruct (sortAsc l) as [|x [|y [|z [|w rest]]]]; simpl in Hs; try lia.
  - unfold at_ in H. simpl in H.
    destruct (includes [1; 9; 10] (y - x)) eqn:Hd; [|discriminate].
    apply includes_steps in Hd.
    exists x, (y - x). split; [assumption|]. left. repeat f_equal. lia.
  - unfold at_ in H. simpl in H.
    destruct (includes [1; 9; 10] (y - x)) eqn:Hd; [|discriminate].
    apply includes_steps in Hd. simpl in H.
    rewrite andb_true_r in H. apply Z.eqb_eq in H.
    exists x, (y - x). split; [assumption|]. right. repeat f_equal; lia.
Qed.

Lemma length_filter_ne (sel : list Z) (cell : Z) :
  (length (filter (fun c => c <> cell) sel) <= length sel)%nat.
Proof. apply length_filter. Qed.

(** C5. Selection-line invariant: every selection of size 2 or 3 obtained
    from the empty selection by clicks that enlarge it (the inline rule of
    App.jsx line 188, [handleCellClick] of part_000) has sorted coordinates
    [a, a+d] or [a, a+d, a+2d] with a step [d] of 1, 9 or 10. *)
Theorem selection_line_invariant :
  (forall (gs : App.GameState) (player : color) (sel : list Z),
      builtBy (appClick gs player) sel ->
      length sel = 2%nat \/ length sel = 3%nat ->
      isLine sel) /\
  (forall (st : Part000.State) (sel : list Z),
      builtBy (partClick st) sel ->
      length sel = 2%nat \/ length sel = 3%nat ->
      isLine sel).
Proof.
  split.
  - intros gs player sel Hb Hlen.
    destruct Hb as [|sel0 cell _ Hext]; [simpl in Hlen; lia|].
    unfold appClick, App.selectCell in *. cbn [App.selected App.gameState
      App.playerRole] in *.
    destruct (bool_decide _); [|lia].
    destruct (includes sel0 cell).
    { pose proof (length_filter_ne sel0 cell). lia. }
    destruct (_ && _) eqn:Hok.
    + apply andb_true_iff in Hok as [_ Hok].
      apply App_isArithmeticSequence_line; assumption.
    + simpl in Hlen. lia.
  - intros st sel Hb Hlen.
    destruct Hb as [|sel0 cell _ Hext]; [simpl in Hlen; lia|].
    unfold partClick, Part000.handleCellClick, Part000.setSelected in *.
    cbn [Part000.selected Part000.winner Part000.gameStarted
         Part000.currentTurn Part000.playerRole Part000.board] in *.
    destruct (_ || _); [cbn [Part000.selected] in *; lia|].
    destruct (includes sel0 cell).
    { cbn [Part000.selected] in *. pose proof (length_filter_ne sel0 cell). lia. }
    destruct (bool_decide _); [|cbn [Part000.selected] in *; lia].
    destruct (length sel0 =? 0)%nat; [cbn [Part000.selected] in *; simpl in Hlen; lia|].
    destruct (length sel0 <? 3)%nat; [|cbn [Part000.selected] in *; lia].
    destruct (Part000.isArithmeticSequence _) eqn:Hok;
      cbn [Part000.selected] in *; [|lia].
    apply Part000_isArithmeticSequence_line; assumption.
Qed.

Lemma selection_line_invariant_witness :
  isLine [51; 52] /\ isLine [51; 52; 53].
Proof.
  split.
  - pose (click := appClick (App.gameState (appState rowWithGap [])) black).
    assert (H1 : builtBy click (click [] 51)).
    { apply built_extend; [apply built_empty | vm_compute; reflexivity]. }
    assert (H2 : builtBy click (click (click [] 51) 52)).
    { apply built_extend; [exact H1 | vm_compute; reflexivity]. }
    apply (proj1 selection_line_invariant
             (App.gameState (appState rowWithGap [])) black [51; 52]).
    + exact H2.
    + left. reflexivity.
  - pose (click := partClick (partState rowWithGap [])).
    assert (H1 : builtBy click (click [] 51)).
    { apply built_extend; [apply built_empty | vm_compute; reflexivity]. }
    assert (H2 : builtBy click (click (click [] 51) 52)).
    { apply built_extend; [exact H1 | vm_compute; reflexivity]. }
    assert (H3 : builtBy click (click (click (click [] 51) 52) 53)).
    { apply built_extend; [exact H2 | vm_compute; reflexivity]. }
    apply (proj2 selection_line_invariant (partState rowWithGap []) [51; 52; 53]).
    + exact H3.
    + right. reflexivity.
Defined.

(** Deselecting is not an extension: removing the middle cell of a line of
    three leaves a selection of two that is not a line. *)
Lemma deselect_breaks_line :
  Part000.selected
    (Part000.handleCellClick (partState rowWithGap [51; 52; 53]) 52) = [51; 53]
  /\ ~ isLine [51; 53].
Proof.
  split; [reflexivity|].
  assert (Hs : sortAsc [51; 53] = [51; 53]) by reflexivity.
  intros (a & d & Hd & [H|H]); rewrite Hs in H; [|discriminate].
  injection H as Ha Hd'. lia.
Qed.

Lemma sortAsc_idemp l : sortAsc (sortAsc l) = sortAsc l.
Proof.
  unfold sortAsc. apply (Sorted_unique Z.le).
  - apply Sorted_merge_sort; apply _.
  - apply Sorted_merge_sort; apply _.
  - apply merge_sort_Permutation.
Qed.

Lemma Part000_isArithmeticSequence_sorted l :
  Part000.isArithmeticSequence (sortAsc l) = Part000.isArithmeticSequence l.
Proof.
  unfold Part000.isArithmeticSequence. rewrite sortAsc_idemp, length_sortAsc.
  reflexivity.
Qed.

Lemma includes_false sel cell : cell ∉ sel -> includes sel cell = false.
Proof. intros H. unfold includes. apply bool_decide_eq_false. exact H. Qed.

(** C9 (amended). Invalid selection attempts on a cell that is not already
    selected.  In [handleCellClick] (part_000) a click on a cell that is not
    the player's colour, a click while three cells are selected, and a click
    whose enlarged set fails the line test all leave the state, and so the
    selection, unchanged.  In the click rule of App.jsx (line 188) a click on
    a cell that is not the player's colour leaves the selection unchanged,
    while a click on an own piece that cannot extend the selection (three
    cells already selected, or the enlarged set fails the line test) replaces
    the selection by the clicked cell alone. *)
Theorem invalid_extension_declined :
  (forall (st : Part000.State) (cell : Z),
      cell ∉ Part000.selected st ->
      Part000.board st !! cell <> Some (Part000.playerRole st)
      \/ (3 <= length (Part000.selected st))%nat
      \/ Part000.isArithmeticSequence (Part000.selected st ++ [cell]) = false ->
      Part000.handleCellClick st cell = st) /\
  (forall (st : App.State) (cell : Z),
      App.board (App.gameState st) !! cell <> Some (App.playerRole st) ->
      App.selectCell st cell = App.selected st) /\
  (forall (st : App.State) (cell : Z),
      cell ∉ App.selected st ->
      App.board (App.gameState st) !! cell = Some (App.playerRole st) ->
      (3 <= length (App.selected st))%nat
      \/ App.isArithmeticSequence (App.selected st ++ [cell]) = false ->
      App.selectCell st cell = [cell]).
Proof.
  split; [|split].
  - intros st cell Hnot Hbad. unfold Part000.handleCellClick.
    destruct (_ || _); [reflexivity|].
    rewrite (includes_false _ _ Hnot).
    destruct (bool_decide _) eqn:Hcol; [|reflexivity].
    apply bool_decide_eq_true in Hcol.
    destruct (length (Part000.selected st) =? 0)%nat eqn:Hzero.
    { apply Nat.eqb_eq in Hzero.
      destruct (Part000.selected st); [|discriminate].
      destruct Hbad as [Hbad|[Hbad|Hbad]]; simpl in Hbad;
        [congruence | lia | discriminate]. }
    destruct (length (Part000.selected st) <? 3)%nat eqn:Hlt; [|reflexivity].
    apply Nat.ltb_lt in Hlt.
    rewrite Part000_isArithmeticSequence_sorted.
    destruct Hbad as [Hbad|[Hbad|Hbad]]; [congruence | lia |].
    rewrite Hbad. reflexivity.
  - intros st cell Hcol. unfold App.selectCell.
    rewrite bool_decide_eq_false_2 by assumption. reflexivity.
  - intros st cell Hnot Hcol Hbad. unfold App.selectCell.
    rewrite bool_decide_eq_true_2 by assumption.
    rewrite (includes_false _ _ Hnot).
    destruct Hbad as [Hbad|Hbad].
    + apply Nat.ltb_ge in Hbad. rewrite Hbad. reflexivity.
    + rewrite Hbad, andb_false_r. reflexivity.
Qed.

Lemma invalid_extension_declined_witness :
  Part000.handleCellClick (partState rowWithGap [51; 52]) 55
  = partState rowWithGap [51; 52]
  /\ App.selectCell (appState rowWithGap [51; 52]) 54
     = App.selected (appState rowWithGap [51; 52])
  /\ App.selectCell (appState rowWithGap [51; 52]) 55 = [55].
Proof.
  destruct invalid_extension_declined as (Hpart & Hwrong & Hown).
  split; [|split].
  - apply Hpart.
    + vm_compute. intros H. inversion H as [|? ? ? H']; subst.
      inversion H' as [|? ? ? H'']; subst. inversion H''.
    + right. right. reflexivity.
  - apply Hwrong. vm_compute. discriminate.
  - apply Hown.
    + vm_compute. intros H. inversion H as [|? ? ? H']; subst.
      inversion H' as [|? ? ? H'']; subst. inversion H''.
    + reflexivity.
    + right. reflexivity.
Defined.

(** The claim as written fails for the click rule of App.jsx: with 51, 52
    and 53 selected, a click on the player's own piece at 55 (which triggers
    no move) does not leave the selection unchanged but replaces it by [55]. *)
Lemma invalid_extension_declined_counterexample :
  let st := appState rowWithGap [51; 52; 53] in
  App.board (App.gameState st) !! 55 = Some (App.playerRole st) /\
  length (App.selected st) = 3%nat /\
  App.moveMap st !! 55 = None /\
  App.selected (App.onClick st 55) = [55] /\
  App.selected (App.onClick st 55) <> App.selected st.
Proof.
  cbv zeta. split; [reflexivity|]. split; [reflexivity|].
  split; [vm_compute; reflexivity|].
  split; [vm_compute; reflexivity|].
  vm_compute. discriminate.
Qed.

(** ** Geometry of a selection and the run in front of it *)

Lemma sorted_head_min (l : list Z) x :
  StronglySorted Z.le l -> x ∈ l -> nth 0 l 0 <= x.
Proof.
  intros Hs Hx. destruct l as [|a l]; [inversion Hx|].
  apply StronglySorted_inv in Hs as [_ Hall]. rewrite Forall_forall in Hall.
  apply elem_of_cons in Hx as [->|Hx]; simpl; [lia|].
  apply Hall. exact Hx.
Qed.

Lemma sorted_last_max (l : list Z) x :
  StronglySorted Z.le l -> x ∈ l -> x <= nth (length l - 1) l 0.
Proof.
  revert x. induction l as [|a l IH]; intros x Hs Hx; [inversion Hx|].
  apply StronglySorted_inv in Hs as [Hs Hall]. rewrite Forall_forall in Hall.
  destruct l as [|b l].
  - apply elem_of_cons in Hx as [->|Hx]; [simpl; lia | inversion Hx].
  - replace (nth (length (a :: b :: l) - 1) (a :: b :: l) 0)
      with (nth (length (b :: l) - 1) (b :: l) 0)
      by (simpl; rewrite Nat.sub_0_r; reflexivity).
    apply elem_of_cons in Hx as [->|Hx].
    + transitivity b; [apply Hall; left|].
      apply IH; [assumption | left].
    + apply IH; assumption.
Qed.

Lemma sortAsc_strongly_sorted l : StronglySorted Z.le (sortAsc l).
Proof. unfold sortAsc. apply StronglySorted_merge_sort; apply _. Qed.

Lemma elem_of_sortAsc l x : x ∈ sortAsc l <-> x ∈ l.
Proof. unfold sortAsc. rewrite merge_sort_Permutation. reflexivity. Qed.

Lemma frontOf_leads sel dir x :
  x ∈ sel ->
  (0 < dir -> x <= frontOf (sortAsc sel) dir) /\
  (dir < 0 -> frontOf (sortAsc sel) dir <= x).
Proof.
  intros Hx. apply (proj2 (elem_of_sortAsc _ _)) in Hx.
  unfold frontOf, at_. split; intros Hd.
  - rewrite (proj2 (Z.ltb_lt 0 dir)) by assumption.
    apply sorted_last_max; [apply sortAsc_strongly_sorted | assumption].
  - rewrite (proj2 (Z.ltb_ge 0 dir)) by lia.
    apply sorted_head_min; [apply sortAsc_strongly_sorted | assumption].
Qed.

Lemma directions_nonzero dir : dir ∈ directions -> dir <> 0.
Proof.
  unfold directions. rewrite !elem_of_cons, elem_of_nil. lia.
Qed.

(** A cell at least one step in front of the leading cell is not selected. *)
Lemma beyond_front_not_selected sel dir (i : nat) :
  dir <> 0 -> (1 <= i)%nat ->
  frontOf (sortAsc sel) dir + Z.of_nat i * dir ∉ sel.
Proof.
  intros Hd Hi Hin. destruct (frontOf_leads sel dir _ Hin) as [Hpos Hneg].
  destruct (Z.lt_trichotomy dir 0) as [H|[H|H]]; [|lia|].
  - specialize (Hneg H). nia.
  - specialize (Hpos H). nia.
Qed.

(** A cell at least two steps in front of the leading cell is not a target. *)
Lemma beyond_front_not_target sel dir (i : nat) :
  dir <> 0 -> (2 <= i)%nat ->
  frontOf (sortAsc sel) dir + Z.of_nat i * dir
    ∉ map (fun c => c + dir) (sortAsc sel).
Proof.
  intros Hd Hi Hin. apply list_elem_of_In, in_map_iff in Hin as (x & Hx & Hin).
  apply (proj2 (list_elem_of_In _ _)), (proj1 (elem_of_sortAsc _ _)) in Hin.
  apply (beyond_front_not_selected sel dir (i - 1) Hd); [lia|].
  replace (frontOf (sortAsc sel) dir + Z.of_nat (i - 1) * dir) with x; [assumption|].
  rewrite Nat2Z.inj_sub by lia. lia.
Qed.

(** ** Score bookkeeping of a push *)

Lemma App_resolvePush_scores p dir pushed : forall b s,
  snd (App.resolvePush p dir pushed (b, s)) = scoreAfter p dir pushed s.
Proof.
  unfold App.resolvePush, scoreAfter.
  induction pushed as [|c pushed IH]; intros b s; simpl; [reflexivity|].
  destruct (CELL_SET_has (c + dir)); apply IH.
Qed.

Lemma Part000_relocatePushed_scores p dir pushed : forall b s,
  snd (Part000.relocatePushed p dir pushed (b, s)) = scoreAfter p dir pushed s.
Proof.
  unfold Part000.relocatePushed, scoreAfter.
  induction pushed as [|c pushed IH]; intros b s; simpl; [reflexivity|].
  destruct (CELL_SET_has (c + dir)); apply IH.
Qed.

Lemma scoreAfter_all_valid p dir pushed s :
  Forall (fun c => CELL_SET_has (c + dir) = true) pushed ->
  scoreAfter p dir pushed s = s.
Proof.
  unfold scoreAfter. induction 1 as [|c pushed Hc _ IH]; simpl; [reflexivity|].
  rewrite Hc. exact IH.
Qed.

Lemma scoreAfter_snoc p dir pushed c s :
  scoreAfter p dir (pushed ++ [c]) s
  = if CELL_SET_has (c + dir) then scoreAfter p dir pushed s
    else incrScore (scoreAfter p dir pushed s) p.
Proof. unfold scoreAfter. rewrite foldl_app. reflexivity. Qed.

(** In a run of opponent cells every destination but the last is the next
    cell of the run, hence on the board. *)
Lemma run_inner_dests_valid b p cur dir k :
  Forall (fun c => holdsOpponent b p c = true) (runFrom cur dir (S k)) ->
  Forall (fun c => CELL_SET_has (c + dir) = true) (runFrom cur dir k).
Proof.
  intros Hall. rewrite Forall_forall in Hall. apply Forall_forall.
  intros c Hc. apply elem_of_runFrom in Hc as (i & Hi & ->).
  apply (holdsOpponent_valid b p), Hall, elem_of_runFrom.
  exists (S i). split; lia.
Qed.

(** The score after pushing a run: one point if the far cell is off the
    board, none otherwise, whatever the length of the run. *)
Lemma scoreAfter_run b p cur dir k s :
  Forall (fun c => holdsOpponent b p c = true) (runFrom cur dir (S k)) ->
  scoreAfter p dir (runFrom cur dir (S k)) s
  = if CELL_SET_has (farCell dir (runFrom cur dir (S k))) then s else incrScore s p.
Proof.
  intros Hall. rewrite farCell_runFrom.
  rewrite runFrom_snoc, scoreAfter_snoc.
  rewrite (scoreAfter_all_valid p dir (runFrom cur dir k))
    by (eapply run_inner_dests_valid; eassumption).
  replace (cur + Z.of_nat k * dir + dir) with (cur + Z.of_nat (S k) * dir) by lia.
  reflexivity.
Qed.

Lemma scoreOf_incrScore_same s p : scoreOf (incrScore s p) p = scoreOf s p + 1.
Proof. destruct p; reflexivity. Qed.

Lemma scoreOf_incrScore_other s p : scoreOf (incrScore s p) (opponentOf p) = scoreOf s (opponentOf p).
Proof. destruct p; reflexivity. Qed.

(** ** Boards after push resolution *)

Lemma Part000_relocatePushed_board p dir pushed : forall b s,
  fst (Part000.relocatePushed p dir pushed (b, s))
  = setAll (validDests dir pushed) (opponentOf p) b.
Proof.
  unfold Part000.relocatePushed, validDests, setAll.
  induction pushed as [|c pushed IH]; intros b s; simpl; [reflexivity|].
  destruct (CELL_SET_has (c + dir)); simpl; apply IH.
Qed.

Lemma App_resolvePush_snoc p dir pushed c bs :
  App.resolvePush p dir (pushed ++ [c]) bs
  = let '(b, s) := App.resolvePush p dir pushed bs in
    let b := delete c b in
    if CELL_SET_has (c + dir)
    then (<[c + dir := opponentOf p]> b, s)
    else (b, incrScore s p).
Proof.
  unfold App.resolvePush. rewrite foldl_app. simpl.
  destruct (foldl _ bs pushed) as [b s]. reflexivity.
Qed.

Lemma elem_of_validDests dir pushed k :
  k ∈ validDests dir pushed <->
  CELL_SET_has k = true /\ exists c, c ∈ pushed /\ k = c + dir.
Proof.
  unfold validDests. rewrite list_elem_of_In, filter_In, in_map_iff.
  split.
  - intros [(c & <- & Hc) Hk]. split; [assumption|].
    exists c. split; [apply list_elem_of_In; assumption | reflexivity].
  - intros [Hk (c & Hc & ->)]. split; [|assumption].
    exists c. split; [reflexivity | apply list_elem_of_In; assumption].
Qed.

(** The whole board after [makeMove] applies a push, cell by cell. *)
Lemma Part000_makeMove_push_board st dir cells pushed pt trig k :
  Part000.board (Part000.makeMove st (PushMove dir cells pushed pt trig)) !! k
  = if bool_decide (k ∈ cells) then Some (Part000.playerRole st)
    else if bool_decide (k ∈ Part000.selected st) then None
    else if bool_decide (k ∈ validDests dir pushed)
         then Some (opponentOf (Part000.playerRole st))
    else if bool_decide (k ∈ pushed) then None
    else Part000.board st !! k.
Proof.
  unfold Part000.makeMove.
  destruct (Part000.relocatePushed _ _ _ _) as [b' s'] eqn:E.
  assert (Hb : b' = fst (Part000.relocatePushed (Part000.playerRole st) dir pushed
                           (Part000.clearPushed pushed (Part000.board st),
                            Part000.scores st))) by (rewrite E; reflexivity).
  rewrite Part000_relocatePushed_board in Hb. subst b'.
  cbn [Part000.board m_cells].
  rewrite lookup_setAll, lookup_deleteAll, lookup_setAll.
  unfold Part000.clearPushed. rewrite lookup_deleteAll. reflexivity.
Qed.

Lemma Part000_makeMove_push_scores st dir cells pushed pt trig :
  Part000.scores (Part000.makeMove st (PushMove dir cells pushed pt trig))
  = scoreAfter (Part000.playerRole st) dir pushed (Part000.scores st).
Proof.
  unfold Part000.makeMove.
  destruct (Part000.relocatePushed _ _ _ _) as [b' s'] eqn:E.
  cbn [Part000.scores]. rewrite <- (Part000_relocatePushed_scores _ _ _
    (Part000.clearPushed pushed (Part000.board st))), E. reflexivity.
Qed.

Lemma App_executeMove_push_scores st dir cells pushed pt trig :
  App.scores (App.gameState (App.executeMove st (PushMove dir cells pushed pt trig)))
  = scoreAfter (App.playerRole st) dir pushed (App.scores (App.gameState st)).
Proof.
  unfold App.executeMove.
  destruct (App.resolvePush _ _ _ _) as [b' s'] eqn:E.
  cbn [App.scores App.gameState]. rewrite <- (App_resolvePush_scores _ _ _
    (App.board (App.gameState st))), E. reflexivity.
Qed.

Lemma App_executeMove_push_board st dir cells pushed pt trig k :
  App.board (App.gameState (App.executeMove st (PushMove dir cells pushed pt trig))) !! k
  = if bool_decide (k ∈ cells) then Some (App.playerRole st)
    else if bool_decide (k ∈ App.selected st) then None
    else fst (App.resolvePush (App.playerRole st) dir pushed
                (App.board (App.gameState st), App.scores (App.gameState st))) !! k.
Proof.
  unfold App.executeMove.
  destruct (App.resolvePush _ _ _ _) as [b' s'] eqn:E.
  cbn [App.board App.gameState m_cells fst].
  rewrite lookup_setAll, lookup_deleteAll. reflexivity.
Qed.

(** ** Validity of the board's keys *)

Lemma boardValid_delete b c : boardValid b -> boardValid (delete c b).
Proof.
  intros Hb k Hk. apply Hb. destruct (decide (k = c)) as [->|Hne].
  - rewrite lookup_delete_eq in Hk. destruct Hk; discriminate.
  - rewrite lookup_delete_ne in Hk by congruence. exact Hk.
Qed.

Lemma boardValid_insert b c role :
  CELL_SET_has c = true -> boardValid b -> boardValid (<[c := role]> b).
Proof.
  intros Hc Hb k Hk. destruct (decide (k = c)) as [->|Hne]; [assumption|].
  rewrite lookup_insert_ne in Hk by congruence. apply Hb, Hk.
Qed.

Lemma boardValid_deleteAll cells b : boardValid b -> boardValid (deleteAll cells b).
Proof.
  unfold deleteAll. revert b. induction cells as [|c cells IH]; intros b Hb; simpl.
  - exact Hb.
  - apply IH, boardValid_delete, Hb.
Qed.

Lemma boardValid_setAll cells role b :
  forallb CELL_SET_has cells = true -> boardValid b -> boardValid (setAll cells role b).
Proof.
  unfold setAll. revert b. induction cells as [|c cells IH]; intros b Hc Hb; simpl.
  - exact Hb.
  - simpl in Hc. apply andb_true_iff in Hc as [Hc Hcs].
    apply IH; [assumption|]. apply boardValid_insert; assumption.
Qed.

Lemma App_resolvePush_valid p dir pushed : forall b s,
  boardValid b -> boardValid (fst (App.resolvePush p dir pushed (b, s))).
Proof.
  unfold App.resolvePush.
  induction pushed as [|c pushed IH]; intros b s Hb; simpl; [exact Hb|].
  destruct (CELL_SET_has (c + dir)) eqn:Hc; apply IH.
  - apply boardValid_insert; [assumption|]. apply boardValid_delete, Hb.
  - apply boardValid_delete, Hb.
Qed.

Lemma Part000_relocatePushed_valid p dir pushed : forall b s,
  boardValid b -> boardValid (fst (Part000.relocatePushed p dir pushed (b, s))).
Proof.
  unfold Part000.relocatePushed.
  induction pushed as [|c pushed IH]; intros b s Hb; simpl; [exact Hb|].
  destruct (CELL_SET_has (c + dir)) eqn:Hc; apply IH.
  - apply boardValid_insert; assumption.
  - exact Hb.
Qed.

Lemma App_executeMove_valid st m :
  forallb CELL_SET_has (m_cells m) = true ->
  boardValid (App.board (App.gameState st)) ->
  boardValid (App.board (App.gameState (App.executeMove st m))).
Proof.
  intros Hcells Hb. unfold App.executeMove.
  destruct m as [dir cells|dir cells pushed pt trig].
  - cbn [App.board App.gameState m_cells] in *.
    apply boardValid_setAll; [assumption|]. apply boardValid_deleteAll, Hb.
  - destruct (App.resolvePush _ _ _ _) as [b' s'] eqn:E.
    cbn [App.board App.gameState m_cells] in *.
    apply boardValid_setAll; [assumption|]. apply boardValid_deleteAll.
    replace b' with (fst (App.resolvePush (App.playerRole st) dir pushed
      (App.board (App.gameState st), App.scores (App.gameState st))))
      by (rewrite E; reflexivity).
    apply App_resolvePush_valid, Hb.
Qed.

Lemma Part000_makeMove_valid st m :
  forallb CELL_SET_has (m_cells m) = true ->
  boardValid (Part000.board st) ->
  boardValid (Part000.board (Part000.makeMove st m)).
Proof.
  intros Hcells Hb. unfold Part000.makeMove.
  destruct m as [dir cells|dir cells pushed pt trig].
  - cbn [Part000.board m_cells] in *.
    apply boardValid_setAll; [assumption|]. apply boardValid_deleteAll, Hb.
  - destruct (Part000.relocatePushed _ _ _ _) as [b' s'] eqn:E.
    cbn [Part000.board m_cells] in *.
    apply boardValid_setAll; [assumption|]. apply boardValid_deleteAll.
    replace b' with (fst (Part000.relocatePushed (Part000.playerRole st) dir pushed
      (Part000.clearPushed pushed (Part000.board st), Part000.scores st)))
      by (rewrite E; reflexivity).
    apply Part000_relocatePushed_valid, boardValid_deleteAll, Hb.
Qed.

Lemma App_moves_cells_valid st m :
  m ∈ App.moves st -> forallb CELL_SET_has (m_cells m) = true.
Proof.
  intros H. destruct m as [dir cells|dir cells pushed pt trig]; simpl.
  - apply App_moves_simple in H as (_ & _ & H & _). exact H.
  - apply App_moves_push in H as (_ & _ & H & _). exact H.
Qed.

Lemma Part000_moves_cells_valid st m :
  m ∈ Part000.getPossibleMoves st -> forallb CELL_SET_has (m_cells m) = true.
Proof.
  intros H. destruct m as [dir cells|dir cells pushed pt trig]; simpl.
  - apply Part000_moves_simple in H as (_ & _ & H & _). exact H.
  - apply Part000_moves_push in H as (_ & _ & H & _). exact H.
Qed.

(** C10. Board validity is preserved: if every key of the board is one of the
    61 valid cells, then after applying any move returned by the enumeration
    for that board (simple move or push, [executeMove] of App.jsx and
    [makeMove] of part_000) every key of the new board is a valid cell. *)
Theorem board_stays_valid :
  (forall (st : App.State) (m : Move),
      boardValid (App.board (App.gameState st)) ->
      m ∈ App.moves st ->
      boardValid (App.board (App.gameState (App.executeMove st m)))) /\
  (forall (st : Part000.State) (m : Move),
      boardValid (Part000.board st) ->
      m ∈ Part000.getPossibleMoves st ->
      boardValid (Part000.board (Part000.makeMove st m))).
Proof.
  split; intros st m Hb Hm.
  - apply App_executeMove_valid; [eapply App_moves_cells_valid; eassumption | exact Hb].
  - apply Part000_makeMove_valid;
      [eapply Part000_moves_cells_valid; eassumption | exact Hb].
Qed.

Lemma boardValid_boardOf l :
  forallb (fun kv => CELL_SET_has (fst kv)) l = true -> boardValid (boardOf l).
Proof.
  intros H c [x Hx]. unfold boardOf in Hx.
  apply elem_of_list_to_map_2, list_elem_of_In in Hx.
  rewrite forallb_forall in H. apply (H (c, x) Hx).
Qed.

Lemma board_stays_valid_witness :
  boardValid (App.board (App.gameState
    (App.executeMove (appState rowPushInside [51; 52; 53])
       (PushMove 1 [52; 53; 54] [54; 55] None 53)))) /\
  boardValid (Part000.board
    (Part000.makeMove (partState rowPushOut [55; 56; 57])
       (PushMove 1 [56; 57; 58] [58; 59] (Some 60) 57))).
Proof.
  split.
  - apply (proj1 board_stays_valid).
    + apply boardValid_boardOf. vm_compute. reflexivity.
    + vm_compute. left.
  - apply (proj2 board_stays_valid).
    + apply boardValid_boardOf. vm_compute. reflexivity.
    + vm_compute. left.
Defined.

(** ** Applying a push: scores and relocation *)

Lemma pushFacts_far_free sel b p dir cells pushed :
  pushFacts b p sel dir cells pushed ->
  (farCell dir pushed ∉ cells) /\ (farCell dir pushed ∉ sel).
Proof.
  intros (Hdir & -> & _ & k & -> & _ & _ & _).
  apply directions_nonzero in Hdir.
  rewrite farCell_runFrom.
  replace (frontOf (sortAsc sel) dir + dir + Z.of_nat (S k) * dir)
    with (frontOf (sortAsc sel) dir + Z.of_nat (S (S k)) * dir) by lia.
  split.
  - apply beyond_front_not_target; [assumption | lia].
  - apply beyond_front_not_selected; [assumption | lia].
Qed.

Lemma pushFacts_dest_free sel b p dir cells pushed c :
  pushFacts b p sel dir cells pushed -> c ∈ pushed ->
  (c + dir ∉ cells) /\ (c + dir ∉ sel) /\
  (CELL_SET_has (farCell dir pushed) = true -> CELL_SET_has (c + dir) = true).
Proof.
  intros (Hdir & -> & _ & k & -> & _ & Hall & _) Hc.
  apply directions_nonzero in Hdir.
  apply elem_of_runFrom in Hc as (i & Hi & ->).
  replace (frontOf (sortAsc sel) dir + dir + Z.of_nat i * dir + dir)
    with (frontOf (sortAsc sel) dir + Z.of_nat (S (S i)) * dir) by lia.
  split; [apply beyond_front_not_target; [assumption | lia]|].
  split; [apply beyond_front_not_selected; [assumption | lia]|].
  intros Hfar. rewrite farCell_runFrom in Hfar.
  destruct (decide (i = k)) as [->|Hne].
  - replace (frontOf (sortAsc sel) dir + Z.of_nat (S (S k)) * dir)
      with (frontOf (sortAsc sel) dir + dir + Z.of_nat (S k) * dir) by lia.
    exact Hfar.
  - rewrite Forall_forall in Hall. apply (holdsOpponent_valid b p), Hall.
    apply elem_of_runFrom. exists (S i). split; lia.
Qed.

Lemma pushFacts_scoreAfter sel b p dir cells pushed s :
  pushFacts b p sel dir cells pushed ->
  scoreAfter p dir pushed s
  = if CELL_SET_has (farCell dir pushed) then s else incrScore s p.
Proof.
  intros (_ & _ & _ & k & -> & _ & Hall & _).
  eapply scoreAfter_run. exact Hall.
Qed.

Lemma App_resolvePush_far p dir cur k bs :
  CELL_SET_has (farCell dir (runFrom cur dir (S k))) = true ->
  fst (App.resolvePush p dir (runFrom cur dir (S k)) bs)
    !! farCell dir (runFrom cur dir (S k)) = Some (opponentOf p).
Proof.
  rewrite farCell_runFrom. intros Hfar.
  rewrite runFrom_snoc, App_resolvePush_snoc.
  destruct (App.resolvePush p dir (runFrom cur dir k) bs) as [b s].
  replace (cur + Z.of_nat k * dir + dir) with (cur + Z.of_nat (S k) * dir) by lia.
  rewrite Hfar. simpl. apply lookup_insert_eq.
Qed.

(** C3 (amended). Score conservation for a push move returned by the
    enumeration.  If the far cell (the first cell past the pushed run) is off
    the board, applying the move raises the mover's score by exactly one,
    whatever the length of the run, and leaves the opponent's score unchanged.
    If the far cell is on the board, applying the move leaves both scores
    unchanged and the far cell holds an opponent piece afterwards; with
    [makeMove] (part_000) every pushed piece then stands one step further in
    [dir]: each cell [c + dir], for [c] pushed, holds the opponent colour. *)
Theorem push_score_conservation :
  (forall (st : App.State) dir cells pushed pushTo triggerCell,
      PushMove dir cells pushed pushTo triggerCell ∈ App.moves st ->
      let player := App.playerRole st in
      let s := App.scores (App.gameState st) in
      let gs' := App.gameState
                   (App.executeMove st (PushMove dir cells pushed pushTo triggerCell)) in
      (CELL_SET_has (farCell dir pushed) = false ->
         scoreOf (App.scores gs') player = scoreOf s player + 1 /\
         scoreOf (App.scores gs') (opponentOf player) = scoreOf s (opponentOf player)) /\
      (CELL_SET_has (farCell dir pushed) = true ->
         App.scores gs' = s /\
         App.board gs' !! farCell dir pushed = Some (opponentOf player))) /\
  (forall (st : Part000.State) dir cells pushed pushTo triggerCell,
      PushMove dir cells pushed pushTo triggerCell ∈ Part000.getPossibleMoves st ->
      let player := Part000.playerRole st in
      let s := Part000.scores st in
      let st' := Part000.makeMove st (PushMove dir cells pushed pushTo triggerCell) in
      (CELL_SET_has (farCell dir pushed) = false ->
         scoreOf (Part000.scores st') player = scoreOf s player + 1 /\
         scoreOf (Part000.scores st') (opponentOf player) = scoreOf s (opponentOf player)) /\
      (CELL_SET_has (farCell dir pushed) = true ->
         Part000.scores st' = s /\
         forall c, c ∈ pushed ->
           Part000.board st' !! (c + dir) = Some (opponentOf player))).
Proof.
  split; intros st dir cells pushed pushTo triggerCell Hm; cbv zeta.
  - apply App_moves_push in Hm.
    rewrite App_executeMove_push_scores, (pushFacts_scoreAfter _ _ _ _ _ _ _ Hm).
    split; intros Hfar; rewrite Hfar.
    + split; [apply scoreOf_incrScore_same | apply scoreOf_incrScore_other].
    + split; [reflexivity|].
      rewrite App_executeMove_push_board.
      destruct (pushFacts_far_free _ _ _ _ _ _ Hm) as [Hc Hs].
      rewrite (bool_decide_eq_false_2 _ Hc), (bool_decide_eq_false_2 _ Hs).
      destruct Hm as (_ & _ & _ & k & -> & _).
      apply App_resolvePush_far. exact Hfar.
  - apply Part000_moves_push in Hm.
    rewrite Part000_makeMove_push_scores, (pushFacts_scoreAfter _ _ _ _ _ _ _ Hm).
    split; intros Hfar; rewrite Hfar.
    + split; [apply scoreOf_incrScore_same | apply scoreOf_incrScore_other].
    + split; [reflexivity|]. intros c Hc.
      rewrite Part000_makeMove_push_board.
      destruct (pushFacts_dest_free _ _ _ _ _ _ c Hm Hc) as (Hn1 & Hn2 & Hv).
      rewrite (bool_decide_eq_false_2 _ Hn1), (bool_decide_eq_false_2 _ Hn2).
      rewrite bool_decide_eq_true_2; [reflexivity|].
      apply elem_of_validDests. split; [apply Hv, Hfar|].
      exists c. split; [assumption | reflexivity].
Qed.

Lemma push_score_conservation_witness :
  (scoreOf (App.scores (App.gameState
      (App.executeMove (appState rowPushOut [55; 56; 57])
         (PushMove 1 [56; 57; 58] [58; 59] None 57)))) black
   = scoreOf (App.scores (App.gameState (appState rowPushOut [55; 56; 57]))) black + 1)
  /\
  (forall c, c ∈ [54; 55] ->
     Part000.board
       (Part000.makeMove (partState rowPushInside [51; 52; 53])
          (PushMove 1 [52; 53; 54] [54; 55] (Some 56) 53)) !! (c + 1)
     = Some white).
Proof.
  split.
  - refine (proj1 (proj1 (proj1 push_score_conservation
             (appState rowPushOut [55; 56; 57]) 1 [56; 57; 58] [58; 59] None 57 _) _)).
    + vm_compute. left.
    + vm_compute. reflexivity.
  - refine (proj2 (proj2 (proj2 push_score_conservation
             (partState rowPushInside [51; 52; 53]) 1 [52; 53; 54] [54; 55]
             (Some 56) 53 _) _)).
    + vm_compute. left.
    + vm_compute. reflexivity.
Defined.

(** The claim as written fails when two pieces are pushed and the far cell
    is off the board: black 55-56-57 pushes white 58-59 towards the rim; the
    far cell 60 is not a cell, [pushed.length] is 2, and the mover's score
    rises by one, in both versions (the piece on 58 moves to 59 and stays in
    play with [makeMove]). *)
Lemma push_score_conservation_counterexample :
  let m := PushMove 1 [56; 57; 58] [58; 59] None 57 in
  let m' := PushMove 1 [56; 57; 58] [58; 59] (Some 60) 57 in
  let st := appState rowPushOut [55; 56; 57] in
  let st' := partState rowPushOut [55; 56; 57] in
  m ∈ App.moves st /\ m' ∈ Part000.getPossibleMoves st' /\
  CELL_SET_has (farCell 1 [58; 59]) = false /\
  scoreOf (App.scores (App.gameState (App.executeMove st m))) black
    = scoreOf (App.scores (App.gameState st)) black + 1 /\
  scoreOf (App.scores (App.gameState (App.executeMove st m))) black
    <> scoreOf (App.scores (App.gameState st)) black + Z.of_nat (length [58; 59]) /\
  scoreOf (Part000.scores (Part000.makeMove st' m')) black
    <> scoreOf (Part000.scores st') black + Z.of_nat (length [58; 59]) /\
  Part000.board (Part000.makeMove st' m') !! 59 = Some white.
Proof.
  cbv zeta. repeat split; try (vm_compute; first [left | reflexivity | discriminate]).
Qed.

Lemma scoreAfter_count p dir pushed : forall s,
  scoreOf (scoreAfter p dir pushed s) p
  = scoreOf s p
    + Z.of_nat (length (List.filter (fun c => negb (CELL_SET_has (c + dir))) pushed))
  /\ scoreOf (scoreAfter p dir pushed s) (opponentOf p) = scoreOf s (opponentOf p).
Proof.
  unfold scoreAfter. induction pushed as [|c pushed IH]; intros s; simpl.
  - split; [lia | reflexivity].
  - destruct (CELL_SET_has (c + dir)); simpl; [apply IH|].
    destruct (IH (incrScore s p)) as [-> ->].
    rewrite scoreOf_incrScore_same, scoreOf_incrScore_other. split; [lia | reflexivity].
Qed.

(** Push resolution as [makeMove] (part_000) performs it, for every push
    returned by [getPossibleMoves]: the first pass clears every pushed cell;
    afterwards every pushed piece whose destination is a valid cell stands on
    that destination, and the mover has gained exactly one point per pushed
    piece whose destination is off the board. *)
Lemma Part000_push_resolution st dir cells pushed pushTo triggerCell :
  PushMove dir cells pushed pushTo triggerCell ∈ Part000.getPossibleMoves st ->
  let player := Part000.playerRole st in
  let st' := Part000.makeMove st (PushMove dir cells pushed pushTo triggerCell) in
  (forall c, c ∈ pushed ->
     Part000.clearPushed pushed (Part000.board st) !! c = None) /\
  (forall c, c ∈ pushed -> CELL_SET_has (c + dir) = true ->
     Part000.board st' !! (c + dir) = Some (opponentOf player)) /\
  scoreOf (Part000.scores st') player
  = scoreOf (Part000.scores st) player
    + Z.of_nat (length (List.filter (fun c => negb (CELL_SET_has (c + dir))) pushed)) /\
  scoreOf (Part000.scores st') (opponentOf player)
  = scoreOf (Part000.scores st) (opponentOf player).
Proof.
  intros Hm. cbv zeta. apply Part000_moves_push in Hm.
  split; [|split].
  - intros c Hc. unfold Part000.clearPushed.
    rewrite lookup_deleteAll, bool_decide_eq_true_2 by assumption. reflexivity.
  - intros c Hc Hv. rewrite Part000_makeMove_push_board.
    destruct (pushFacts_dest_free _ _ _ _ _ _ c Hm Hc) as (Hn1 & Hn2 & _).
    rewrite (bool_decide_eq_false_2 _ Hn1), (bool_decide_eq_false_2 _ Hn2).
    rewrite bool_decide_eq_true_2; [reflexivity|].
    apply elem_of_validDests. split; [assumption|].
    exists c. split; [assumption | reflexivity].
  - rewrite Part000_makeMove_push_scores. apply scoreAfter_count.
Qed.

(** C2 (the defect in App.jsx). Black has 51-52-53 selected and pushes the
    white pieces on 54 and 55 towards the free cell 56; the move is returned
    by [moves] and bound to the button of cell 54.  The destination 54 + 1 of
    the first pushed piece is a valid cell, yet after [executeMove] that cell
    is empty: the single pass writes white on 55 while handling 54 and then
    deletes 55 again while handling it as a pushed cell.  One white piece has
    left the board although no destination was off the board, and no point
    was scored.  [makeMove] of part_000, which clears all pushed cells before
    it relocates them, leaves white on both 55 and 56 on the same input. *)
Theorem executeMove_push_drops_piece :
  let st := appState rowPushInside [51; 52; 53] in
  let m := PushMove 1 [52; 53; 54] [54; 55] None 53 in
  let gs' := App.gameState (App.executeMove st m) in
  let st0 := partState rowPushInside [51; 52; 53] in
  let m0 := PushMove 1 [52; 53; 54] [54; 55] (Some 56) 53 in
  m ∈ App.moves st /\
  App.moveMap st !! 54 = Some m /\
  CELL_SET_has (54 + 1) = true /\
  App.board gs' !! (54 + 1) = None /\
  App.board gs' !! (55 + 1) = Some white /\
  App.scores gs' = App.scores (App.gameState st) /\
  m0 ∈ Part000.getPossibleMoves st0 /\
  Part000.board (Part000.makeMove st0 m0) !! (54 + 1) = Some white /\
  Part000.board (Part000.makeMove st0 m0) !! (55 + 1) = Some white.
Proof.
  cbv zeta. repeat split; try (vm_compute; first [left | reflexivity]).
Qed.

(** * Further properties of the code *)

(** ** Adjacency *)

Lemma foldl_keep_filter (p : Z -> bool) (l : list Z) : forall acc,
  foldl (fun acc c => if p c then acc ++ [c] else acc) acc l = acc ++ List.filter p l.
Proof.
  induction l as [|c l IH]; intros acc; simpl.
  - rewrite app_nil_r. reflexivity.
  - rewrite IH. destruct (p c); [rewrite <- app_assoc|]; reflexivity.
Qed.

Lemma getNeighbors_filter cell :
  getNeighbors cell
  = List.filter CELL_SET_has
      [cell - 1; cell + 1; cell - 9; cell + 9; cell - 10; cell + 10].
Proof. unfold getNeighbors. rewrite foldl_keep_filter. reflexivity. Qed.

Lemma elem_of_getNeighbors c d :
  d ∈ getNeighbors c <->
  CELL_SET_has d = true /\
  (d = c - 1 \/ d = c + 1 \/ d = c - 9 \/ d = c + 9 \/ d = c - 10 \/ d = c + 10).
Proof.
  rewrite getNeighbors_filter, list_elem_of_In, filter_In. simpl. split.
  - intros [H Hv]. split; [assumption|]. intuition lia.
  - intros [Hv H]. split; [|assumption]. intuition lia.
Qed.

(** X1. [getNeighbors] is an adjacency relation on the board: every
    neighbour it returns is a valid cell different from the cell itself, no
    neighbour is listed twice, there are at most six, and adjacency is
    symmetric between valid cells. *)
Theorem neighbors_adjacency (c d : Z) :
  NoDup (getNeighbors c) /\
  (length (getNeighbors c) <= 6)%nat /\
  (d ∈ getNeighbors c ->
     d ∈ CELLS /\ d <> c /\ (c ∈ CELLS -> c ∈ getNeighbors d)).
Proof.
  split; [|split].
  - rewrite getNeighbors_filter. apply NoDup_ListNoDup, List.NoDup_filter.
    apply NoDup_ListNoDup.
    repeat (apply NoDup_cons; split;
            [rewrite ?elem_of_cons, elem_of_nil; lia|]).
    apply NoDup_nil_2.
  - rewrite getNeighbors_filter.
    etransitivity; [apply List.filter_length_le|]. simpl. lia.
  - intros H. apply elem_of_getNeighbors in H as [Hv Hd].
    split; [apply CELL_SET_has_true, Hv|]. split; [lia|].
    intros Hc. apply elem_of_getNeighbors. split; [apply CELL_SET_has_true, Hc | lia].
Qed.

Lemma neighbors_adjacency_witness :
  16 ∈ CELLS /\ 16 <> 15 /\ (15 ∈ CELLS -> 15 ∈ getNeighbors 16).
Proof.
  apply (proj2 (proj2 (neighbors_adjacency 15 16))).
  vm_compute. left.
Defined.

(** ** The line test *)

Lemma sortAsc_pair a b :
  sortAsc [a; b] = if decide (a <= b) then [a; b] else [b; a].
Proof.
  unfold sortAsc, merge_sort. simpl. destruct (decide (a <= b)); reflexivity.
Qed.

Lemma everyFrom_true (f : Z -> nat -> bool) (l : list Z) : forall i,
  everyFrom f i l = true <->
  forall j, (j < length l)%nat -> f (nth j l 0) (i + j)%nat = true.
Proof.
  induction l as [|x l IH]; intros i; simpl.
  - split; [intros _ j Hj; lia | reflexivity].
  - rewrite andb_true_iff, IH. split.
    + intros [H0 H] [|j] Hj; [rewrite Nat.add_0_r; exact H0|].
      rewrite <- Nat.add_succ_comm. apply H. lia.
    + intros H. split.
      * specialize (H 0%nat). rewrite Nat.add_0_r in H. apply H. lia.
      * intros j Hj. rewrite Nat.add_succ_comm. apply (H (S j)). lia.
Qed.

Lemma forallb_seq_true (g : nat -> bool) (a n : nat) :
  forallb g (seq a n) = true <-> forall j, (a <= j < a + n)%nat -> g j = true.
Proof.
  rewrite forallb_forall. split; intros H j Hj; apply H.
  - apply in_seq. exact Hj.
  - apply in_seq in Hj. exact Hj.
Qed.

(** The loop of either version checks that consecutive sorted cells differ by
    [diff]; the first pair does by the choice of [diff]. *)
Lemma every_form_steps (sorted : list Z) :
  everyFrom (fun val i => (i =? 0)%nat
                          || (val - at_ sorted (i - 1) =? at_ sorted 1 - at_ sorted 0))
    0 sorted = true <->
  forall i, (1 <= i < length sorted)%nat ->
    nth i sorted 0 - nth (i - 1) sorted 0 = nth 1 sorted 0 - nth 0 sorted 0.
Proof.
  rewrite everyFrom_true. unfold at_. split.
  - intros H i Hi. specialize (H i (proj2 Hi)). simpl in H.
    apply orb_true_iff in H as [H|H]; [apply Nat.eqb_eq in H; lia|].
    apply Z.eqb_eq, H.
  - intros H j Hj. simpl. destruct j as [|j]; [reflexivity|].
    apply orb_true_iff. right. apply Z.eqb_eq, H. lia.
Qed.

Lemma for_form_steps (sorted : list Z) :
  forallb (fun i => at_ sorted i - at_ sorted (i - 1) =? at_ sorted 1 - at_ sorted 0)
    (seq 2 (length sorted - 2)) = true <->
  forall i, (1 <= i < length sorted)%nat ->
    nth i sorted 0 - nth (i - 1) sorted 0 = nth 1 sorted 0 - nth 0 sorted 0.
Proof.
  rewrite forallb_seq_true. unfold at_. split.
  - intros H i Hi. destruct (decide (i = 1%nat)) as [->|Hne]; [reflexivity|].
    apply Z.eqb_eq, H. lia.
  - intros H j Hj. apply Z.eqb_eq, H. lia.
Qed.

(** X2. The two implementations of [isArithmeticSequence] (the [every] form
    of App.jsx and the [for] loop of part_000) return the same answer on every
    list of cells. *)
Theorem isArithmeticSequence_versions_agree (cells : list Z) :
  App.isArithmeticSequence cells = Part000.isArithmeticSequence cells.
Proof.
  unfold App.isArithmeticSequence, Part000.isArithmeticSequence.
  destruct (length cells <=? 1)%nat; [reflexivity|].
  destruct (negb (includes [1; 9; 10] _)); [reflexivity|].
  apply eq_true_iff_eq. rewrite every_form_steps, for_form_steps. reflexivity.
Qed.

Lemma nth_runFrom a d k : forall i, (i < k)%nat ->
  nth i (runFrom a d k) 0 = a + Z.of_nat i * d.
Proof.
  revert a. induction k as [|k IH]; intros a i Hi; [lia|].
  destruct i as [|i]; simpl; [lia|]. rewrite IH by lia. lia.
Qed.

Lemma steps_runFrom (l : list Z) (d : Z) :
  (forall i, (1 <= i < length l)%nat -> nth i l 0 - nth (i - 1) l 0 = d) ->
  l = runFrom (nth 0 l 0) d (length l).
Proof.
  induction l as [|x l IH]; intros H; [reflexivity|].
  simpl. f_equal. destruct l as [|y l]; [reflexivity|].
  assert (Hy : y = x + d).
  { specialize (H 1%nat). simpl in H. assert (y - x = d) by (apply H; lia). lia. }
  rewrite <- Hy. apply IH. intros i Hi.
  assert (H' := H (S i)).
  replace (S i - 1)%nat with (S (i - 1)) in H' by lia.
  apply H'. simpl length in *. lia.
Qed.

(** X3. What the line test accepts, for any number of cells: a list of at
    most one cell, or a list whose sorted coordinates are
    [a, a+d, a+2d, ...] with a step [d] of 1, 9 or 10; nothing else. *)
Theorem isArithmeticSequence_accepts_lines (cells : list Z) :
  Part000.isArithmeticSequence cells = true <->
  (length cells <= 1)%nat \/
  exists a d, (d = 1 \/ d = 9 \/ d = 10) /\
              sortAsc cells = runFrom a d (length cells).
Proof.
  unfold Part000.isArithmeticSequence.
  pose proof (length_sortAsc cells) as Hlen.
  destruct (length cells <=? 1)%nat eqn:E.
  { apply Nat.leb_le in E. split; [left; exact E | reflexivity]. }
  apply Nat.leb_gt in E. split.
  - intros H. right.
    destruct (includes [1; 9; 10] _) eqn:Hd; [|discriminate]. cbn [negb] in H.
    apply includes_steps in Hd. pose proof (proj1 (for_form_steps _) H) as Hsteps.
    exists (nth 0 (sortAsc cells) 0), (at_ (sortAsc cells) 1 - at_ (sortAsc cells) 0).
    split; [exact Hd|]. rewrite <- Hlen. apply steps_runFrom. exact Hsteps.
  - intros [H|(a & d & Hd & Hs)]; [lia|].
    assert (H1 : at_ (sortAsc cells) 1 - at_ (sortAsc cells) 0 = d).
    { unfold at_. rewrite Hs, !nth_runFrom by lia. lia. }
    rewrite H1.
    replace (includes [1; 9; 10] d) with true.
    2:{ symmetry. unfold includes. apply bool_decide_eq_true.
        rewrite !elem_of_cons. tauto. }
    simpl. rewrite <- H1. apply for_form_steps. intros i Hi.
    rewrite Hlen in Hi. rewrite Hs, !nth_runFrom by lia.
    rewrite Nat2Z.inj_sub by lia. lia.
Qed.

(** X4. The line test does not depend on the order in which the cells were
    clicked: two lists that are permutations of each other get the same
    answer from both versions. *)
Theorem isArithmeticSequence_order_insensitive (l1 l2 : list Z) :
  l1 ≡ₚ l2 ->
  App.isArithmeticSequence l1 = App.isArithmeticSequence l2 /\
  Part000.isArithmeticSequence l1 = Part000.isArithmeticSequence l2.
Proof.
  intros Hp.
  assert (Hs : sortAsc l1 = sortAsc l2).
  { unfold sortAsc. apply (Sorted_unique Z.le).
    - apply Sorted_merge_sort; apply _.
    - apply Sorted_merge_sort; apply _.
    - rewrite !merge_sort_Permutation. exact Hp. }
  assert (Hl : length l1 = length l2) by (apply Permutation_length, Hp).
  unfold App.isArithmeticSequence, Part000.isArithmeticSequence.
  rewrite Hs, Hl. split; reflexivity.
Qed.

Lemma isArithmeticSequence_order_insensitive_witness :
  App.isArithmeticSequence [53; 51; 52] = App.isArithmeticSequence [51; 52; 53] /\
  Part000.isArithmeticSequence [53; 51; 52] = Part000.isArithmeticSequence [51; 52; 53].
Proof.
  apply isArithmeticSequence_order_insensitive.
  apply (Permutation_app_comm [53] [51; 52]).
Defined.

(** ** The push walk terminates *)

Lemma pushWalk_more_fuel b p dir : forall fuel extra pushed cur pushed' cur',
  pushWalk fuel b p dir pushed cur = (pushed', cur') ->
  holdsOpponent b p cur' = false ->
  pushWalk (fuel + extra) b p dir pushed cur = (pushed', cur').
Proof.
  induction fuel as [|fuel IH]; intros extra pushed cur pushed' cur' H Hc; simpl in H.
  - inversion H; subst. destruct extra as [|extra]; simpl; [reflexivity|].
    rewrite Hc. reflexivity.
  - simpl. destruct (holdsOpponent b p cur); [|exact H].
    apply IH; assumption.
Qed.

Lemma run_length_bound b p cur dir k :
  dir <> 0 ->
  Forall (fun c => holdsOpponent b p c = true) (runFrom cur dir k) ->
  (k <= 81)%nat.
Proof.
  intros Hd Hall. destruct k as [|k]; [lia|].
  rewrite Forall_forall in Hall.
  assert (H0 : 15 <= cur <= 95).
  { apply CELL_SET_has_bounds, (holdsOpponent_valid b p), Hall, elem_of_runFrom.
    exists 0%nat. split; lia. }
  assert (Hk : 15 <= cur + Z.of_nat k * dir <= 95).
  { apply CELL_SET_has_bounds, (holdsOpponent_valid b p), Hall, elem_of_runFrom.
    exists k. split; lia. }
  nia.
Qed.

(** X5. The push walk [while (CELL_SET.has(cur) && board[cur] && board[cur]
    !== playerRole)] always terminates when [dir] is not zero: it collects at
    most 81 cells, it stops at a cell where the loop condition is false, and
    unrolling the loop further than [walkFuel] times never changes its
    result. *)
Theorem push_walk_terminates b p dir cur pushed' cur' (extra : nat) :
  dir <> 0 ->
  pushWalk walkFuel b p dir [] cur = (pushed', cur') ->
  holdsOpponent b p cur' = false /\
  (length pushed' <= 81)%nat /\
  pushWalk (walkFuel + extra) b p dir [] cur = (pushed', cur').
Proof.
  intros Hd H.
  assert (Hexit : holdsOpponent b p cur' = false)
    by (eapply pushWalk_exit; eassumption).
  split; [exact Hexit|]. split.
  - apply pushWalk_run in H as (k & -> & _ & Hall). simpl.
    rewrite length_runFrom. eapply run_length_bound; eassumption.
  - apply pushWalk_more_fuel; assumption.
Qed.

Lemma push_walk_terminates_witness :
  holdsOpponent rowPushOut black 60 = false /\
  (length [58; 59]%Z <= 81)%nat /\
  pushWalk (walkFuel + 7) rowPushOut black 1 [] 58 = ([58; 59], 60).
Proof.
  apply push_walk_terminates; [discriminate | vm_compute; reflexivity].
Defined.

(** ** Shape of the enumerated moves *)

Lemma map_dir_foldl_recordMove (f : Z -> option Move) (l : list Z) :
  (forall d m, d ∈ l -> f d = Some m -> m_dir m = d) ->
  forall acc,
    map m_dir (foldl (fun possible d => recordMove possible (f d)) acc l)
    = map m_dir acc ++ List.filter (fun d => yields (f d)) l.
Proof.
  induction l as [|d l IH]; intros Hf acc; simpl.
  - rewrite app_nil_r. reflexivity.
  - rewrite IH by (intros d' m Hd'; apply Hf; right; exact Hd').
    unfold recordMove, yields. destruct (f d) as [m|] eqn:E; [|reflexivity].
    rewrite map_app, <- app_assoc. simpl. rewrite (Hf d m); [reflexivity | left | exact E].
Qed.

Lemma App_moveInDir_dir st dir m :
  dir ∈ directions ->
  App.moveInDir st (sortAsc (App.selected st)) dir = Some m -> m_dir m = dir.
Proof.
  intros Hd H. destruct m as [d cells|d cells pushed pt trig]; simpl.
  - apply App_moveInDir_simple in H as [-> _]; auto.
  - apply App_moveInDir_push in H as [-> _]; auto.
Qed.

Lemma Part000_moveInDir_dir st dir m :
  dir ∈ directions ->
  Part000.moveInDir st (sortAsc (Part000.selected st)) dir = Some m -> m_dir m = dir.
Proof.
  intros Hd H. destruct m as [d cells|d cells pushed pt trig]; simpl.
  - apply Part000_moveInDir_simple in H as [-> _]; auto.
  - apply Part000_moveInDir_push in H as [-> _]; auto.
Qed.

Lemma directions_NoDup : NoDup directions.
Proof.
  unfold directions.
  repeat (apply NoDup_cons; split; [rewrite ?elem_of_cons, elem_of_nil; lia|]).
  apply NoDup_nil_2.
Qed.

Lemma filtered_directions (q : Z -> bool) :
  NoDup (List.filter q directions) /\
  (length (List.filter q directions) <= 6)%nat /\
  (forall d, d ∈ List.filter q directions -> d ∈ directions).
Proof.
  split; [|split].
  - apply NoDup_ListNoDup, List.NoDup_filter, NoDup_ListNoDup, directions_NoDup.
  - etransitivity; [apply List.filter_length_le|]. simpl. lia.
  - intros d Hd. apply list_elem_of_In, filter_In in Hd as [Hd _].
    apply list_elem_of_In, Hd.
Qed.

(** X6. A direction yields at most one move: the moves returned by either
    enumeration have pairwise different directions, each one of the six
    offsets +1, -1, +9, -9, +10, -10, so there are never more than six
    moves (and no direction is both a simple move and a push). *)
Theorem one_move_per_direction :
  (forall st : App.State,
      NoDup (map m_dir (App.moves st)) /\
      (length (App.moves st) <= 6)%nat /\
      (forall m, m ∈ App.moves st -> m_dir m ∈ directions)) /\
  (forall st : Part000.State,
      NoDup (map m_dir (Part000.getPossibleMoves st)) /\
      (length (Part000.getPossibleMoves st) <= 6)%nat /\
      (forall m, m ∈ Part000.getPossibleMoves st -> m_dir m ∈ directions)).
Proof.
  split; intros st.
  - assert (E : exists q, map m_dir (App.moves st) = List.filter q directions
                          \/ App.moves st = []).
    { unfold App.moves. destruct (_ || _); [exists (fun _ => true); right; reflexivity|].
      eexists. left. rewrite map_dir_foldl_recordMove; [reflexivity|].
      intros d m Hd. apply App_moveInDir_dir, Hd. }
    destruct E as (q & [E|E]).
    + destruct (filtered_directions q) as (Hn & Hl & Hin).
      rewrite <- (length_map m_dir), E. repeat split; try assumption.
      intros m Hm. apply Hin. rewrite <- E. apply list_elem_of_In, in_map, list_elem_of_In, Hm.
    + rewrite E. repeat split; [apply NoDup_nil_2 | simpl; lia | intros m Hm; inversion Hm].
  - assert (E : exists q, map m_dir (Part000.getPossibleMoves st) = List.filter q directions
                          \/ Part000.getPossibleMoves st = []).
    { unfold Part000.getPossibleMoves.
      destruct (_ =? _)%nat; [exists (fun _ => true); right; reflexivity|].
      eexists. left. rewrite map_dir_foldl_recordMove; [reflexivity|].
      intros d m Hd. apply Part000_moveInDir_dir, Hd. }
    destruct E as (q & [E|E]).
    + destruct (filtered_directions q) as (Hn & Hl & Hin).
      rewrite <- (length_map m_dir), E. repeat split; try assumption.
      intros m Hm. apply Hin. rewrite <- E. apply list_elem_of_In, in_map, list_elem_of_In, Hm.
    + rewrite E. repeat split; [apply NoDup_nil_2 | simpl; lia | intros m Hm; inversion Hm].
Qed.

Lemma one_move_per_direction_witness :
  m_dir (SimpleMove 10 [61; 62; 63]) ∈ directions.
Proof.
  apply (proj2 (proj2 (proj1 one_move_per_direction
                         (appState rowPushInside [51; 52; 53])))).
  vm_compute. right. right. left.
Defined.

Lemma App_moveInDir_push_axis st dir d cells pushed pt trig :
  App.moveInDir st (sortAsc (App.selected st)) dir = Some (PushMove d cells pushed pt trig) ->
  (1 < length (App.selected st))%nat /\
  (dir = at_ (sortAsc (App.selected st)) 1 - at_ (sortAsc (App.selected st)) 0 \/
   dir = - (at_ (sortAsc (App.selected st)) 1 - at_ (sortAsc (App.selected st)) 0)) /\
  trig = frontOf (sortAsc (App.selected st)) dir /\ pt = None.
Proof.
  intros H. unfold App.moveInDir in H.
  destruct (forallb CELL_SET_has _); cbn [negb] in H; [|discriminate].
  destruct (forallb (fun c => isFree _ c || includes _ c) _); [discriminate|].
  destruct (1 <? length (App.selected st))%nat eqn:Hlen; [|discriminate].
  destruct ((dir =? _) || (dir =? _)) eqn:Hax; [|discriminate].
  destruct (pushWalk _ _ _ _ _ _) as [pushed' cur].
  destruct (_ && _); [|discriminate].
  inversion H; subst. apply Nat.ltb_lt in Hlen.
  apply orb_true_iff in Hax. rewrite !Z.eqb_eq in Hax.
  repeat split; try assumption; reflexivity.
Qed.

Lemma Part000_moveInDir_push_axis st dir d cells pushed pt trig :
  Part000.moveInDir st (sortAsc (Part000.selected st)) dir
    = Some (PushMove d cells pushed pt trig) ->
  (1 < length (Part000.selected st))%nat /\
  (dir = at_ (sortAsc (Part000.selected st)) 1 - at_ (sortAsc (Part000.selected st)) 0 \/
   dir = - (at_ (sortAsc (Part000.selected st)) 1
            - at_ (sortAsc (Part000.selected st)) 0)) /\
  trig = frontOf (sortAsc (Part000.selected st)) dir /\
  pt = Some (farCell dir pushed).
Proof.
  intros H. unfold Part000.moveInDir in H.
  destruct (forallb CELL_SET_has _); cbn [negb] in H; [|discriminate].
  destruct (forallb (fun c => isFree _ c || includes _ c) _); [discriminate|].
  destruct (1 <? length _)%nat eqn:Hlen; [|discriminate].
  destruct (_ && _) eqn:Hax; [|discriminate].
  apply andb_true_iff in Hax as [_ Hax].
  apply orb_true_iff in Hax. rewrite !Z.eqb_eq in Hax.
  destruct (pushWalk _ _ _ _ _ _) as [pushed' cur] eqn:Hwalk.
  destruct (_ && _) eqn:Hguard; [|discriminate].
  apply andb_true_iff in Hguard as [Hpos _]. apply Nat.ltb_lt in Hpos.
  destruct (_ || _); [|discriminate].
  inversion H; subst. apply Nat.ltb_lt in Hlen. rewrite length_sortAsc in Hlen.
  apply pushWalk_run in Hwalk as (k & Hp & Hcur & _). simpl in Hp. subst pushed.
  destruct k as [|k]; [simpl in Hpos; lia|].
  rewrite farCell_runFrom, <- Hcur.
  repeat split; try assumption; reflexivity.
Qed.

Lemma frontOf_selected sel dir :
  (1 < length sel)%nat -> frontOf (sortAsc sel) dir ∈ sel.
Proof.
  intros Hlen. apply elem_of_sortAsc. rewrite <- length_sortAsc in Hlen.
  unfold frontOf, at_. apply list_elem_of_In.
  destruct (0 <? dir); apply nth_In; lia.
Qed.

(** What a recorded push looks like on the board, in terms of the leading
    cell [trig]. *)
Lemma pushFacts_shape b p sel dir cells pushed trig :
  pushFacts b p sel dir cells pushed ->
  trig = frontOf (sortAsc sel) dir ->
  cells = map (fun c => c + dir) (sortAsc sel) /\
  pushed = runFrom (trig + dir) dir (length pushed) /\
  (1 <= length pushed < length sel)%nat /\
  (forall c, c ∈ pushed ->
     c ∈ CELLS /\ b !! c = Some (opponentOf p) /\ c ∉ sel) /\
  (farCell dir pushed ∉ CELLS \/ b !! farCell dir pushed = None).
Proof.
  intros (Hdir & Hcells & _ & k & Hp & Hlt & Hall & Hfar) ->.
  apply directions_nonzero in Hdir.
  split; [exact Hcells|]. subst pushed. rewrite length_runFrom.
  split; [reflexivity|]. split; [lia|]. split.
  - intros c Hc. rewrite Forall_forall in Hall. specialize (Hall c Hc).
    split; [apply CELL_SET_has_true, (holdsOpponent_valid b p), Hall|].
    split; [apply holdsOpponent_color, Hall|].
    apply elem_of_runFrom in Hc as (i & Hi & ->).
    replace (frontOf (sortAsc sel) dir + dir + Z.of_nat i * dir)
      with (frontOf (sortAsc sel) dir + Z.of_nat (S i) * dir) by lia.
    apply beyond_front_not_selected; [assumption | lia].
  - destruct Hfar as [Hfar|Hfar]; [left | right; exact Hfar].
    rewrite <- CELL_SET_has_true, Hfar. discriminate.
Qed.

Lemma App_moves_push_shape (st : App.State) dir cells pushed pushTo trig :
  PushMove dir cells pushed pushTo trig ∈ App.moves st ->
  let sorted := sortAsc (App.selected st) in
  (dir = at_ sorted 1 - at_ sorted 0 \/ dir = - (at_ sorted 1 - at_ sorted 0)) /\
  trig = frontOf sorted dir /\ trig ∈ App.selected st /\ pushTo = None /\
  cells = map (fun c => c + dir) sorted /\
  pushed = runFrom (trig + dir) dir (length pushed) /\
  (1 <= length pushed < length (App.selected st))%nat /\
  (forall c, c ∈ pushed ->
     c ∈ CELLS /\
     App.board (App.gameState st) !! c = Some (opponentOf (App.playerRole st)) /\
     c ∉ App.selected st) /\
  (farCell dir pushed ∉ CELLS \/
   App.board (App.gameState st) !! farCell dir pushed = None).
Proof.
  intros Hm. cbv zeta.
  pose proof (App_moves_push _ _ _ _ _ _ Hm) as Hf.
  apply App_moves_elem in Hm as (d & Hd & Hm).
  pose proof (App_moveInDir_dir _ _ _ Hd Hm) as Hdd. simpl in Hdd. subst d.
  apply App_moveInDir_push_axis in Hm as (Hlen & Hax & Ht & Hpt).
  split; [exact Hax|]. split; [exact Ht|].
  split; [subst trig; apply frontOf_selected, Hlen|]. split; [exact Hpt|].
  eapply pushFacts_shape; eassumption.
Qed.

Lemma Part000_moves_push_shape (st : Part000.State) dir cells pushed pushTo trig :
  PushMove dir cells pushed pushTo trig ∈ Part000.getPossibleMoves st ->
  let sorted := sortAsc (Part000.selected st) in
  (dir = at_ sorted 1 - at_ sorted 0 \/ dir = - (at_ sorted 1 - at_ sorted 0)) /\
  trig = frontOf sorted dir /\ trig ∈ Part000.selected st /\
  pushTo = Some (farCell dir pushed) /\
  cells = map (fun c => c + dir) sorted /\
  pushed = runFrom (trig + dir) dir (length pushed) /\
  (1 <= length pushed < length (Part000.selected st))%nat /\
  (forall c, c ∈ pushed ->
     c ∈ CELLS /\
     Part000.board st !! c = Some (opponentOf (Part000.playerRole st)) /\
     c ∉ Part000.selected st) /\
  (farCell dir pushed ∉ CELLS \/
   Part000.board st !! farCell dir pushed = None).
Proof.
  intros Hm. cbv zeta.
  pose proof (Part000_moves_push _ _ _ _ _ _ Hm) as Hf.
  apply Part000_moves_elem in Hm as (d & Hd & Hm).
  pose proof (Part000_moveInDir_dir _ _ _ Hd Hm) as Hdd. simpl in Hdd. subst d.
  apply Part000_moveInDir_push_axis in Hm as (Hlen & Hax & Ht & Hpt).
  split; [exact Hax|]. split; [exact Ht|].
  split; [subst trig; apply frontOf_selected, Hlen|]. split; [exact Hpt|].
  eapply pushFacts_shape; eassumption.
Qed.

(** The first pushed cell is the cell right in front of the trigger cell. *)
Lemma head_pushed_run (pushed : list Z) (start dir : Z) :
  pushed = runFrom start dir (length pushed) -> (1 <= length pushed)%nat ->
  head pushed = Some start /\ at_ pushed 0 = start /\ start ∈ pushed.
Proof.
  intros Hp Hlen. destruct pushed as [|c pushed]; [simpl in Hlen; lia|].
  simpl in Hp. injection Hp as -> _. repeat split. left.
Qed.

(** X7. Shape of a push returned by either enumeration: the selection has
    at least two cells, the direction is the selection's own step or its
    negation, the trigger cell is the selected cell that leads in that
    direction, the targets are the sorted selection shifted by [dir], the
    pushed cells are the consecutive cells in front of the trigger cell, at
    least one and fewer than the selection, each a valid cell that holds an
    opponent piece and is not selected, and the far cell behind them is off the
    board or empty.  part_000 also records that far cell as [pushTo]; App.jsx
    records none. *)
Theorem push_is_opponent_run :
  (forall (st : App.State) dir cells pushed pushTo trig,
      PushMove dir cells pushed pushTo trig ∈ App.moves st ->
      let sorted := sortAsc (App.selected st) in
      (dir = at_ sorted 1 - at_ sorted 0 \/ dir = - (at_ sorted 1 - at_ sorted 0)) /\
      trig = frontOf sorted dir /\ trig ∈ App.selected st /\ pushTo = None /\
      cells = map (fun c => c + dir) sorted /\
      pushed = runFrom (trig + dir) dir (length pushed) /\
      (1 <= length pushed < length (App.selected st))%nat /\
      (forall c, c ∈ pushed ->
         c ∈ CELLS /\
         App.board (App.gameState st) !! c = Some (opponentOf (App.playerRole st)) /\
         c ∉ App.selected st) /\
      (farCell dir pushed ∉ CELLS \/
       App.board (App.gameState st) !! farCell dir pushed = None)) /\
  (forall (st : Part000.State) dir cells pushed pushTo trig,
      PushMove dir cells pushed pushTo trig ∈ Part000.getPossibleMoves st ->
      let sorted := sortAsc (Part000.selected st) in
      (dir = at_ sorted 1 - at_ sorted 0 \/ dir = - (at_ sorted 1 - at_ sorted 0)) /\
      trig = frontOf sorted dir /\ trig ∈ Part000.selected st /\
      pushTo = Some (farCell dir pushed) /\
      cells = map (fun c => c + dir) sorted /\
      pushed = runFrom (trig + dir) dir (length pushed) /\
      (1 <= length pushed < length (Part000.selected st))%nat /\
      (forall c, c ∈ pushed ->
         c ∈ CELLS /\
         Part000.board st !! c = Some (opponentOf (Part000.playerRole st)) /\
         c ∉ Part000.selected st) /\
      (farCell dir pushed ∉ CELLS \/
       Part000.board st !! farCell dir pushed = None)).
Proof.
  split; intros st dir cells pushed pushTo trig Hm.
  - apply App_moves_push_shape, Hm.
  - apply Part000_moves_push_shape, Hm.
Qed.

Lemma push_is_opponent_run_witness :
  (57 ∈ App.selected (appState rowPushOut [55; 56; 57]) /\
   (farCell 1 [58; 59] ∉ CELLS \/
    App.board (App.gameState (appState rowPushOut [55; 56; 57])) !! farCell 1 [58; 59]
    = None)) /\
  (53 ∈ Part000.selected (partState rowPushInside [51; 52; 53]) /\
   Some 56 = Some (farCell 1 [54; 55])).
Proof.
  split.
  - destruct (proj1 push_is_opponent_run (appState rowPushOut [55; 56; 57])
                1 [56; 57; 58] [58; 59] None 57) as (_ & _ & Ht & _ & _ & _ & _ & _ & Hfar).
    + vm_compute. left.
    + split; [exact Ht | exact Hfar].
  - destruct (proj2 push_is_opponent_run (partState rowPushInside [51; 52; 53])
                1 [52; 53; 54] [54; 55] (Some 56) 53) as (_ & _ & Ht & Hpt & _).
    + vm_compute. left.
    + split; [exact Ht | exact Hpt].
Defined.

(** ** A single selected piece *)

Lemma sortAsc_single c : sortAsc [c] = [c].
Proof. reflexivity. Qed.

Lemma includes_single_shift c d : d <> 0 -> includes [c] (c + d) = false.
Proof.
  intros Hd. apply includes_false. rewrite list_elem_of_singleton. lia.
Qed.

Lemma App_moveInDir_single st c d :
  App.selected st = [c] -> d <> 0 ->
  App.moveInDir st [c] d
  = if CELL_SET_has (c + d) && isFree (App.board (App.gameState st)) (c + d)
    then Some (SimpleMove d [c + d]) else None.
Proof.
  intros Hsel Hd. unfold App.moveInDir. rewrite Hsel.
  cbn [map forallb length]. rewrite andb_true_r, (includes_single_shift c d Hd).
  rewrite orb_false_r, andb_true_r.
  destruct (CELL_SET_has (c + d)); cbn [negb andb]; [|reflexivity].
  destruct (isFree _ (c + d)); reflexivity.
Qed.

Lemma Part000_moveInDir_single st c d :
  Part000.selected st = [c] -> d <> 0 ->
  Part000.moveInDir st [c] d
  = if CELL_SET_has (c + d) && isFree (Part000.board st) (c + d)
    then Some (SimpleMove d [c + d]) else None.
Proof.
  intros Hsel Hd. unfold Part000.moveInDir. rewrite Hsel.
  cbn [map forallb length]. rewrite andb_true_r, (includes_single_shift c d Hd).
  rewrite orb_false_r, andb_true_r.
  destruct (CELL_SET_has (c + d)); cbn [negb andb]; [|reflexivity].
  destruct (isFree _ (c + d)); reflexivity.
Qed.

Lemma elem_of_directions d :
  d ∈ directions <-> d = 1 \/ d = -1 \/ d = 9 \/ d = -9 \/ d = 10 \/ d = -10.
Proof. unfold directions. rewrite !elem_of_cons, elem_of_nil. tauto. Qed.

Lemma single_piece_targets b c m :
  (exists d, d ∈ directions /\
     (if CELL_SET_has (c + d) && isFree b (c + d)
      then Some (SimpleMove d [c + d]) else None) = Some m) <->
  (exists t, t ∈ getNeighbors c /\ b !! t = None /\ m = SimpleMove (t - c) [t]).
Proof.
  split.
  - intros (d & Hd & H).
    destruct (CELL_SET_has (c + d)) eqn:Hv; [|discriminate].
    destruct (isFree b (c + d)) eqn:Hf; [|discriminate].
    inversion H; subst. exists (c + d).
    split; [|split].
    + apply elem_of_getNeighbors. split; [exact Hv|].
      apply elem_of_directions in Hd. lia.
    + apply isFree_true, Hf.
    + f_equal. lia.
  - intros (t & Ht & Hf & ->). apply elem_of_getNeighbors in Ht as [Hv Ht].
    exists (t - c). split; [apply elem_of_directions; lia|].
    replace (c + (t - c)) with t by lia.
    rewrite Hv, (proj2 (isFree_true b t) Hf). reflexivity.
Qed.

(** X8. Moves of a single selected piece: they are exactly the simple moves
    onto the free neighbours of its cell (a single piece never pushes).  In
    App.jsx this is the move list on the player's own turn; part_000 does not
    test the turn when it enumerates. *)
Theorem single_piece_moves :
  (forall (st : App.State) (c : Z) (m : Move),
      App.selected st = [c] ->
      App.currentTurn (App.gameState st) = App.playerRole st ->
      (m ∈ App.moves st <->
       exists t, t ∈ getNeighbors c /\ App.board (App.gameState st) !! t = None /\
                 m = SimpleMove (t - c) [t])) /\
  (forall (st : Part000.State) (c : Z) (m : Move),
      Part000.selected st = [c] ->
      (m ∈ Part000.getPossibleMoves st <->
       exists t, t ∈ getNeighbors c /\ Part000.board st !! t = None /\
                 m = SimpleMove (t - c) [t])).
Proof.
  split.
  - intros st c m Hsel Hturn. rewrite <- single_piece_targets.
    unfold App.moves. rewrite Hsel, Hturn, sortAsc_single.
    rewrite bool_decide_eq_true_2 by reflexivity. cbn [length Nat.eqb negb orb].
    rewrite elem_of_foldl_recordMove. split.
    + intros [H|(d & Hd & H)]; [inversion H|]. exists d. split; [exact Hd|].
      rewrite <- (App_moveInDir_single st c d Hsel (directions_nonzero d Hd)). exact H.
    + intros (d & Hd & H). right. exists d. split; [exact Hd|].
      rewrite (App_moveInDir_single st c d Hsel (directions_nonzero d Hd)). exact H.
  - intros st c m Hsel. rewrite <- single_piece_targets.
    unfold Part000.getPossibleMoves. rewrite Hsel, sortAsc_single.
    cbn [length Nat.eqb]. rewrite elem_of_foldl_recordMove. split.
    + intros [H|(d & Hd & H)]; [inversion H|]. exists d. split; [exact Hd|].
      rewrite <- (Part000_moveInDir_single st c d Hsel (directions_nonzero d Hd)). exact H.
    + intros (d & Hd & H). right. exists d. split; [exact Hd|].
      rewrite (Part000_moveInDir_single st c d Hsel (directions_nonzero d Hd)). exact H.
Qed.

Lemma single_piece_moves_witness :
  (SimpleMove 9 [64] ∈ App.moves (appState rowPushOut [55]) <->
   exists t, t ∈ getNeighbors 55 /\
     App.board (App.gameState (appState rowPushOut [55])) !! t = None /\
     SimpleMove 9 [64] = SimpleMove (t - 55) [t]) /\
  (SimpleMove 1 [56] ∈ Part000.getPossibleMoves (partState rowPushOut [55]) <->
   exists t, t ∈ getNeighbors 55 /\
     Part000.board (partState rowPushOut [55]) !! t = None /\
     SimpleMove 1 [56] = SimpleMove (t - 55) [t]).
Proof.
  split.
  - apply (proj1 single_piece_moves); reflexivity.
  - apply (proj2 single_piece_moves); reflexivity.
Defined.

(** ** Which buttons trigger a move *)

Lemma App_moveMap_fold st (l : list Move) : forall (acc : gmap Z Move) k m,
  foldl (fun mm m =>
           match App.moveKey st m with
           | Some key => if key =? 0 then mm else <[key := m]> mm
           | None => mm
           end) acc l !! k = Some m ->
  acc !! k = Some m \/ (m ∈ l /\ App.moveKey st m = Some k).
Proof.
  induction l as [|m0 l IH]; intros acc k m H; simpl in H; [left; exact H|].
  apply IH in H as [H|[H1 H2]]; [|right; split; [right|]; assumption].
  destruct (App.moveKey st m0) as [key|] eqn:Ek; [|left; exact H].
  destruct (key =? 0); [left; exact H|].
  destruct (decide (key = k)) as [->|Hne].
  - rewrite lookup_insert_eq in H. inversion H; subst. right. split; [left | exact Ek].
  - rewrite lookup_insert_ne in H by exact Hne. left. exact H.
Qed.

Lemma App_moveMap_elem st k m :
  App.moveMap st !! k = Some m -> m ∈ App.moves st /\ App.moveKey st m = Some k.
Proof.
  unfold App.moveMap. intros H. apply App_moveMap_fold in H as [H|H]; [|exact H].
  rewrite lookup_empty in H. discriminate.
Qed.

(** X9. The buttons of App.jsx that trigger a move: every entry of [moveMap]
    is a move returned by [moves]; its button is a valid cell that is not
    selected, and is either a free target cell of a simple move or the first
    pushed cell of a push, holding an opponent piece.  So a button showing
    one of the player's own pieces never triggers a move; a click on it always
    goes to the selection rule. *)
Theorem App_move_buttons (st : App.State) (k : Z) :
  (forall m, App.moveMap st !! k = Some m ->
     m ∈ App.moves st /\ k ∈ CELLS /\ (k ∉ App.selected st) /\
     match m with
     | SimpleMove _ cells =>
         k ∈ cells /\ App.board (App.gameState st) !! k = None
     | PushMove dir _ pushed _ trig =>
         k = trig + dir /\ head pushed = Some k /\
         App.board (App.gameState st) !! k = Some (opponentOf (App.playerRole st))
     end) /\
  (App.board (App.gameState st) !! k = Some (App.playerRole st) ->
   App.moveMap st !! k = None /\
   App.selected (App.onClick st k) = App.selectCell st k /\
   App.gameState (App.onClick st k) = App.gameState st).
Proof.
  assert (Hsound : forall m, App.moveMap st !! k = Some m ->
     m ∈ App.moves st /\ k ∈ CELLS /\ (k ∉ App.selected st) /\
     match m with
     | SimpleMove _ cells =>
         k ∈ cells /\ App.board (App.gameState st) !! k = None
     | PushMove dir _ pushed _ trig =>
         k = trig + dir /\ head pushed = Some k /\
         App.board (App.gameState st) !! k = Some (opponentOf (App.playerRole st))
     end).
  { intros m H. apply App_moveMap_elem in H as [Hm Hk].
    split; [exact Hm|].
    destruct m as [dir cells|dir cells pushed pt trig]; simpl in Hk.
    - apply find_some in Hk as [Hin Hns].
      apply negb_true_iff in Hns. unfold includes in Hns.
      apply bool_decide_eq_false in Hns. apply list_elem_of_In in Hin.
      destruct (simpleFacts_targets _ _ _ _ k (App_moves_simple _ _ _ Hm) Hin) as [Hv Hf].
      repeat split; try assumption. destruct Hf; [assumption | contradiction].
    - destruct (App_moves_push_shape _ _ _ _ _ _ Hm)
        as (_ & _ & _ & _ & _ & Hrun & Hlen & Hall & _).
      destruct (head_pushed_run _ _ _ Hrun (proj1 Hlen)) as (Hh & _ & Hin).
      rewrite Hh in Hk. injection Hk as <-.
      destruct (Hall _ Hin) as (Hv & Hc & Hns).
      repeat split; assumption. }
  split; [exact Hsound|].
  intros Hown.
  assert (Hnone : App.moveMap st !! k = None).
  { destruct (App.moveMap st !! k) as [m|] eqn:E; [|reflexivity].
    destruct (Hsound m eq_refl) as (_ & _ & _ & Hm).
    destruct m as [dir cells|dir cells pushed pt trig].
    - destruct Hm as [_ Hm]. congruence.
    - destruct Hm as (_ & _ & Hm). rewrite Hown in Hm.
      destruct (App.playerRole st); discriminate. }
  split; [exact Hnone|]. unfold App.onClick. rewrite Hnone. split; reflexivity.
Qed.

Lemma App_move_buttons_witness :
  (PushMove 1 [52; 53; 54] [54; 55] None 53
     ∈ App.moves (appState rowPushInside [51; 52; 53])) /\
  (App.moveMap (appState rowPushInside [51; 52; 53]) !! 52 = None).
Proof.
  split.
  - refine (proj1 (proj1 (App_move_buttons (appState rowPushInside [51; 52; 53]) 54)
                     (PushMove 1 [52; 53; 54] [54; 55] None 53) _)).
    vm_compute. reflexivity.
  - refine (proj1 (proj2 (App_move_buttons (appState rowPushInside [51; 52; 53]) 52) _)).
    vm_compute. reflexivity.
Defined.

Lemma Part000_moveMap_fold st (l : list Move) : forall (acc : gmap Z Move) k m,
  foldl (fun mm m =>
           match m with
           | PushMove _ _ pushed _ triggerCell =>
               <[triggerCell := m]> (<[at_ pushed 0 := m]> mm)
           | SimpleMove _ cells =>
               match List.find (fun c => negb (includes (Part000.selected st) c)) cells with
               | Some target => if target =? 0 then mm else <[target := m]> mm
               | None => mm
               end
           end) acc l !! k = Some m ->
  acc !! k = Some m \/
  (m ∈ l /\
   match m with
   | PushMove _ _ pushed _ trig => k = trig \/ k = at_ pushed 0
   | SimpleMove _ cells =>
       List.find (fun c => negb (includes (Part000.selected st) c)) cells = Some k
   end).
Proof.
  induction l as [|m0 l IH]; intros acc k m H; simpl in H; [left; exact H|].
  apply IH in H as [H|[H1 H2]]; [|right; split; [right|]; assumption].
  destruct m0 as [dir cells|dir cells pushed pt trig].
  - destruct (List.find _ cells) as [target|] eqn:Ek; [|left; exact H].
    destruct (target =? 0); [left; exact H|].
    destruct (decide (target = k)) as [->|Hne].
    + rewrite lookup_insert_eq in H. inversion H; subst. right. split; [left | exact Ek].
    + rewrite lookup_insert_ne in H by exact Hne. left. exact H.
  - destruct (decide (trig = k)) as [->|Hne].
    + rewrite lookup_insert_eq in H. inversion H; subst. right. split; [left | left; reflexivity].
    + rewrite lookup_insert_ne in H by exact Hne.
      destruct (decide (at_ pushed 0 = k)) as [<-|Hne'].
      * rewrite lookup_insert_eq in H. inversion H; subst.
        right. split; [left | right; reflexivity].
      * rewrite lookup_insert_ne in H by exact Hne'. left. exact H.
Qed.

Lemma Part000_moveMap_keeps st (l : list Move) : forall (acc : gmap Z Move) k,
  is_Some (acc !! k) \/
  (exists dir cells pushed pt, PushMove dir cells pushed pt k ∈ l) ->
  is_Some (foldl (fun mm m =>
           match m with
           | PushMove _ _ pushed _ triggerCell =>
               <[triggerCell := m]> (<[at_ pushed 0 := m]> mm)
           | SimpleMove _ cells =>
               match List.find (fun c => negb (includes (Part000.selected st) c)) cells with
               | Some target => if target =? 0 then mm else <[target := m]> mm
               | None => mm
               end
           end) acc l !! k).
Proof.
  induction l as [|m0 l IH]; intros acc k H; simpl.
  - destruct H as [H|(dir & cells & pushed & pt & H)]; [exact H | inversion H].
  - apply IH. destruct H as [H|(dir & cells & pushed & pt & H)].
    + left. destruct m0 as [dir cells|dir cells pushed pt trig].
      * destruct (List.find _ cells) as [target|]; [|exact H].
        destruct (target =? 0); [exact H|].
        rewrite lookup_insert_is_Some. destruct (decide (target = k)); auto.
      * rewrite !lookup_insert_is_Some.
        destruct (decide (trig = k)); [auto|]. right. split; [assumption|].
        destruct (decide (at_ pushed 0 = k)); auto.
    + apply elem_of_cons in H as [<-|H].
      * left. rewrite lookup_insert_is_Some. left. reflexivity.
      * right. exists dir, cells, pushed, pt. exact H.
Qed.

Lemma Part000_moveMap_sound (st : Part000.State) (k : Z) (m : Move) :
  Part000.moveMap st !! k = Some m ->
  m ∈ Part000.getPossibleMoves st /\
  match m with
  | SimpleMove _ cells =>
      k ∈ cells /\ (k ∉ Part000.selected st) /\ Part000.board st !! k = None
  | PushMove dir _ pushed _ trig =>
      (k = trig /\ k ∈ Part000.selected st) \/
      (k = trig + dir /\ (k ∉ Part000.selected st) /\
       Part000.board st !! k = Some (opponentOf (Part000.playerRole st)))
  end.
Proof.
  unfold Part000.moveMap. intros H.
  apply Part000_moveMap_fold in H as [H|[Hm Hk]];
    [rewrite lookup_empty in H; discriminate|].
  split; [exact Hm|].
  destruct m as [dir cells|dir cells pushed pt trig].
  - apply find_some in Hk as [Hin Hns].
    apply negb_true_iff in Hns. unfold includes in Hns.
    apply bool_decide_eq_false in Hns. apply list_elem_of_In in Hin.
    destruct (simpleFacts_targets _ _ _ _ k (Part000_moves_simple _ _ _ Hm) Hin)
      as [_ Hf].
    repeat split; try assumption. destruct Hf; [assumption | contradiction].
  - destruct (Part000_moves_push_shape _ _ _ _ _ _ Hm)
      as (_ & _ & Ht & _ & _ & Hrun & Hlen & Hall & _).
    destruct (head_pushed_run _ _ _ Hrun (proj1 Hlen)) as (_ & Hat & Hin).
    destruct Hk as [->| ->]; [left; split; [reflexivity | exact Ht]|].
    right. rewrite Hat. destruct (Hall _ Hin) as (_ & Hc & Hns).
    repeat split; assumption.
Qed.

(** X10. The buttons of part_000 that trigger a move: every entry of
    [moveMap] is a move returned by [getPossibleMoves]; the button of a simple
    move is one of its target cells, free and not selected; the button of a
    push is either its trigger cell, a selected cell, or the cell in front of
    it, which holds an opponent piece. *)
Theorem Part000_move_buttons (st : Part000.State) (k : Z) (m : Move) :
  Part000.moveMap st !! k = Some m ->
  m ∈ Part000.getPossibleMoves st /\
  match m with
  | SimpleMove _ cells =>
      k ∈ cells /\ (k ∉ Part000.selected st) /\ Part000.board st !! k = None
  | PushMove dir _ pushed _ trig =>
      (k = trig /\ k ∈ Part000.selected st) \/
      (k = trig + dir /\ (k ∉ Part000.selected st) /\
       Part000.board st !! k = Some (opponentOf (Part000.playerRole st)))
  end.
Proof. apply Part000_moveMap_sound. Qed.

Lemma Part000_move_buttons_witness :
  PushMove 1 [52; 53; 54] [54; 55] (Some 56) 53
    ∈ Part000.getPossibleMoves (partState rowPushInside [51; 52; 53]).
Proof.
  refine (proj1 (Part000_move_buttons (partState rowPushInside [51; 52; 53]) 54
                   (PushMove 1 [52; 53; 54] [54; 55] (Some 56) 53) _)).
  vm_compute. reflexivity.
Defined.

(** X11. In part_000 the leading cell of a selection that can push cannot be
    deselected: whenever a push with trigger cell [trig] is among the possible
    moves, a click on [trig] applies a push triggered by [trig] instead of
    removing [trig] from the selection. *)
Theorem front_click_pushes (st : Part000.State) dir cells pushed pushTo trig :
  PushMove dir cells pushed pushTo trig ∈ Part000.getPossibleMoves st ->
  trig ∈ Part000.selected st /\
  exists dir' cells' pushed' pushTo',
    PushMove dir' cells' pushed' pushTo' trig ∈ Part000.getPossibleMoves st /\
    Part000.onClick st trig
    = Part000.makeMove st (PushMove dir' cells' pushed' pushTo' trig).
Proof.
  intros Hm.
  destruct (Part000_moves_push_shape _ _ _ _ _ _ Hm) as (_ & _ & Ht & _).
  split; [exact Ht|].
  assert (Hsome : is_Some (Part000.moveMap st !! trig)).
  { unfold Part000.moveMap. apply Part000_moveMap_keeps. right.
    exists dir, cells, pushed, pushTo. exact Hm. }
  destruct Hsome as [m' Hm'].
  destruct (Part000_moveMap_sound _ _ _ Hm') as [Hin Hk].
  destruct m' as [dir' cells'|dir' cells' pushed' pt' trig'].
  - destruct Hk as (_ & Hns & _). contradiction.
  - destruct Hk as [[-> _]|(_ & Hns & _)]; [|contradiction].
    exists dir', cells', pushed', pt'. split; [exact Hin|].
    unfold Part000.onClick. rewrite Hm'. reflexivity.
Qed.

Lemma front_click_pushes_witness :
  53 ∈ Part000.selected (partState rowPushInside [51; 52; 53]) /\
  exists dir' cells' pushed' pushTo',
    PushMove dir' cells' pushed' pushTo' 53
      ∈ Part000.getPossibleMoves (partState rowPushInside [51; 52; 53]) /\
    Part000.onClick (partState rowPushInside [51; 52; 53]) 53
    = Part000.makeMove (partState rowPushInside [51; 52; 53])
        (PushMove dir' cells' pushed' pushTo' 53).
Proof.
  apply (front_click_pushes (partState rowPushInside [51; 52; 53])
           1 [52; 53; 54] [54; 55] (Some 56) 53).
  vm_compute. left.
Defined.

(** ** Clicks out of turn and after the end of the game *)

(** X12. In App.jsx no move can be made out of turn: while the stored turn
    is not the player's own colour, no move is enumerated, no button triggers
    one, and a click on any cell leaves the synchronised game state (board,
    scores, winner, turn) as it is. *)
Theorem App_no_move_out_of_turn (st : App.State) (cell : Z) :
  App.currentTurn (App.gameState st) <> App.playerRole st ->
  App.moves st = [] /\
  App.moveMap st = ∅ /\
  App.gameState (App.onClick st cell) = App.gameState st.
Proof.
  intros Hturn.
  assert (Hm : App.moves st = []).
  { unfold App.moves. rewrite (bool_decide_eq_false_2 _ Hturn), orb_true_r. reflexivity. }
  assert (Hmap : App.moveMap st = ∅) by (unfold App.moveMap; rewrite Hm; reflexivity).
  split; [exact Hm|]. split; [exact Hmap|].
  unfold App.onClick. rewrite Hmap, lookup_empty. reflexivity.
Qed.

Lemma App_no_move_out_of_turn_witness :
  App.moves (App.mkState (App.mkGameState rowPushInside (mkScores 0 0) None white)
               black [51; 52; 53]) = [].
Proof.
  refine (proj1 (App_no_move_out_of_turn _ 54 _)). discriminate.
Defined.

Lemma Part000_moveMap_empty st :
  Part000.selected st = [] -> Part000.moveMap st = ∅.
Proof.
  intros Hsel. unfold Part000.moveMap, Part000.getPossibleMoves.
  rewrite Hsel. reflexivity.
Qed.

(** X13. In part_000 the board is frozen out of turn and after the end of
    the game.  In every state reached by clicks on the rendered board, a click
    on any cell while it is not the player's turn changes nothing at all; and
    once an applied move has set a winner, a click on any cell changes nothing
    at all. *)
Theorem Part000_frozen_board :
  (forall (st : Part000.State) (cell : Z),
      gameViewReachable st ->
      Part000.gameStarted st = true ->
      Part000.currentTurn st <> Part000.playerRole st ->
      Part000.onClick st cell = st) /\
  (forall (st : Part000.State) (m : Move) (cell : Z),
      Part000.winner (Part000.makeMove st m) <> None ->
      Part000.onClick (Part000.makeMove st m) cell = Part000.makeMove st m).
Proof.
  split.
  - intros st cell Hreach Hstarted Hturn.
    assert (Hsel : Part000.selected st = []).
    { destruct (Part000.selected st) as [|c l] eqn:E; [reflexivity|].
      exfalso. apply Hturn, Part000_selection_needs_turn; try assumption.
      rewrite E. discriminate. }
    unfold Part000.onClick. rewrite (Part000_moveMap_empty st Hsel), lookup_empty.
    unfold Part000.handleCellClick.
    rewrite Hstarted, (bool_decide_eq_false_2 _ Hturn), orb_true_r. reflexivity.
  - intros st m cell Hwin.
    unfold Part000.onClick.
    rewrite (Part000_moveMap_empty _ (Part000_makeMove_selected st m)), lookup_empty.
    unfold Part000.handleCellClick.
    rewrite (bool_decide_eq_true_2 _ Hwin). reflexivity.
Qed.

Lemma Part000_frozen_board_witness :
  Part000.onClick
    (Part000.makeMove (partState rowPushOut [55; 56; 57])
       (PushMove 1 [56; 57; 58] [58; 59] (Some 60) 57)) 58
  = Part000.makeMove (partState rowPushOut [55; 56; 57])
       (PushMove 1 [56; 57; 58] [58; 59] (Some 60) 57)
  /\
  Part000.onClick
    (Part000.makeMove
       (Part000.mkState rowPushOut black [55; 56; 57] true (mkScores 0 5) None black)
       (PushMove 1 [56; 57; 58] [58; 59] (Some 60) 57)) 56
  = Part000.makeMove
       (Part000.mkState rowPushOut black [55; 56; 57] true (mkScores 0 5) None black)
       (PushMove 1 [56; 57; 58] [58; 59] (Some 60) 57).
Proof.
  split.
  - apply (proj1 Part000_frozen_board).
    + apply reach_start. vm_compute. reflexivity.
    + reflexivity.
    + vm_compute. discriminate.
  - apply (proj2 Part000_frozen_board). vm_compute. discriminate.
Defined.

(** ** Invariants of the selection *)

Lemma filter_ne_Forall (P : Z -> Prop) (l : list Z) (cell : Z) :
  Forall P l -> Forall P (filter (fun c => c <> cell) l).
Proof.
  induction 1 as [|x l Hx _ IH]; [constructor|].
  rewrite filter_cons. destruct (decide (x <> cell)); [constructor|]; assumption.
Qed.

Lemma filter_ne_sorted (l : list Z) (cell : Z) :
  StronglySorted Z.le l -> StronglySorted Z.le (filter (fun c => c <> cell) l).
Proof.
  induction 1 as [|x l _ IH Hx]; [constructor|].
  rewrite filter_cons. destruct (decide (x <> cell)); [|assumption].
  constructor; [assumption|]. apply filter_ne_Forall, Hx.
Qed.

Lemma filter_ne_id (l : list Z) (cell : Z) :
  cell ∉ l -> filter (fun c => c <> cell) l = l.
Proof.
  induction l as [|x l IH]; intros Hn; [reflexivity|].
  rewrite not_elem_of_cons in Hn. destruct Hn as [Hx Hl].
  rewrite filter_cons, decide_True by congruence. rewrite IH by assumption. reflexivity.
Qed.

Lemma selectionOk_filter b p sel cell :
  selectionOk b p sel -> selectionOk b p (filter (fun c => c <> cell) sel).
Proof.
  intros (Hlen & Hnd & Hall). split; [|split].
  - pose proof (length_filter_ne sel cell). lia.
  - apply NoDup_filter, Hnd.
  - apply filter_ne_Forall, Hall.
Qed.

Lemma selectionOk_single b p cell :
  b !! cell = Some p -> selectionOk b p [cell].
Proof.
  intros Hc. split; [simpl; lia|]. split; [apply NoDup_singleton|].
  constructor; [exact Hc | constructor].
Qed.

Lemma selectionOk_snoc b p sel cell :
  selectionOk b p sel -> (length sel < 3)%nat -> cell ∉ sel -> b !! cell = Some p ->
  selectionOk b p (sel ++ [cell]).
Proof.
  intros (Hlen & Hnd & Hall) Hlt Hn Hc. split; [|split].
  - rewrite length_app. simpl. lia.
  - apply NoDup_app. split; [exact Hnd|]. split; [|apply NoDup_singleton].
    intros x Hx Hx'. apply list_elem_of_singleton in Hx'. subst. contradiction.
  - apply Forall_app. split; [exact Hall|]. constructor; [exact Hc | constructor].
Qed.

Lemma selectionOk_perm b p sel sel' :
  sel ≡ₚ sel' -> selectionOk b p sel -> selectionOk b p sel'.
Proof.
  intros Hp (Hlen & Hnd & Hall). split; [|split].
  - rewrite <- (Permutation_length Hp). exact Hlen.
  - rewrite <- Hp. exact Hnd.
  - rewrite <- Hp. exact Hall.
Qed.

Lemma includes_true sel cell : includes sel cell = true <-> cell ∈ sel.
Proof. unfold includes. apply bool_decide_eq_true. Qed.

Lemma App_selectCell_ok st cell :
  selectionOk (App.board (App.gameState st)) (App.playerRole st) (App.selected st) ->
  selectionOk (App.board (App.gameState st)) (App.playerRole st) (App.selectCell st cell).
Proof.
  intros Hok. unfold App.selectCell.
  destruct (bool_decide _) eqn:Hcol; [|exact Hok].
  apply bool_decide_eq_true in Hcol.
  destruct (includes (App.selected st) cell) eqn:Hin.
  - apply selectionOk_filter, Hok.
  - destruct (_ && _) eqn:Hext; [|apply selectionOk_single, Hcol].
    apply andb_true_iff in Hext as [Hlt _]. apply Nat.ltb_lt in Hlt.
    apply selectionOk_snoc; try assumption.
    intros Hc. apply includes_true in Hc. congruence.
Qed.

Lemma App_executeMove_selected st m : App.selected (App.executeMove st m) = [].
Proof.
  unfold App.executeMove.
  destruct m as [dir cells|dir cells pushed pt trig]; [reflexivity|].
  destruct (App.resolvePush _ _ _ _) as [b s]. reflexivity.
Qed.

Lemma selectionOk_nil b p : selectionOk b p [].
Proof. split; [simpl; lia|]. split; [apply NoDup_nil_2 | constructor]. Qed.

(** X14. The selection of App.jsx stays well formed under every click: if
    the selection has at most three cells, no cell twice, and only cells that
    hold the player's own colour, the same is true after a click on any cell,
    whether the click selects, deselects, restarts the selection or applies a
    move (which empties the selection). *)
Theorem App_selection_invariant (st : App.State) (cell : Z) :
  selectionOk (App.board (App.gameState st)) (App.playerRole st) (App.selected st) ->
  selectionOk (App.board (App.gameState (App.onClick st cell)))
    (App.playerRole (App.onClick st cell)) (App.selected (App.onClick st cell)).
Proof.
  intros Hok. unfold App.onClick.
  destruct (App.moveMap st !! cell) as [mv|].
  - rewrite App_executeMove_selected. apply selectionOk_nil.
  - simpl. apply App_selectCell_ok, Hok.
Qed.

Lemma App_selection_invariant_witness :
  selectionOk
    (App.board (App.gameState (App.onClick (appState rowWithGap [51; 52]) 53)))
    (App.playerRole (App.onClick (appState rowWithGap [51; 52]) 53))
    (App.selected (App.onClick (appState rowWithGap [51; 52]) 53)).
Proof.
  apply App_selection_invariant.
  split; [simpl; lia|]. split.
  - apply NoDup_cons. split; [rewrite list_elem_of_singleton; lia | apply NoDup_singleton].
  - repeat constructor.
Defined.

Lemma Part000_handleCellClick_ok st cell :
  selectionOk (Part000.board st) (Part000.playerRole st) (Part000.selected st) /\
  StronglySorted Z.le (Part000.selected st) ->
  Part000.board (Part000.handleCellClick st cell) = Part000.board st /\
  Part000.playerRole (Part000.handleCellClick st cell) = Part000.playerRole st /\
  selectionOk (Part000.board st) (Part000.playerRole st)
    (Part000.selected (Part000.handleCellClick st cell)) /\
  StronglySorted Z.le (Part000.selected (Part000.handleCellClick st cell)).
Proof.
  intros [Hok Hsorted]. unfold Part000.handleCellClick.
  destruct (_ || _); [tauto|].
  destruct (includes (Part000.selected st) cell) eqn:Hin.
  { cbn [Part000.setSelected Part000.board Part000.playerRole Part000.selected].
    split; [reflexivity|]. split; [reflexivity|].
    split; [apply selectionOk_filter, Hok | apply filter_ne_sorted, Hsorted]. }
  destruct (bool_decide _) eqn:Hcol; [|tauto].
  apply bool_decide_eq_true in Hcol.
  destruct (length (Part000.selected st) =? 0)%nat.
  { cbn [Part000.setSelected Part000.board Part000.playerRole Part000.selected].
    split; [reflexivity|]. split; [reflexivity|].
    split; [apply selectionOk_single, Hcol|].
    constructor; constructor. }
  destruct (length (Part000.selected st) <? 3)%nat eqn:Hlt; [|tauto].
  apply Nat.ltb_lt in Hlt.
  destruct (Part000.isArithmeticSequence _); [|tauto].
  cbn [Part000.setSelected Part000.board Part000.playerRole Part000.selected].
  split; [reflexivity|]. split; [reflexivity|].
  split; [|apply sortAsc_strongly_sorted].
  eapply selectionOk_perm.
  - symmetry. unfold sortAsc. apply merge_sort_Permutation.
  - apply selectionOk_snoc; try assumption.
    intros Hc. apply includes_true in Hc. congruence.
Qed.

(** X15. The selection of part_000 stays well formed in every state reached
    by clicks on the rendered board: it has at most three cells, lists no cell
    twice, contains only cells that hold the player's own colour, and is kept
    in ascending order. *)
Theorem Part000_selection_invariant (st : Part000.State) :
  gameViewReachable st ->
  selectionOk (Part000.board st) (Part000.playerRole st) (Part000.selected st) /\
  StronglySorted Z.le (Part000.selected st).
Proof.
  induction 1 as [st Hsel|st st' Hreach IH Hstep].
  - rewrite Hsel. split; [apply selectionOk_nil | constructor].
  - destruct Hstep as [st cell Hs|st Hs].
    + unfold Part000.onClick. destruct (Part000.moveMap st !! cell) as [mv|].
      * rewrite Part000_makeMove_selected. split; [apply selectionOk_nil | constructor].
      * destruct (Part000_handleCellClick_ok st cell IH) as (Hb & Hp & Hok & Hso).
        rewrite Hb, Hp. split; assumption.
    + simpl. split; [apply selectionOk_nil | constructor].
Qed.

Lemma Part000_selection_invariant_witness :
  selectionOk rowWithGap black
    (Part000.selected
       (Part000.onClick (Part000.onClick (partState rowWithGap []) 52) 51)) /\
  StronglySorted Z.le
    (Part000.selected
       (Part000.onClick (Part000.onClick (partState rowWithGap []) 52) 51)).
Proof.
  apply (Part000_selection_invariant
           (Part000.onClick (Part000.onClick (partState rowWithGap []) 52) 51)).
  assert (H0 : gameViewReachable (partState rowWithGap []))
    by (apply reach_start; reflexivity).
  assert (H1 : gameViewReachable (Part000.onClick (partState rowWithGap []) 52)).
  { eapply reach_step; [exact H0 | apply step_click; reflexivity]. }
  eapply reach_step; [exact H1 | apply step_click; vm_compute; reflexivity].
Defined.

(** ** Selecting and deselecting *)

Lemma filter_ne_snoc (sel : list Z) (cell : Z) :
  cell ∉ sel -> filter (fun c => c <> cell) (sel ++ [cell]) = sel.
Proof.
  intros Hn. rewrite filter_app, (filter_ne_id sel cell Hn).
  rewrite filter_cons, decide_False by (intros H; apply H; reflexivity).
  rewrite filter_nil. apply app_nil_r.
Qed.

Lemma filter_ne_sorted_snoc (sel : list Z) (cell : Z) :
  cell ∉ sel -> StronglySorted Z.le sel ->
  filter (fun c => c <> cell) (sortAsc (sel ++ [cell])) = sel.
Proof.
  intros Hn Hs. apply (StronglySorted_unique Z.le).
  - apply filter_ne_sorted, sortAsc_strongly_sorted.
  - exact Hs.
  - unfold sortAsc. rewrite merge_sort_Permutation, filter_ne_snoc by exact Hn.
    reflexivity.
Qed.

Lemma Part000_guard_open st :
  Part000.winner st = None ->
  Part000.currentTurn st = Part000.playerRole st ->
  bool_decide (Part000.winner st <> None)
  || Part000.gameStarted st
     && negb (bool_decide (Part000.currentTurn st = Part000.playerRole st)) = false.
Proof.
  intros Hw Ht. rewrite bool_decide_eq_false_2 by congruence.
  rewrite (bool_decide_eq_true_2 _ Ht). destruct (Part000.gameStarted st); reflexivity.
Qed.

Lemma Part000_click_extends st cell :
  Part000.winner st = None ->
  Part000.currentTurn st = Part000.playerRole st ->
  cell ∉ Part000.selected st ->
  Part000.board st !! cell = Some (Part000.playerRole st) ->
  (length (Part000.selected st) < 3)%nat ->
  Part000.isArithmeticSequence (Part000.selected st ++ [cell]) = true ->
  Part000.handleCellClick st cell
  = Part000.setSelected st (sortAsc (Part000.selected st ++ [cell])).
Proof.
  intros Hw Ht Hn Hcol Hlen Hline. unfold Part000.handleCellClick.
  rewrite (Part000_guard_open st Hw Ht), (includes_false _ _ Hn).
  rewrite (bool_decide_eq_true_2 _ Hcol).
  destruct (Part000.selected st) as [|c0 sel0] eqn:E; [reflexivity|].
  cbn [length Nat.eqb] in Hlen |- *. rewrite (proj2 (Nat.ltb_lt _ _) Hlen).
  rewrite Part000_isArithmeticSequence_sorted, Hline. reflexivity.
Qed.

Lemma Part000_click_deselects st cell :
  Part000.winner st = None ->
  Part000.currentTurn st = Part000.playerRole st ->
  cell ∈ Part000.selected st ->
  Part000.handleCellClick st cell
  = Part000.setSelected st (filter (fun c => c <> cell) (Part000.selected st)).
Proof.
  intros Hw Ht Hin. unfold Part000.handleCellClick.
  rewrite (Part000_guard_open st Hw Ht), (proj2 (includes_true _ _) Hin). reflexivity.
Qed.

(** A button showing one of the player's own pieces triggers no move in
    App.jsx. *)
Lemma App_own_piece_no_button st k :
  App.board (App.gameState st) !! k = Some (App.playerRole st) ->
  App.moveMap st !! k = None.
Proof.
  intros Hown. destruct (App.moveMap st !! k) as [m|] eqn:E; [|reflexivity].
  apply App_moveMap_elem in E as [Hm Hk].
  destruct m as [dir cells|dir cells pushed pt trig]; simpl in Hk.
  - apply find_some in Hk as [Hin Hns].
    apply negb_true_iff in Hns. unfold includes in Hns.
    apply bool_decide_eq_false in Hns. apply list_elem_of_In in Hin.
    destruct (simpleFacts_targets _ _ _ _ k (App_moves_simple _ _ _ Hm) Hin) as [_ Hf].
    destruct Hf as [Hf|Hf]; [congruence | contradiction].
  - destruct (App_moves_push_shape _ _ _ _ _ _ Hm)
      as (_ & _ & _ & _ & _ & Hrun & Hlen & Hall & _).
    destruct (head_pushed_run _ _ _ Hrun (proj1 Hlen)) as (Hh & _ & Hin).
    rewrite Hh in Hk. injection Hk as <-.
    destruct (Hall _ Hin) as (_ & Hc & _). rewrite Hown in Hc.
    destruct (App.playerRole st); discriminate.
Qed.

(** In part_000 a button showing an own piece that is not selected triggers
    no move. *)
Lemma Part000_own_unselected_no_button st k :
  Part000.board st !! k = Some (Part000.playerRole st) ->
  k ∉ Part000.selected st ->
  Part000.moveMap st !! k = None.
Proof.
  intros Hown Hns. destruct (Part000.moveMap st !! k) as [m|] eqn:E; [|reflexivity].
  destruct (Part000_moveMap_sound _ _ _ E) as [_ Hk].
  destruct m as [dir cells|dir cells pushed pt trig].
  - destruct Hk as (_ & _ & Hk). congruence.
  - destruct Hk as [[_ Hk]|(_ & _ & Hk)]; [contradiction|].
    rewrite Hown in Hk. destruct (Part000.playerRole st); discriminate.
Qed.

(** X16. Selecting a cell and clicking it again.  In App.jsx, when a click
    on an own piece extends the selection, a second click on the same cell
    gives back the state as it was.  In part_000 (selection kept in ascending
    order, the player's own turn, no winner) the first click extends the
    selection, and the second click gives back the state as it was exactly
    when no possible push of the enlarged selection has the clicked cell as
    its trigger cell: the click handler of line 386 looks the cell up in
    [moveMap] first, so when there is such a push the second click applies a
    push and the state is not restored. *)
Theorem toggle_round_trip :
  (forall (st : App.State) (cell : Z),
      cell ∉ App.selected st ->
      App.board (App.gameState st) !! cell = Some (App.playerRole st) ->
      (length (App.selected st) < 3)%nat ->
      App.isArithmeticSequence (App.selected st ++ [cell]) = true ->
      App.selected (App.onClick st cell) = App.selected st ++ [cell] /\
      App.onClick (App.onClick st cell) cell = st) /\
  (forall (st : Part000.State) (cell : Z),
      Part000.winner st = None ->
      Part000.currentTurn st = Part000.playerRole st ->
      StronglySorted Z.le (Part000.selected st) ->
      cell ∉ Part000.selected st ->
      Part000.board st !! cell = Some (Part000.playerRole st) ->
      (length (Part000.selected st) < 3)%nat ->
      Part000.isArithmeticSequence (Part000.selected st ++ [cell]) = true ->
      let st1 := Part000.onClick st cell in
      Part000.selected st1 = sortAsc (Part000.selected st ++ [cell]) /\
      (Part000.onClick st1 cell = st <->
       forall dir cells pushed pushTo,
         PushMove dir cells pushed pushTo cell ∉ Part000.getPossibleMoves st1)).
Proof.
  split.
  - intros st cell Hn Hcol Hlen Hline.
    assert (H1 : App.selectCell st cell = App.selected st ++ [cell]).
    { unfold App.selectCell.
      rewrite (bool_decide_eq_true_2 _ Hcol), (includes_false _ _ Hn).
      rewrite (proj2 (Nat.ltb_lt _ _) Hlen), Hline. reflexivity. }
    assert (Hc1 : App.onClick st cell
                  = App.mkState (App.gameState st) (App.playerRole st)
                      (App.selected st ++ [cell])).
    { unfold App.onClick. rewrite (App_own_piece_no_button st cell Hcol), H1.
      reflexivity. }
    rewrite Hc1. split; [reflexivity|].
    unfold App.onClick. rewrite App_own_piece_no_button by exact Hcol.
    unfold App.selectCell.
    cbn [App.board App.gameState App.playerRole App.selected].
    rewrite (bool_decide_eq_true_2 _ Hcol).
    replace (includes (App.selected st ++ [cell]) cell) with true.
    2:{ symmetry. apply includes_true, elem_of_app. right. left. }
    rewrite (filter_ne_snoc _ _ Hn). destruct st; reflexivity.
  - intros st cell Hwin Hturn Hsorted Hn Hcol Hlen Hline. cbv zeta.
    assert (Hc1 : Part000.onClick st cell
                  = Part000.setSelected st (sortAsc (Part000.selected st ++ [cell]))).
    { unfold Part000.onClick.
      rewrite (Part000_own_unselected_no_button st cell Hcol Hn).
      apply Part000_click_extends; assumption. }
    rewrite Hc1. split; [reflexivity|].
    set (st1 := Part000.setSelected st (sortAsc (Part000.selected st ++ [cell]))).
    assert (Hin : cell ∈ Part000.selected st1).
    { apply elem_of_sortAsc, elem_of_app. right. left. }
    split.
    + intros Hback dir cells pushed pushTo Hm.
      assert (Hsome : is_Some (Part000.moveMap st1 !! cell)).
      { unfold Part000.moveMap. apply Part000_moveMap_keeps. right.
        exists dir, cells, pushed, pushTo. exact Hm. }
      destruct Hsome as [m' Hm']. unfold Part000.onClick in Hback.
      rewrite Hm' in Hback.
      apply (f_equal Part000.currentTurn) in Hback.
      rewrite Part000_makeMove_turn in Hback. cbn [Part000.currentTurn st1
        Part000.setSelected] in Hback.
      destruct (Part000.currentTurn st); discriminate.
    + intros Hnone.
      assert (Hmap : Part000.moveMap st1 !! cell = None).
      { destruct (Part000.moveMap st1 !! cell) as [m|] eqn:E; [|reflexivity].
        destruct (Part000_moveMap_sound _ _ _ E) as [Hm Hk].
        destruct m as [dir cells|dir cells pushed pt trig].
        - destruct Hk as (_ & Hns & _). contradiction.
        - destruct Hk as [[-> _]|(_ & Hns & _)]; [|contradiction].
          exfalso. exact (Hnone _ _ _ _ Hm). }
      unfold Part000.onClick. rewrite Hmap.
      rewrite Part000_click_deselects; [|exact Hwin | exact Hturn | exact Hin].
      cbn [Part000.selected Part000.setSelected st1].
      rewrite (filter_ne_sorted_snoc _ _ Hn Hsorted).
      destruct st; reflexivity.
Qed.

Lemma toggle_round_trip_witness :
  App.onClick (App.onClick (appState rowWithGap [51; 52]) 53) 53
  = appState rowWithGap [51; 52] /\
  Part000.onClick (Part000.onClick (partState rowWithGap [51; 53]) 52) 52
  = partState rowWithGap [51; 53] /\
  Part000.onClick (Part000.onClick (partState rowPushInside [51; 52]) 53) 53
  <> partState rowPushInside [51; 52].
Proof.
  split; [|split].
  - refine (proj2 (proj1 toggle_round_trip (appState rowWithGap [51; 52]) 53 _ _ _ _)).
    + apply (bool_decide_unpack _). vm_compute. exact I.
    + reflexivity.
    + simpl. lia.
    + reflexivity.
  - refine (proj2 (proj2 (proj2 toggle_round_trip (partState rowWithGap [51; 53]) 52
                            _ _ _ _ _ _ _)) _).
    + reflexivity.
    + reflexivity.
    + repeat constructor. lia.
    + apply (bool_decide_unpack _). vm_compute. exact I.
    + reflexivity.
    + simpl. lia.
    + reflexivity.
    + intros dir cells pushed pushTo H. vm_compute in H.
      repeat (apply elem_of_cons in H as [H|H]; [discriminate H|]).
      apply elem_of_nil in H. exact H.
  - intros Hback.
    refine (proj1 (proj2 (proj2 toggle_round_trip (partState rowPushInside [51; 52]) 53
                            _ _ _ _ _ _ _)) Hback 1 [52; 53; 54] [54; 55] (Some 56) _).
    + reflexivity.
    + reflexivity.
    + repeat constructor. lia.
    + apply (bool_decide_unpack _). vm_compute. exact I.
    + reflexivity.
    + simpl. lia.
    + reflexivity.
    + vm_compute. left.
Defined.

(** ** Applying a simple move *)

Lemma opponentOf_ne p : opponentOf p <> p.
Proof. destruct p; discriminate. Qed.

Lemma App_executeMove_simple_board st dir cells k :
  App.board (App.gameState (App.executeMove st (SimpleMove dir cells))) !! k
  = if bool_decide (k ∈ cells) then Some (App.playerRole st)
    else if bool_decide (k ∈ App.selected st) then None
    else App.board (App.gameState st) !! k.
Proof.
  unfold App.executeMove. cbn [App.board App.gameState m_cells].
  rewrite lookup_setAll, lookup_deleteAll. reflexivity.
Qed.

Lemma Part000_makeMove_simple_board st dir cells k :
  Part000.board (Part000.makeMove st (SimpleMove dir cells)) !! k
  = if bool_decide (k ∈ cells) then Some (Part000.playerRole st)
    else if bool_decide (k ∈ Part000.selected st) then None
    else Part000.board st !! k.
Proof.
  unfold Part000.makeMove. cbn [Part000.board m_cells].
  rewrite lookup_setAll, lookup_deleteAll. reflexivity.
Qed.

(** The effect of a simple move read off the cell-by-cell description of the
    new board. *)
Lemma simple_move_effect_of (b b' : gmap Z color) (p : color) (sel cells : list Z)
    (dir : Z) :
  (forall k, b' !! k = if bool_decide (k ∈ cells) then Some p
                       else if bool_decide (k ∈ sel) then None else b !! k) ->
  simpleFacts b sel dir cells ->
  Forall (fun c => b !! c = Some p) sel ->
  (forall k, k ∈ cells -> b' !! k = Some p) /\
  (forall k, k ∈ sel -> k ∉ cells -> b' !! k = None) /\
  (forall k, k ∉ cells -> k ∉ sel -> b' !! k = b !! k) /\
  (forall k, b' !! k = Some (opponentOf p) <-> b !! k = Some (opponentOf p)).
Proof.
  intros Hb' Hfacts Hown. rewrite Forall_forall in Hown.
  split; [|split; [|split]].
  - intros k Hk. rewrite Hb', bool_decide_eq_true_2 by exact Hk. reflexivity.
  - intros k Hs Hc. rewrite Hb', (bool_decide_eq_false_2 _ Hc).
    rewrite bool_decide_eq_true_2 by exact Hs. reflexivity.
  - intros k Hc Hs. rewrite Hb', (bool_decide_eq_false_2 _ Hc).
    rewrite (bool_decide_eq_false_2 _ Hs). reflexivity.
  - intros k. rewrite Hb'. pose proof (opponentOf_ne p) as Hne.
    destruct (bool_decide (k ∈ cells)) eqn:Ec.
    + apply bool_decide_eq_true in Ec.
      destruct (simpleFacts_targets _ _ _ _ k Hfacts Ec) as [_ [Hf|Hs]].
      * rewrite Hf. split; intros H; inversion H. congruence.
      * rewrite (Hown k Hs). split; intros H; inversion H; congruence.
    + destruct (bool_decide (k ∈ sel)) eqn:Es; [|reflexivity].
      apply bool_decide_eq_true in Es. rewrite (Hown k Es).
      split; intros H; inversion H. congruence.
Qed.

(** X17. Effect of a simple move returned by the enumeration, when the
    selected cells hold the mover's pieces: the scores are unchanged, every
    target cell holds the mover's colour, every vacated cell is empty, every
    other cell is as before, and the opponent's pieces are exactly where they
    were.  The same holds for [executeMove] (App.jsx) and [makeMove]
    (part_000). *)
Theorem simple_move_effect :
  (forall (st : App.State) dir cells,
      SimpleMove dir cells ∈ App.moves st ->
      Forall (fun c => App.board (App.gameState st) !! c = Some (App.playerRole st))
        (App.selected st) ->
      let b := App.board (App.gameState st) in
      let gs' := App.gameState (App.executeMove st (SimpleMove dir cells)) in
      App.scores gs' = App.scores (App.gameState st) /\
      (forall k, k ∈ cells -> App.board gs' !! k = Some (App.playerRole st)) /\
      (forall k, k ∈ App.selected st -> k ∉ cells -> App.board gs' !! k = None) /\
      (forall k, k ∉ cells -> k ∉ App.selected st -> App.board gs' !! k = b !! k) /\
      (forall k, App.board gs' !! k = Some (opponentOf (App.playerRole st)) <->
                 b !! k = Some (opponentOf (App.playerRole st)))) /\
  (forall (st : Part000.State) dir cells,
      SimpleMove dir cells ∈ Part000.getPossibleMoves st ->
      Forall (fun c => Part000.board st !! c = Some (Part000.playerRole st))
        (Part000.selected st) ->
      let b := Part000.board st in
      let st' := Part000.makeMove st (SimpleMove dir cells) in
      Part000.scores st' = Part000.scores st /\
      (forall k, k ∈ cells -> Part000.board st' !! k = Some (Part000.playerRole st)) /\
      (forall k, k ∈ Part000.selected st -> k ∉ cells ->
                 Part000.board st' !! k = None) /\
      (forall k, k ∉ cells -> k ∉ Part000.selected st ->
                 Part000.board st' !! k = b !! k) /\
      (forall k, Part000.board st' !! k = Some (opponentOf (Part000.playerRole st)) <->
                 b !! k = Some (opponentOf (Part000.playerRole st)))).
Proof.
  split; intros st dir cells Hm Hown; cbv zeta.
  - split; [reflexivity|].
    eapply simple_move_effect_of;
      [apply App_executeMove_simple_board | apply App_moves_simple, Hm | exact Hown].
  - split; [reflexivity|].
    eapply simple_move_effect_of;
      [apply Part000_makeMove_simple_board | apply Part000_moves_simple, Hm | exact Hown].
Qed.

Lemma simple_move_effect_witness :
  (forall k,
     App.board (App.gameState
       (App.executeMove (appState rowPushOut [55; 56]) (SimpleMove (-1) [54; 55]))) !! k
     = Some white <-> rowPushOut !! k = Some white) /\
  (forall k,
     Part000.board
       (Part000.makeMove (partState rowPushOut [55; 56]) (SimpleMove (-1) [54; 55])) !! k
     = Some white <-> rowPushOut !! k = Some white).
Proof.
  split.
  - refine (proj2 (proj2 (proj2 (proj2 (proj1 simple_move_effect
             (appState rowPushOut [55; 56]) (-1) [54; 55] _ _))))).
    + vm_compute. left.
    + repeat constructor.
  - refine (proj2 (proj2 (proj2 (proj2 (proj2 simple_move_effect
             (partState rowPushOut [55; 56]) (-1) [54; 55] _ _))))).
    + vm_compute. left.
    + repeat constructor.
Defined.

(** ** Scores *)

Lemma scoreAfter_bounds p dir pushed s :
  scoreOf (scoreAfter p dir pushed s) (opponentOf p) = scoreOf s (opponentOf p) /\
  scoreOf s p <= scoreOf (scoreAfter p dir pushed s) p
              <= scoreOf s p + Z.of_nat (length pushed).
Proof.
  destruct (scoreAfter_count p dir pushed s) as [Hp Ho].
  split; [exact Ho|]. rewrite Hp.
  pose proof (List.filter_length_le (fun c => negb (CELL_SET_has (c + dir))) pushed).
  lia.
Qed.

Lemma App_executeMove_scores st m :
  App.scores (App.gameState (App.executeMove st m))
  = scoreAfter (App.playerRole st) (m_dir m) (pushedOf m) (App.scores (App.gameState st)).
Proof.
  destruct m as [dir cells|dir cells pushed pt trig]; [reflexivity|].
  apply App_executeMove_push_scores.
Qed.

Lemma Part000_makeMove_scores st m :
  Part000.scores (Part000.makeMove st m)
  = scoreAfter (Part000.playerRole st) (m_dir m) (pushedOf m) (Part000.scores st).
Proof.
  destruct m as [dir cells|dir cells pushed pt trig]; [reflexivity|].
  apply Part000_makeMove_push_scores.
Qed.

Lemma enumerated_score_step b p sel s m :
  match m with
  | SimpleMove _ _ => True
  | PushMove dir cells pushed _ _ => pushFacts b p sel dir cells pushed
  end ->
  scoreOf (scoreAfter p (m_dir m) (pushedOf m) s) p <= scoreOf s p + 1.
Proof.
  destruct m as [dir cells|dir cells pushed pt trig]; simpl; intros H; [lia|].
  rewrite (pushFacts_scoreAfter _ _ _ _ _ _ s H).
  destruct (CELL_SET_has _); [lia|]. rewrite scoreOf_incrScore_same. lia.
Qed.

(** X18. Scores only grow, and only for the mover: whatever move is applied,
    the opponent's score is unchanged and the mover's score does not decrease
    and rises by at most the number of pushed cells; for a move returned by the
    enumeration it rises by at most one per move. *)
Theorem scores_only_grow :
  (forall (st : App.State) (m : Move),
      let s := App.scores (App.gameState st) in
      let s' := App.scores (App.gameState (App.executeMove st m)) in
      let p := App.playerRole st in
      scoreOf s' (opponentOf p) = scoreOf s (opponentOf p) /\
      scoreOf s p <= scoreOf s' p <= scoreOf s p + Z.of_nat (length (pushedOf m)) /\
      (m ∈ App.moves st -> scoreOf s' p <= scoreOf s p + 1)) /\
  (forall (st : Part000.State) (m : Move),
      let s := Part000.scores st in
      let s' := Part000.scores (Part000.makeMove st m) in
      let p := Part000.playerRole st in
      scoreOf s' (opponentOf p) = scoreOf s (opponentOf p) /\
      scoreOf s p <= scoreOf s' p <= scoreOf s p + Z.of_nat (length (pushedOf m)) /\
      (m ∈ Part000.getPossibleMoves st -> scoreOf s' p <= scoreOf s p + 1)).
Proof.
  split; intros st m; cbv zeta.
  - rewrite App_executeMove_scores.
    destruct (scoreAfter_bounds (App.playerRole st) (m_dir m) (pushedOf m)
                (App.scores (App.gameState st))) as [Ho Hp].
    split; [exact Ho|]. split; [exact Hp|]. intros Hm.
    eapply enumerated_score_step.
    destruct m as [dir cells|dir cells pushed pt trig]; [exact I|].
    apply App_moves_push in Hm. exact Hm.
  - rewrite Part000_makeMove_scores.
    destruct (scoreAfter_bounds (Part000.playerRole st) (m_dir m) (pushedOf m)
                (Part000.scores st)) as [Ho Hp].
    split; [exact Ho|]. split; [exact Hp|]. intros Hm.
    eapply enumerated_score_step.
    destruct m as [dir cells|dir cells pushed pt trig]; [exact I|].
    apply Part000_moves_push in Hm. exact Hm.
Qed.

Lemma scores_only_grow_witness :
  scoreOf (App.scores (App.gameState
     (App.executeMove (appState rowPushOut [55; 56; 57])
        (PushMove 1 [56; 57; 58] [58; 59] None 57)))) black
  <= scoreOf (App.scores (App.gameState (appState rowPushOut [55; 56; 57]))) black + 1.
Proof.
  refine (proj2 (proj2 (proj1 scores_only_grow (appState rowPushOut [55; 56; 57])
                          (PushMove 1 [56; 57; 58] [58; 59] None 57))) _).
  vm_compute. left.
Defined.

(** ** Push resolution by [makeMove] *)

(** X19. Push resolution by [makeMove] (part_000), for every push returned
    by [getPossibleMoves]: the first pass clears every pushed cell; after the
    move every pushed piece whose destination [c + dir] is a valid cell stands
    on that destination; the mover has gained exactly one point per pushed
    piece whose destination is off the board, and the opponent's score is
    unchanged. *)
Theorem makeMove_push_resolution (st : Part000.State) dir cells pushed pushTo trig :
  PushMove dir cells pushed pushTo trig ∈ Part000.getPossibleMoves st ->
  let player := Part000.playerRole st in
  let st' := Part000.makeMove st (PushMove dir cells pushed pushTo trig) in
  (forall c, c ∈ pushed ->
     Part000.clearPushed pushed (Part000.board st) !! c = None) /\
  (forall c, c ∈ pushed -> CELL_SET_has (c + dir) = true ->
     Part000.board st' !! (c + dir) = Some (opponentOf player)) /\
  scoreOf (Part000.scores st') player
  = scoreOf (Part000.scores st) player
    + Z.of_nat (length (List.filter (fun c => negb (CELL_SET_has (c + dir))) pushed)) /\
  scoreOf (Part000.scores st') (opponentOf player)
  = scoreOf (Part000.scores st) (opponentOf player).
Proof. apply Part000_push_resolution. Qed.

Lemma makeMove_push_resolution_witness :
  Part000.board
    (Part000.makeMove (partState rowPushInside [51; 52; 53])
       (PushMove 1 [52; 53; 54] [54; 55] (Some 56) 53)) !! (55 + 1)
  = Some white.
Proof.
  refine (proj1 (proj2 (makeMove_push_resolution
            (partState rowPushInside [51; 52; 53]) 1 [52; 53; 54] [54; 55]
            (Some 56) 53 _)) 55 _ _).
  - vm_compute. left.
  - apply (bool_decide_unpack _). vm_compute. exact I.
  - vm_compute. reflexivity.
Defined.

(** ** [makeMove] neither loses nor creates opponent pieces *)

Lemma runFrom_sorted_step a d n :
  (2 <= n)%nat -> StronglySorted Z.le (runFrom a d n) -> 0 <= d.
Proof.
  intros Hn Hs.
  assert (H : nth 0 (runFrom a d n) 0 <= nth 1 (runFrom a d n) 0).
  { apply sorted_head_min; [exact Hs|]. apply list_elem_of_In, nth_In.
    rewrite length_runFrom. lia. }
  rewrite !nth_runFrom in H by lia. lia.
Qed.

(** On a line selection moved along its own axis, every target cell is a
    selected cell or the cell right in front of the leading cell. *)
Lemma line_targets sel a d dir x :
  sortAsc sel = runFrom a d (length sel) ->
  (2 <= length sel)%nat -> dir <> 0 ->
  (dir = at_ (sortAsc sel) 1 - at_ (sortAsc sel) 0 \/
   dir = - (at_ (sortAsc sel) 1 - at_ (sortAsc sel) 0)) ->
  x ∈ map (fun c => c + dir) (sortAsc sel) ->
  x ∈ sel \/ x = frontOf (sortAsc sel) dir + dir.
Proof.
  intros Hline Hlen Hd Hax Hx.
  pose proof (sortAsc_strongly_sorted sel) as Hs. rewrite Hline in Hs.
  apply runFrom_sorted_step in Hs; [|exact Hlen].
  apply list_elem_of_In, in_map_iff in Hx as (c & <- & Hc).
  apply (proj2 (list_elem_of_In _ _)) in Hc.
  assert (Hsel : forall i, (i < length sel)%nat -> a + Z.of_nat i * d ∈ sel).
  { intros i Hi. apply elem_of_sortAsc. rewrite Hline. apply elem_of_runFrom.
    exists i. split; [exact Hi | reflexivity]. }
  unfold frontOf, at_ in *. rewrite length_sortAsc. rewrite Hline in *.
  apply elem_of_runFrom in Hc as (i & Hi & ->).
  rewrite !nth_runFrom in Hax by lia. rewrite !nth_runFrom by lia.
  destruct Hax as [Hax|Hax].
  - rewrite (proj2 (Z.ltb_lt 0 dir)) by lia.
    destruct (decide (i = (length sel - 1)%nat)) as [->|Hne]; [right; reflexivity|].
    left. replace (a + Z.of_nat i * d + dir) with (a + Z.of_nat (S i) * d) by lia.
    apply Hsel. lia.
  - rewrite (proj2 (Z.ltb_ge 0 dir)) by lia.
    destruct i as [|i]; [right; lia|].
    left. replace (a + Z.of_nat (S i) * d + dir) with (a + Z.of_nat i * d) by lia.
    apply Hsel. lia.
Qed.

(** X20. [makeMove] (part_000) neither loses nor creates opponent pieces
    when it applies a push returned by [getPossibleMoves] to a line selection
    of the mover's own pieces.  Every opponent piece of the old board is either
    ejected (a pushed piece whose destination is off the board) or stands
    afterwards on its relocated cell ([c + dir] if it was pushed, its own cell
    otherwise); every opponent piece of the new board is the relocation of an
    opponent piece of the old board; and two surviving pieces never land on
    the same cell. *)
Theorem makeMove_keeps_opponent_pieces (st : Part000.State) dir cells pushed pushTo trig
    (a d : Z) :
  PushMove dir cells pushed pushTo trig ∈ Part000.getPossibleMoves st ->
  Forall (fun c => Part000.board st !! c = Some (Part000.playerRole st))
    (Part000.selected st) ->
  sortAsc (Part000.selected st) = runFrom a d (length (Part000.selected st)) ->
  let b := Part000.board st in
  let b' := Part000.board (Part000.makeMove st (PushMove dir cells pushed pushTo trig)) in
  let opp := opponentOf (Part000.playerRole st) in
  (forall k, b !! k = Some opp ->
     (k ∈ pushed /\ CELL_SET_has (k + dir) = false) \/
     b' !! relocated dir pushed k = Some opp) /\
  (forall k', b' !! k' = Some opp ->
     exists k, b !! k = Some opp /\ relocated dir pushed k = k') /\
  (forall k1 k2, b !! k1 = Some opp -> b !! k2 = Some opp ->
     ~ (k1 ∈ pushed /\ CELL_SET_has (k1 + dir) = false) ->
     ~ (k2 ∈ pushed /\ CELL_SET_has (k2 + dir) = false) ->
     relocated dir pushed k1 = relocated dir pushed k2 -> k1 = k2).
Proof.
  intros Hm Hown Hline. cbv zeta.
  pose proof (Part000_moves_push _ _ _ _ _ _ Hm) as Hfacts.
  destruct (Part000_moves_push_shape _ _ _ _ _ _ Hm)
    as (Hax & Ht & Htsel & _ & Hcells & Hrun & Hlen & Hall & Hfar).
  assert (Hdir : dir <> 0) by (destruct Hfacts as [Hd _]; apply directions_nonzero, Hd).
  rewrite Forall_forall in Hown.
  pose proof (opponentOf_ne (Part000.playerRole st)) as Hne.
  assert (Hnotsel : forall k,
    Part000.board st !! k = Some (opponentOf (Part000.playerRole st)) ->
    k ∉ Part000.selected st).
  { intros k Hk Hs. rewrite (Hown k Hs) in Hk. congruence. }
  destruct (head_pushed_run _ _ _ Hrun (proj1 Hlen)) as (_ & _ & Hfront).
  assert (Hcellsin : forall k, k ∈ cells -> k ∈ Part000.selected st \/ k ∈ pushed).
  { intros k Hk. rewrite Hcells in Hk.
    destruct (line_targets _ a d dir k Hline ltac:(lia) Hdir Hax Hk) as [H|H];
      [left; exact H|]. right. rewrite H, <- Ht. exact Hfront. }
  assert (Hnext : forall k, k ∈ pushed -> CELL_SET_has (k + dir) = true ->
    k + dir ∈ pushed \/
    (k + dir = farCell dir pushed /\ Part000.board st !! (k + dir) = None)).
  { intros k Hk Hv. rewrite Hrun in Hk. apply elem_of_runFrom in Hk as (i & Hi & ->).
    destruct (decide (S i < length pushed)%nat) as [Hlt|Hge].
    - left. rewrite Hrun. apply elem_of_runFrom. exists (S i). split; [exact Hlt | lia].
    - right.
      assert (Hf : trig + dir + Z.of_nat i * dir + dir = farCell dir pushed).
      { rewrite Hrun. destruct (length pushed) as [|n] eqn:En; [lia|].
        rewrite farCell_runFrom. assert (i = n) by lia. subst i. lia. }
      split; [exact Hf|]. rewrite Hf in Hv |- *.
      destruct Hfar as [Hfar|Hfar]; [|exact Hfar].
      exfalso. apply Hfar, CELL_SET_has_true, Hv. }
  split; [|split].
  - intros k Hk. unfold relocated.
    destruct (bool_decide (k ∈ pushed)) eqn:Ep.
    + apply bool_decide_eq_true in Ep.
      destruct (CELL_SET_has (k + dir)) eqn:Hv; [right | left; split; [exact Ep | reflexivity]].
      apply (proj1 (proj2 (Part000_push_resolution _ _ _ _ _ _ Hm))); assumption.
    + apply bool_decide_eq_false in Ep. right.
      rewrite Part000_makeMove_push_board.
      rewrite bool_decide_eq_false_2
        by (intros Hc; destruct (Hcellsin k Hc); [apply (Hnotsel k Hk)|]; auto).
      rewrite (bool_decide_eq_false_2 _ (Hnotsel k Hk)).
      destruct (bool_decide (k ∈ validDests dir pushed)); [reflexivity|].
      rewrite (bool_decide_eq_false_2 _ Ep). exact Hk.
  - intros k' Hk'. rewrite Part000_makeMove_push_board in Hk'.
    destruct (bool_decide (k' ∈ cells)); [inversion Hk'; congruence|].
    destruct (bool_decide (k' ∈ Part000.selected st)); [discriminate|].
    destruct (bool_decide (k' ∈ validDests dir pushed)) eqn:Ev.
    + apply bool_decide_eq_true, elem_of_validDests in Ev as (_ & c & Hc & ->).
      exists c. split; [apply (Hall c Hc)|]. unfold relocated.
      rewrite bool_decide_eq_true_2 by exact Hc. reflexivity.
    + destruct (bool_decide (k' ∈ pushed)) eqn:Ep; [discriminate|].
      exists k'. split; [exact Hk'|]. unfold relocated. rewrite Ep. reflexivity.
  - intros k1 k2 H1 H2 Hs1 Hs2. unfold relocated.
    destruct (bool_decide (k1 ∈ pushed)) eqn:E1;
      destruct (bool_decide (k2 ∈ pushed)) eqn:E2; try lia.
    + apply bool_decide_eq_true in E1. apply bool_decide_eq_false in E2. intros <-.
      destruct (CELL_SET_has (k1 + dir)) eqn:Hv; [|exfalso; apply Hs1; auto].
      destruct (Hnext k1 E1 Hv) as [Hin|[_ Hnone]]; [contradiction | congruence].
    + apply bool_decide_eq_false in E1. apply bool_decide_eq_true in E2. intros ->.
      destruct (CELL_SET_has (k2 + dir)) eqn:Hv; [|exfalso; apply Hs2; auto].
      destruct (Hnext k2 E2 Hv) as [Hin|[_ Hnone]]; [contradiction | congruence].
Qed.

Lemma makeMove_keeps_opponent_pieces_witness :
  (55 ∈ [54; 55] /\ CELL_SET_has (55 + 1) = false) \/
  Part000.board
    (Part000.makeMove (partState rowPushInside [51; 52; 53])
       (PushMove 1 [52; 53; 54] [54; 55] (Some 56) 53))
    !! relocated 1 [54; 55] 55 = Some white.
Proof.
  refine (proj1 (makeMove_keeps_opponent_pieces
            (partState rowPushInside [51; 52; 53]) 1 [52; 53; 54] [54; 55] (Some 56) 53
            51 1 _ _ _) 55 _).
  - vm_compute. left.
  - repeat constructor.
  - reflexivity.
  - vm_compute. reflexivity.
Defined.

(** ** The two versions compared *)

(** X21. [executeMove] (App.jsx) and [makeMove] (part_000) agree on every
    simple move and on every push of at most one piece: from the same board,
    scores, selection and player they produce the same board, the same scores
    and the same winner, and both empty the selection.  (They differ on pushes
    of two pieces.) *)
Theorem application_versions_agree (st : App.State) (gameStarted : bool) (m : Move) :
  (length (pushedOf m) <= 1)%nat ->
  let st' := App.executeMove st m in
  let pst' := Part000.makeMove (partOfApp st gameStarted) m in
  Part000.board pst' = App.board (App.gameState st') /\
  Part000.scores pst' = App.scores (App.gameState st') /\
  Part000.winner pst' = App.winner (App.gameState st') /\
  Part000.selected pst' = App.selected st'.
Proof.
  intros Hlen. cbv zeta.
  destruct m as [dir cells|dir cells pushed pt trig]; [repeat split|].
  simpl in Hlen. destruct pushed as [|c [|c' pushed]]; [| |simpl in Hlen; lia].
  - repeat split.
  - unfold App.executeMove, Part000.makeMove, partOfApp, App.resolvePush,
      Part000.relocatePushed, Part000.clearPushed, deleteAll.
    cbn [foldl Part000.board Part000.scores Part000.playerRole Part000.selected
         Part000.currentTurn Part000.gameStarted].
    destruct (CELL_SET_has (c + dir)); repeat split.
Qed.

Lemma application_versions_agree_witness :
  Part000.board
    (Part000.makeMove (partOfApp (appState rowPushOut [56; 57]) true)
       (PushMove 1 [57; 58] [58] None 57))
  = App.board (App.gameState
      (App.executeMove (appState rowPushOut [56; 57]) (PushMove 1 [57; 58] [58] None 57))).
Proof.
  refine (proj1 (application_versions_agree (appState rowPushOut [56; 57]) true
                   (PushMove 1 [57; 58] [58] None 57) _)).
  simpl. lia.
Defined.

Lemma moveInDir_versions (st : App.State) (gameStarted : bool) (dir : Z) :
  dir <> 0 ->
  option_map erasePushTo
    (Part000.moveInDir (partOfApp st gameStarted) (sortAsc (App.selected st)) dir)
  = App.moveInDir st (sortAsc (App.selected st)) dir.
Proof.
  intros Hd. unfold Part000.moveInDir, App.moveInDir, partOfApp.
  cbn [Part000.board Part000.selected Part000.playerRole].
  destruct (negb (forallb CELL_SET_has _)); [reflexivity|].
  destruct (forallb (fun c => isFree _ c || includes _ c) _); [reflexivity|].
  rewrite length_sortAsc.
  destruct (1 <? length (App.selected st))%nat; [|reflexivity].
  set (diff := at_ (sortAsc (App.selected st)) 1 - at_ (sortAsc (App.selected st)) 0).
  destruct (diff =? 0) eqn:Hz.
  { apply Z.eqb_eq in Hz. cbn [negb andb].
    rewrite (proj2 (Z.eqb_neq dir diff)) by lia.
    rewrite (proj2 (Z.eqb_neq dir (- diff))) by lia. reflexivity. }
  cbn [negb andb].
  destruct ((dir =? diff) || (dir =? - diff)); [|reflexivity].
  destruct (pushWalk _ _ _ _ _ _) as [pushed cur].
  destruct ((0 <? length pushed)%nat && (length pushed <? length (App.selected st))%nat);
    [|reflexivity].
  cbn [andb]. destruct (negb (CELL_SET_has cur) || isFree _ cur); reflexivity.
Qed.

Lemma map_foldl_recordMove (g : Move -> Move) (f1 f2 : Z -> option Move) (l : list Z) :
  (forall d, d ∈ l -> option_map g (f1 d) = f2 d) ->
  forall acc,
    map g (foldl (fun a d => recordMove a (f1 d)) acc l)
    = foldl (fun a d => recordMove a (f2 d)) (map g acc) l.
Proof.
  induction l as [|d l IH]; intros Hf acc; simpl; [reflexivity|].
  rewrite IH by (intros d' Hd'; apply Hf; right; exact Hd').
  f_equal. rewrite <- (Hf d) by left.
  destruct (f1 d); simpl; [rewrite map_app|]; reflexivity.
Qed.

(** X22. The two enumerations agree: on the player's own turn, [moves] of
    App.jsx returns, in the same order, the moves that [getPossibleMoves] of
    part_000 returns for the same board, selection and player, apart from the
    [pushTo] property that only part_000 records. *)
Theorem enumeration_versions_agree (st : App.State) (gameStarted : bool) :
  App.currentTurn (App.gameState st) = App.playerRole st ->
  map erasePushTo (Part000.getPossibleMoves (partOfApp st gameStarted)) = App.moves st.
Proof.
  intros Hturn. unfold Part000.getPossibleMoves, App.moves.
  rewrite (bool_decide_eq_true_2 _ Hturn). cbn [negb]. rewrite orb_false_r.
  change (Part000.selected (partOfApp st gameStarted)) with (App.selected st).
  destruct (length (App.selected st) =? 0)%nat; [reflexivity|].
  rewrite (map_foldl_recordMove erasePushTo _
             (App.moveInDir st (sortAsc (App.selected st)))); [reflexivity|].
  intros d Hd. apply moveInDir_versions, directions_nonzero, Hd.
Qed.

Lemma enumeration_versions_agree_witness :
  map erasePushTo
    (Part000.getPossibleMoves (partOfApp (appState rowPushInside [51; 52; 53]) true))
  = App.moves (appState rowPushInside [51; 52; 53]).
Proof.
  apply enumeration_versions_agree. reflexivity.
Defined.

(** ** Highlights drawn on the board *)

Lemma ghost_cells_fold (sel : list Z) (p : color) (cells : list Z) :
  forall (ghosts : gmap Z color) k col,
  foldl (fun ghosts cell =>
           if negb (includes sel cell) then <[cell := p]> ghosts else ghosts)
    ghosts cells !! k = Some col ->
  ghosts !! k = Some col \/ (col = p /\ k ∈ cells /\ k ∉ sel).
Proof.
  induction cells as [|c cells IH]; intros ghosts k col H; simpl in H; [left; exact H|].
  apply IH in H as [H|(H1 & H2 & H3)]; [|right; repeat split; [|right|]; assumption].
  destruct (includes sel c) eqn:Hi; cbn [negb] in H; [left; exact H|].
  destruct (decide (c = k)) as [->|Hne].
  - rewrite lookup_insert_eq in H. inversion H; subst. right.
    repeat split; [left|]. intros Hk. apply includes_true in Hk. congruence.
  - rewrite lookup_insert_ne in H by exact Hne. left. exact H.
Qed.

Lemma ghost_moves_fold (sel : list Z) (p : color) (l : list Move) :
  forall (ghosts : gmap Z color) k col,
  foldl (fun ghosts m =>
           match m with
           | SimpleMove _ cells =>
               foldl (fun ghosts cell =>
                        if negb (includes sel cell) then <[cell := p]> ghosts else ghosts)
                 ghosts cells
           | PushMove _ _ _ _ _ => ghosts
           end) ghosts l !! k = Some col ->
  ghosts !! k = Some col \/
  (col = p /\ (k ∉ sel) /\ exists dir cells, SimpleMove dir cells ∈ l /\ k ∈ cells).
Proof.
  induction l as [|m l IH]; intros ghosts k col H; simpl in H; [left; exact H|].
  apply IH in H as [H|(H1 & H2 & dir & cells & H3 & H4)].
  - destruct m as [dir cells|dir cells pushed pt trig]; [|left; exact H].
    apply ghost_cells_fold in H as [H|(H1 & H2 & H3)]; [left; exact H|].
    right. repeat split; try assumption. exists dir, cells. split; [left | exact H2].
  - right. repeat split; try assumption. exists dir, cells. split; [right|]; assumption.
Qed.

Lemma pushable_cells_fold (pushed : list Z) : forall (enemies : gset Z) k,
  k ∈ foldl (fun enemies c => {[c]} ∪ enemies) enemies pushed <->
  k ∈ enemies \/ k ∈ pushed.
Proof.
  induction pushed as [|c pushed IH]; intros enemies k; simpl.
  - rewrite elem_of_nil. tauto.
  - rewrite IH, elem_of_union, elem_of_singleton, elem_of_cons. tauto.
Qed.

Lemma pushable_moves_fold (l : list Move) : forall (enemies : gset Z) k,
  k ∈ foldl (fun enemies m =>
           match m with
           | PushMove _ _ pushed _ _ =>
               foldl (fun enemies c => {[c]} ∪ enemies) enemies pushed
           | SimpleMove _ _ => enemies
           end) enemies l <->
  k ∈ enemies \/
  exists dir cells pushed pt trig, PushMove dir cells pushed pt trig ∈ l /\ k ∈ pushed.
Proof.
  induction l as [|m l IH]; intros enemies k; simpl.
  - split; [left; assumption|]. intros [H|(d & c & p & pt & t & H & _)]; [exact H|].
    inversion H.
  - rewrite IH. split.
    + intros [H|(d & c & p & pt & t & H & Hk)].
      * destruct m as [dir cells|dir cells pushed pt trig]; [left; exact H|].
        apply pushable_cells_fold in H as [H|H]; [left; exact H|].
        right. exists dir, cells, pushed, pt, trig. split; [left | exact H].
      * right. exists d, c, p, pt, t. split; [right|]; assumption.
    + intros [H|(d & c & p & pt & t & H & Hk)].
      * left. destruct m as [dir cells|dir cells pushed pt trig]; [exact H|].
        apply pushable_cells_fold. left. exact H.
      * apply elem_of_cons in H as [<-|H].
        -- left. apply pushable_cells_fold. right. exact Hk.
        -- right. exists d, c, p, pt, t. split; assumption.
Qed.

(** X23. The highlights of part_000 are sound and complete for the possible
    moves.  A cell is marked as a pushable enemy exactly when it is a pushed
    cell of some possible push, and then it is a valid cell holding an
    opponent piece.  A ghost is only ever recorded in the player's own colour,
    on a valid, free, unselected cell that is a target of a possible simple
    move. *)
Theorem highlights_sound (st : Part000.State) (k : Z) :
  (k ∈ pushableEnemies st <->
   exists dir cells pushed pt trig,
     PushMove dir cells pushed pt trig ∈ Part000.getPossibleMoves st /\ k ∈ pushed) /\
  (k ∈ pushableEnemies st ->
   k ∈ CELLS /\
   Part000.board st !! k = Some (opponentOf (Part000.playerRole st))) /\
  (forall col, ghostPositions st !! k = Some col ->
     col = Part000.playerRole st /\ k ∈ CELLS /\ (k ∉ Part000.selected st) /\
     Part000.board st !! k = None /\
     exists dir cells, SimpleMove dir cells ∈ Part000.getPossibleMoves st /\ k ∈ cells).
Proof.
  assert (Hiff : k ∈ pushableEnemies st <->
    exists dir cells pushed pt trig,
      PushMove dir cells pushed pt trig ∈ Part000.getPossibleMoves st /\ k ∈ pushed).
  { unfold pushableEnemies. rewrite pushable_moves_fold. split.
    - intros [H|H]; [|exact H]. apply not_elem_of_empty in H. contradiction.
    - intros H. right. exact H. }
  split; [exact Hiff|]. split.
  - intros H. apply Hiff in H as (dir & cells & pushed & pt & trig & Hm & Hk).
    destruct (Part000_moves_push_shape _ _ _ _ _ _ Hm)
      as (_ & _ & _ & _ & _ & _ & _ & Hall & _).
    destruct (Hall k Hk) as (Hv & Hc & _). split; assumption.
  - intros col H. unfold ghostPositions in H.
    apply ghost_moves_fold in H as [H|(-> & Hns & dir & cells & Hm & Hk)];
      [rewrite lookup_empty in H; discriminate|].
    destruct (simpleFacts_targets _ _ _ _ k (Part000_moves_simple _ _ _ Hm) Hk)
      as [Hv Hf].
    split; [reflexivity|]. split; [exact Hv|]. split; [exact Hns|].
    split; [destruct Hf; [assumption | contradiction]|].
    exists dir, cells. split; assumption.
Qed.

Lemma highlights_sound_witness :
  54 ∈ CELLS /\
  Part000.board (partState rowPushInside [51; 52; 53]) !! 54
  = Some (opponentOf (Part000.playerRole (partState rowPushInside [51; 52; 53]))).
Proof.
  apply (proj1 (proj2 (highlights_sound (partState rowPushInside [51; 52; 53]) 54))).
  apply (bool_decide_unpack _). vm_compute. exact I.
Defined.

(** ** The lobby of part_000 *)

(** X24. Role assignment by [startGame] (part_000).  Without a game id
    nothing changes.  A role once assigned is kept by every later call.  A
    client without a role gets black if black is free, else white if white is
    free, and when both seats are taken the state is left unchanged.  After a
    successful call the player's own seat is marked as joined, no seat is ever
    unmarked, and the game counts as started exactly when both seats are
    marked. *)
Theorem startGame_roles (st : Lobby.State) :
  (Lobby.gameId st = None -> Lobby.startGame st = st) /\
  (forall r, Lobby.playerRole st = Some r ->
     Lobby.playerRole (Lobby.startGame st) = Some r) /\
  (Lobby.gameId st <> None -> Lobby.playerRole st = None ->
     if negb (Lobby.black_joined (Lobby.players st))
     then Lobby.playerRole (Lobby.startGame st) = Some black
     else if negb (Lobby.white_joined (Lobby.players st))
     then Lobby.playerRole (Lobby.startGame st) = Some white
     else Lobby.startGame st = st) /\
  (forall r, Lobby.joined (Lobby.players st) r = true ->
     Lobby.joined (Lobby.players (Lobby.startGame st)) r = true) /\
  (Lobby.startGame st <> st ->
   (exists r, Lobby.playerRole (Lobby.startGame st) = Some r /\
              Lobby.joined (Lobby.players (Lobby.startGame st)) r = true) /\
   Lobby.gameStarted (Lobby.startGame st)
   = Lobby.white_joined (Lobby.players (Lobby.startGame st))
     && Lobby.black_joined (Lobby.players (Lobby.startGame st))).
Proof.
  split; [|split; [|split; [|split]]].
  - destruct st as [[g|] [[|]|] [[|] [|]] bd started]; unfold Lobby.startGame; simpl;
      intros H; try discriminate; reflexivity.
  - destruct st as [[g|] [[|]|] [[|] [|]] bd started]; unfold Lobby.startGame; simpl;
      intros r H; try discriminate; exact H.
  - destruct st as [[g|] [[|]|] [[|] [|]] bd started]; unfold Lobby.startGame; simpl;
      intros Hg Hr; try discriminate; try reflexivity; exfalso; apply Hg; reflexivity.
  - destruct st as [[g|] [[|]|] [[|] [|]] bd started]; unfold Lobby.startGame; simpl;
      intros [|] H; simpl in *; try assumption; reflexivity.
  - destruct st as [[g|] [[|]|] [[|] [|]] bd started]; unfold Lobby.startGame; simpl;
      intros H; try (exfalso; apply H; reflexivity);
      (split; [eexists; split; reflexivity | reflexivity]).
Qed.

Lemma startGame_roles_witness :
  Lobby.playerRole
    (Lobby.startGame
       (Lobby.mkState (Some "k3x9a1bq"%string) (Some white)
          (Lobby.mkPlayers false true) ∅ false)) = Some white.
Proof.
  apply (proj1 (proj2 (startGame_roles _))). reflexivity.
Defined.

Lemma startGame_keeps_alone (st : Lobby.State) :
  Lobby.playerRole st <> Some white ->
  (Lobby.playerRole st = None -> Lobby.black_joined (Lobby.players st) = false) ->
  Lobby.white_joined (Lobby.players st) = false ->
  Lobby.gameStarted st = false ->
  Lobby.playerRole (Lobby.startGame st) <> Some white /\
  (Lobby.playerRole (Lobby.startGame st) = None ->
   Lobby.black_joined (Lobby.players (Lobby.startGame st)) = false) /\
  Lobby.white_joined (Lobby.players (Lobby.startGame st)) = false /\
  Lobby.gameStarted (Lobby.startGame st) = false.
Proof.
  destruct st as [[g|] [[|]|] [[|] [|]] bd started]; unfold Lobby.startGame; simpl;
    intros Hr Hb Hw Hs; try discriminate; try (exfalso; apply Hr; reflexivity);
    try (specialize (Hb eq_refl); discriminate);
    repeat split; try assumption; try reflexivity; discriminate.
Qed.

(** X25. In the version of part_000 that keeps its state in the component
    (lines 110-163), one client can never start the game alone: starting
    with no role or the black role, with white's seat free, black's seat free
    unless it is the client's own, and the game not started, no number of
    calls of [startGame] makes [gameStarted] true, because the client keeps
    its first role and only ever marks its own seat. *)
Theorem lone_client_never_starts (st : Lobby.State) (n : nat) :
  Lobby.playerRole st <> Some white ->
  (Lobby.playerRole st = None -> Lobby.black_joined (Lobby.players st) = false) ->
  Lobby.white_joined (Lobby.players st) = false ->
  Lobby.gameStarted st = false ->
  Lobby.gameStarted (Nat.iter n Lobby.startGame st) = false /\
  Lobby.playerRole (Nat.iter n Lobby.startGame st) <> Some white.
Proof.
  intros Hr Hb Hw Hs.
  assert (H : Lobby.playerRole (Nat.iter n Lobby.startGame st) <> Some white /\
              (Lobby.playerRole (Nat.iter n Lobby.startGame st) = None ->
               Lobby.black_joined (Lobby.players (Nat.iter n Lobby.startGame st)) = false) /\
              Lobby.white_joined (Lobby.players (Nat.iter n Lobby.startGame st)) = false /\
              Lobby.gameStarted (Nat.iter n Lobby.startGame st) = false).
  { induction n as [|n IH]; simpl; [auto|].
    destruct IH as (H1 & H2 & H3 & H4). apply startGame_keeps_alone; assumption. }
  tauto.
Qed.

Lemma lone_client_never_starts_witness :
  Lobby.gameStarted
    (Nat.iter 5 Lobby.startGame
       (Lobby.mkState (Some "k3x9a1bq"%string) None (Lobby.mkPlayers false false) ∅ false))
  = false.
Proof.
  refine (proj1 (lone_client_never_starts _ 5 _ _ _ _)); [discriminate | reflexivity..].
Defined.

Lemma initialBoard_size : size initialBoard = 28%nat.
Proof. vm_compute. reflexivity. Qed.

(** X26. What [startGame] (part_000, lines 152-160) does to the board: when
    a call succeeds, an empty board is replaced by the initial position of 28
    pieces, and a board that already has pieces is replaced by the empty
    board.  So for a client with a game id whose first call succeeds, the
    first call sets up the initial position and the second call removes every
    piece again. *)
Theorem startGame_board (st : Lobby.State) :
  Lobby.startGame st <> st ->
  Lobby.board (Lobby.startGame st)
  = (if (size (Lobby.board st) =? 0)%nat then initialBoard else ∅) /\
  (Lobby.board st = ∅ ->
   Lobby.board (Lobby.startGame st) = initialBoard /\
   Lobby.board (Lobby.startGame (Lobby.startGame st)) = ∅).
Proof.
  intros Hchg.
  assert (H1 : exists g r, Lobby.gameId (Lobby.startGame st) = Some g /\
                           Lobby.playerRole (Lobby.startGame st) = Some r /\
                           Lobby.board (Lobby.startGame st)
                           = if (size (Lobby.board st) =? 0)%nat then initialBoard else ∅).
  { destruct st as [[g|] [[|]|] [[|] [|]] bd started];
      unfold Lobby.startGame in *; simpl in *;
      try (exfalso; apply Hchg; reflexivity);
      eexists; eexists; repeat split; reflexivity. }
  destruct H1 as (g & r & Hg & Hr & Hb).
  split; [exact Hb|]. intros Hempty.
  rewrite Hempty, map_size_empty in Hb. simpl in Hb. split; [exact Hb|].
  unfold Lobby.startGame at 1. rewrite Hg, Hr, Hb, initialBoard_size. reflexivity.
Qed.

Lemma startGame_board_witness :
  Lobby.board
    (Lobby.startGame
       (Lobby.mkState (Some "k3x9a1bq"%string) None (Lobby.mkPlayers false false) ∅ false))
  = initialBoard /\
  Lobby.board
    (Lobby.startGame (Lobby.startGame
       (Lobby.mkState (Some "k3x9a1bq"%string) None (Lobby.mkPlayers false false) ∅ false)))
  = ∅.
Proof.
  refine (proj2 (startGame_board _ _) _); [|reflexivity].
  intros H. apply (f_equal Lobby.playerRole) in H. vm_compute in H. discriminate.
Defined.

(** ** Boards reached from the initial position *)

Lemma boardValid_empty : boardValid ∅.
Proof. intros c [x Hx]. rewrite lookup_empty in Hx. discriminate. Qed.

Lemma initialBoard_valid : boardValid initialBoard.
Proof.
  unfold initialBoard.
  apply boardValid_setAll; [vm_compute; reflexivity|].
  apply boardValid_setAll; [vm_compute; reflexivity|].
  apply boardValid_empty.
Qed.

(** X27. Every board reached in part_000 from the initial position by
    applying possible moves, with any selections made in between, has only
    valid cells as keys. *)
Theorem played_boards_valid (st : Part000.State) :
  played st -> boardValid (Part000.board st).
Proof.
  induction 1 as [st Hb|st sel _ IH|st m _ IH Hm].
  - rewrite Hb. apply initialBoard_valid.
  - exact IH.
  - apply Part000_makeMove_valid; [exact (Part000_moves_cells_valid _ _ Hm) | exact IH].
Qed.

Lemma played_boards_valid_witness :
  boardValid
    (Part000.board
       (Part000.makeMove (partState initialBoard [73])
          (SimpleMove (-9) [64]))).
Proof.
  apply played_boards_valid.
  apply (played_move (partState initialBoard [73]) (SimpleMove (-9) [64])).
  - apply (played_select (partState initialBoard []) [73]).
    apply played_start. reflexivity.
  - vm_compute. right. left.
Defined.

(** ** The board with offsets 1, 9 and 11 *)

Lemma Offsets11_counts : forallb Offsets11.countOk Offsets11.CELLS = true.
Proof. vm_compute. reflexivity. Qed.

(** X28. In the version of part_000 whose directions are 1, 9 and 11 (lines
    1017-1049) the board also has 61 cells, and every cell has between 2 and 6
    neighbours under [getNeighbors]; exactly two cells, 11 and 91, have only
    two. *)
Theorem Offsets11_neighbor_counts :
  length Offsets11.CELLS = 61%nat /\
  forall c, c ∈ Offsets11.CELLS ->
    (2 <= length (Offsets11.getNeighbors c) <= 6)%nat /\
    (length (Offsets11.getNeighbors c) = 2%nat <-> c = 11 \/ c = 91).
Proof.
  split; [reflexivity|]. intros c Hc.
  pose proof Offsets11_counts as H. rewrite forallb_forall in H.
  specialize (H c (proj1 (list_elem_of_In _ _) Hc)). unfold Offsets11.countOk in H.
  apply andb_true_iff in H as [H H3]. apply andb_true_iff in H as [H1 H2].
  apply Nat.leb_le in H1, H2. apply bool_decide_eq_true in H3.
  split; [lia | exact H3].
Qed.

Lemma Offsets11_neighbor_counts_witness :
  (2 <= length (Offsets11.getNeighbors 11) <= 6)%nat /\
  (length (Offsets11.getNeighbors 11) = 2%nat <-> 11 = 11 \/ 11 = 91).
Proof.
  apply (proj2 Offsets11_neighbor_counts 11). vm_compute. left.
Defined.

(** ** The line test on two cells *)

Lemma isArithmeticSequence_pair a b :
  Part000.isArithmeticSequence [a; b] = true <->
  (b - a = 1 \/ b - a = 9 \/ b - a = 10 \/ a - b = 1 \/ a - b = 9 \/ a - b = 10).
Proof.
  unfold Part000.isArithmeticSequence. rewrite sortAsc_pair.
  cbn [length Nat.leb]. unfold includes.
  destruct (decide (a <= b)) as [Hle|Hgt]; unfold at_; cbn [nth length Nat.sub seq forallb];
    (destruct (bool_decide _) eqn:E; cbn [negb];
     [apply bool_decide_eq_true in E | apply bool_decide_eq_false in E];
     rewrite !elem_of_cons, elem_of_nil in E; split; intros H;
     try reflexivity; try discriminate; lia).
Qed.

(** X29. On two cells the line test is adjacency: for a valid cell [b], the
    pair [a, b] passes [isArithmeticSequence] (in either version) exactly when
    [b] is one of the neighbours [getNeighbors] lists for [a]; in particular a
    cell never forms a line with itself. *)
Theorem pair_line_is_adjacency (a b : Z) :
  b ∈ CELLS ->
  (Part000.isArithmeticSequence [a; b] = true <-> b ∈ getNeighbors a) /\
  (App.isArithmeticSequence [a; b] = true <-> b ∈ getNeighbors a) /\
  Part000.isArithmeticSequence [a; a] = false.
Proof.
  intros Hb. apply CELL_SET_has_true in Hb.
  assert (H : Part000.isArithmeticSequence [a; b] = true <-> b ∈ getNeighbors a).
  { rewrite isArithmeticSequence_pair, elem_of_getNeighbors. split.
    - intros H. split; [exact Hb | lia].
    - intros [_ H]. lia. }
  split; [exact H|]. split.
  - rewrite <- H. unfold App.isArithmeticSequence, Part000.isArithmeticSequence.
    cbn [length Nat.leb].
    destruct (negb (includes [1; 9; 10] _)); [reflexivity|].
    rewrite every_form_steps, for_form_steps. reflexivity.
  - destruct (Part000.isArithmeticSequence [a; a]) eqn:E; [|reflexivity].
    apply isArithmeticSequence_pair in E. lia.
Qed.

Lemma pair_line_is_adjacency_witness :
  Part000.isArithmeticSequence [15; 24] = true <-> 24 ∈ getNeighbors 15.
Proof.
  apply (pair_line_is_adjacency 15 24).
  apply (bool_decide_unpack _). vm_compute. exact I.
Defined.
